(** * Highly-Efficient-PDF-Renderer: extraction pipeline and spatial index

    A shallow embedding of the stroke pipeline of the renderer
    ([pdfVectorExtractor.ts], [spatialGrid.ts], the WebGL renderer's
    visible-set builder and [parsedDataZip.ts]) together with the properties
    the design document states about it.

    Conventions of the embedding.
    - A JavaScript [number] that holds a coordinate, a width or a colour is an
      exact rational ([Q]); [NaN] and the infinities are not represented, and
      the rounding of [Float32Array] stores is not modelled.  Counters and
      array indices are [nat]; the elements of a [Uint32Array] are [Z] reduced
      modulo [2^32] at every store.
    - A [Float32Array] of four-float records is a list of [Quad]s.
    - Mutable objects are threaded explicitly as state records. *)

From Stdlib Require Import QArith Qround Qminmax Qabs ZArith List Lia Lqa Bool.
From stdpp Require Import list.
Import ListNotations.

(** ** JavaScript numbers *)

Module Num.
Local Open Scope Q_scope.

Definition Qleb (x y : Q) : bool := Qle_bool x y.
Definition Qltb (x y : Q) : bool := negb (Qle_bool y x).
Definition Qeqb (x y : Q) : bool := Qeq_bool x y.

(** [Math.round]: the nearest integer, halves towards plus infinity. *)
Definition round (x : Q) : Z := Qfloor (x + (1 # 2)).

(** [Math.floor]. *)
Definition floor (x : Q) : Z := Qfloor x.

(** [Math.min] and [Math.max] on two and on three arguments. *)
Definition min2 (a b : Q) : Q := if Qleb a b then a else b.
Definition max2 (a b : Q) : Q := if Qleb a b then b else a.
Definition min3 (a b c : Q) : Q := min2 (min2 a b) c.
Definition max3 (a b c : Q) : Q := max2 (max2 a b) c.

(** [Math.abs]. *)
Definition abs (x : Q) : Q := Qabs x.

(** [Math.sqrt] and [Math.hypot].  The result is exact when the argument is
    the square of a rational and is otherwise rounded down to a multiple of
    [2^-64 / den]; it is only applied to sums of squares. *)
Definition SQRT_BITS : Z := 64.
Definition sqrt (x : Q) : Q :=
  let n := Qnum x in
  let d := Zpos (Qden x) in
  Qmake (Z.sqrt (n * d * 4 ^ SQRT_BITS)) (Z.to_pos (d * 2 ^ SQRT_BITS)).
Definition hypot (x y : Q) : Q := sqrt (x * x + y * y).

(** Four floats of a packed record. *)
Record Quad : Type := mkQuad { qa : Q; qb : Q; qc : Q; qd : Q }.

(** A store of a computed number into a [Float32Array]: the value is kept
    and its fraction is put in lowest terms, so that equal values are equal
    records. *)
Definition f32 (x : Q) : Q := Qred x.

(** [Array.prototype.sort(compare)]: a stable insertion sort.  Each element
    moves left past the elements that compare greater than it.  The sorted
    prefix is kept reversed while an element is inserted. *)
Section Sort.
Context {A : Type} (compare : A -> A -> Q).

Fixpoint insertBack (x : A) (revPrefix : list A) : list A :=
  match revPrefix with
  | [] => [x]
  | y :: rest =>
      if Qltb 0 (compare y x) then y :: insertBack x rest
      else x :: y :: rest
  end.

Definition sortBy (l : list A) : list A :=
  rev (fold_left (fun acc x => insertBack x acc) l []).
End Sort.

End Num.
Import Num.

(** ** pdfVectorExtractor.ts *)

Module Extractor.
Local Open Scope Q_scope.

Definition CURVE_FLATNESS : Q := 0.35.
Definition MAX_CURVE_SPLIT_DEPTH : nat := 9.

(** A chord handed to the [emitLine] callback. *)
Record Chord : Type := mkChord { ax : Q; ay : Q; bx : Q; by_ : Q }.

(** One nine-number record of the explicit subdivision stack of
    [flattenCubic]: four control points and the depth. *)
Record CubicRec : Type := mkCubic {
  q0x : Q; q0y : Q; q1x : Q; q1y : Q;
  q2x : Q; q2y : Q; q3x : Q; q3y : Q;
  depth : nat
}.

Definition crossDistanceSq (px py ux uy lenSq : Q) : Q :=
  let cross := px * uy - py * ux in
  (cross * cross) / lenSq.

Definition cubicFlatnessSq (x0 y0 x1 y1 x2 y2 x3 y3 : Q) : Q :=
  let ux := x3 - x0 in
  let uy := y3 - y0 in
  let lenSq := ux * ux + uy * uy in
  if Qltb lenSq 1e-12 then 0
  else
    let d1 := crossDistanceSq (x1 - x0) (y1 - y0) ux uy lenSq in
    let d2 := crossDistanceSq (x2 - x0) (y2 - y0) ux uy lenSq in
    max2 d1 d2.

Definition recFlatnessSq (r : CubicRec) : Q :=
  cubicFlatnessSq (q0x r) (q0y r) (q1x r) (q1y r) (q2x r) (q2y r) (q3x r) (q3y r).

(** The test that ends the subdivision of a record. *)
Definition isLeaf (flatness : Q) (maxDepth : nat) (r : CubicRec) : bool :=
  (maxDepth <=? depth r)%nat || Qleb (recFlatnessSq r) (flatness * flatness).

Definition chordOf (r : CubicRec) : Chord :=
  mkChord (q0x r) (q0y r) (q3x r) (q3y r).

(** de Casteljau midpoint subdivision: the half that starts at the record's
    first point, and the half that ends at its last point. *)
Definition firstHalf (r : CubicRec) : CubicRec :=
  let x01 := (q0x r + q1x r) * 0.5 in
  let y01 := (q0y r + q1y r) * 0.5 in
  let x12 := (q1x r + q2x r) * 0.5 in
  let y12 := (q1y r + q2y r) * 0.5 in
  let x23 := (q2x r + q3x r) * 0.5 in
  let y23 := (q2y r + q3y r) * 0.5 in
  let x012 := (x01 + x12) * 0.5 in
  let y012 := (y01 + y12) * 0.5 in
  let x123 := (x12 + x23) * 0.5 in
  let y123 := (y12 + y23) * 0.5 in
  let x0123 := (x012 + x123) * 0.5 in
  let y0123 := (y012 + y123) * 0.5 in
  mkCubic (q0x r) (q0y r) x01 y01 x012 y012 x0123 y0123 (depth r + 1).

Definition secondHalf (r : CubicRec) : CubicRec :=
  let x01 := (q0x r + q1x r) * 0.5 in
  let y01 := (q0y r + q1y r) * 0.5 in
  let x12 := (q1x r + q2x r) * 0.5 in
  let y12 := (q1y r + q2y r) * 0.5 in
  let x23 := (q2x r + q3x r) * 0.5 in
  let y23 := (q2y r + q3y r) * 0.5 in
  let x012 := (x01 + x12) * 0.5 in
  let y012 := (y01 + y12) * 0.5 in
  let x123 := (x12 + x23) * 0.5 in
  let y123 := (y12 + y23) * 0.5 in
  let x0123 := (x012 + x123) * 0.5 in
  let y0123 := (y012 + y123) * 0.5 in
  mkCubic x0123 y0123 x123 y123 x23 y23 (q3x r) (q3y r) (depth r + 1).

(** One iteration of the [while (stack.length > 0)] loop.  The head of the
    list is the top of the stack; [out] collects the calls of [emitLine] in
    order.  [None] when the stack is empty (the loop has ended). *)
Definition flattenStep (flatness : Q) (maxDepth : nat)
    (s : list CubicRec * list Chord) : option (list CubicRec * list Chord) :=
  match fst s with
  | [] => None
  | r :: rest =>
      if isLeaf flatness maxDepth r
      then Some (rest, snd s ++ [chordOf r])
      else Some (firstHalf r :: secondHalf r :: rest, snd s)
  end.

(** The loop, with a bound on the number of iterations; [None] when the
    bound is reached before the stack is empty. *)
Fixpoint flattenLoop (fuel : nat) (flatness : Q) (maxDepth : nat)
    (stack : list CubicRec) (out : list Chord) : option (list Chord) :=
  match stack with
  | [] => Some out
  | _ =>
      match fuel with
      | O => None
      | S fuel' =>
          match flattenStep flatness maxDepth (stack, out) with
          | Some (stack', out') => flattenLoop fuel' flatness maxDepth stack' out'
          | None => Some out
          end
      end
  end.

(** Iterations that always suffice: a full binary tree of height
    [maxDepth] has [2^(maxDepth+1) - 1] nodes. *)
Definition flattenFuel (maxDepth : nat) : nat := 2 ^ S maxDepth.

Definition flattenCubic (x0 y0 x1 y1 x2 y2 x3 y3 : Q) (flatness : Q) (maxDepth : nat)
    : list Chord :=
  match flattenLoop (flattenFuel maxDepth) flatness maxDepth
          [mkCubic x0 y0 x1 y1 x2 y2 x3 y3 0] [] with
  | Some out => out
  | None => []
  end.

(** *** Geometry and graphics state *)

Record Mat2D : Type := mkMat { m0 : Q; m1 : Q; m2 : Q; m3 : Q; m4 : Q; m5 : Q }.

Record GraphicsState : Type := mkGState {
  matrix : Mat2D;
  lineWidth : Q;
  strokeLuma : Q;
  strokeAlpha : Q
}.

Record Bounds : Type := mkBounds { minX : Q; minY : Q; maxX : Q; maxY : Q }.

(** A stroke as the two builders hold it: the record pushed on the endpoint
    builder and the record pushed on the style builder by the same call. *)
Record Stroke : Type := mkStroke { endpoint : Quad; style : Quad }.

Record VectorScene : Type := mkScene {
  segmentCount : nat;
  sourceSegmentCount : nat;
  mergedSegmentCount : nat;
  endpoints : list Quad;
  styles : list Quad;
  bounds : Bounds;
  pageBounds : Bounds;
  maxHalfWidth : Q;
  operatorCount : nat;
  pathCount : nat;
  discardedTransparentCount : nat;
  discardedDegenerateCount : nat;
  discardedDuplicateCount : nat;
  discardedContainedCount : nat
}.

Record VectorExtractOptions : Type := mkOptions {
  enableSegmentMerge : bool;
  enableInvisibleCull : bool
}.

Definition IDENTITY_MATRIX : Mat2D := mkMat 1 0 0 1 0 0.
Definition SEGMENT_JOIN_EPSILON : Q := 1e-3.
Definition COLLINEAR_DOT_THRESHOLD : Q := 0.999995.
Definition COLLINEAR_PERP_EPSILON : Q := 0.05.
Definition ALPHA_INVISIBLE_EPSILON : Q := 1e-3.
Definition OPAQUE_ALPHA_EPSILON : Q := 0.999.
Definition DUPLICATE_POSITION_SCALE : Q := 1000.
Definition DUPLICATE_STYLE_SCALE : Q := 10000.
Definition COVER_DIRECTION_SCALE : Q := 2000.
Definition COVER_OFFSET_SCALE : Q := 200.
Definition COVER_INTERVAL_EPSILON : Q := 0.05.
Definition COVER_HALF_WIDTH_EPSILON : Q := 1e-4.

Definition clamp01 (value : Q) : Q :=
  if Qleb value 0 then 0
  else if Qleb 1 value then 1
  else value.

Definition multiplyMatrices (a b : Mat2D) : Mat2D :=
  mkMat (m0 a * m0 b + m2 a * m1 b)
        (m1 a * m0 b + m3 a * m1 b)
        (m0 a * m2 b + m2 a * m3 b)
        (m1 a * m2 b + m3 a * m3 b)
        (m0 a * m4 b + m2 a * m5 b + m4 a)
        (m1 a * m4 b + m3 a * m5 b + m5 a).

Definition matrixScale (m : Mat2D) : Q :=
  let sx := hypot (m0 m) (m1 m) in
  let sy := hypot (m2 m) (m3 m) in
  let scale := (sx + sy) * 0.5 in
  if Qltb 0 scale then scale else 1.

Definition applyMatrix (m : Mat2D) (x y : Q) : Q * Q :=
  (m0 m * x + m2 m * y + m4 m, m1 m * x + m3 m * y + m5 m).

Definition transformBounds (b : Bounds) (m : Mat2D) : Bounds :=
  let p0 := applyMatrix m (minX b) (minY b) in
  let p1 := applyMatrix m (minX b) (maxY b) in
  let p2 := applyMatrix m (maxX b) (minY b) in
  let p3 := applyMatrix m (maxX b) (maxY b) in
  mkBounds (min2 (min3 (fst p0) (fst p1) (fst p2)) (fst p3))
           (min2 (min3 (snd p0) (snd p1) (snd p2)) (snd p3))
           (max2 (max3 (fst p0) (fst p1) (fst p2)) (fst p3))
           (max2 (max3 (snd p0) (snd p1) (snd p2)) (snd p3)).

Definition createDefaultState (initialMatrix : Mat2D) : GraphicsState :=
  mkGState initialMatrix 1 0 1.

(** *** Operator arguments, after the [read...] helpers have classified them *)

(** The argument of a stroke-colour operator as [parseLuma] sees it. *)
Inductive ColorArg : Type :=
| ColNumber (v : Q)            (* a finite number *)
| ColHex (r g b : Q)           (* "#rgb" or "#rrggbb", channels 0..255 *)
| ColArray (r g b : Q)         (* an array of at least three finite numbers *)
| ColOther.                    (* anything else *)

Definition parseLuma (value : ColorArg) (fallback : Q) : Q :=
  match value with
  | ColNumber v => clamp01 v
  | ColHex r g b => clamp01 ((0.2126 * r + 0.7152 * g + 0.0722 * b) / 255)
  | ColArray r g b =>
      let norm (entry : Q) := if Qltb 1 entry then entry / 255 else entry in
      clamp01 (0.2126 * norm r + 0.7152 * norm g + 0.0722 * norm b)
  | ColOther => fallback
  end.

(** One [key, value] pair of a [setGState] operator; the value is [None]
    when [Number(value)] is not finite. *)
Inductive GStateEntry : Type :=
| EntryCA (v : option Q)
| EntryLW (v : option Q)
| EntryOther.

Definition applyGraphicsStateEntry (state : GraphicsState) (e : GStateEntry) : GraphicsState :=
  match e with
  | EntryCA (Some a) =>
      mkGState (matrix state) (lineWidth state) (strokeLuma state) (clamp01 a)
  | EntryLW (Some w) =>
      mkGState (matrix state) (max2 0 w) (strokeLuma state) (strokeAlpha state)
  | _ => state
  end.

Definition applyGraphicsStateEntries (entries : list GStateEntry) (state : GraphicsState)
    : GraphicsState :=
  fold_left applyGraphicsStateEntry entries state.

(** The paint operation of [constructPath], by its pdf.js name. *)
Inductive PaintOp : Type :=
| PaintStroke | PaintCloseStroke | PaintFillStroke | PaintEoFillStroke
| PaintCloseFillStroke | PaintCloseEOFillStroke | PaintOther.

Definition isStrokePaintOp (op : PaintOp) : bool :=
  match op with
  | PaintOther => false
  | _ => true
  end.

(** The packed path data, one constructor per opcode with its operands;
    [DrawUnknown] is any opcode outside [0..4].  Path data whose last record
    lacks operands is outside the model. *)
Inductive DrawCmd : Type :=
| DrawMoveTo (x y : Q)
| DrawLineTo (x y : Q)
| DrawCurveTo (x1 y1 x2 y2 x3 y3 : Q)
| DrawQuadTo (x1 y1 x2 y2 : Q)
| DrawClose
| DrawUnknown.

Inductive Operator : Type :=
| OpSave
| OpRestore
| OpTransform (t : option Mat2D)         (* [readTransform]: [None] for [null] *)
| OpSetLineWidth (w : option Q)          (* [None]: not a finite number *)
| OpSetStrokeColor (v : ColorArg)        (* RGB, generic, gray and CMYK setters *)
| OpSetGState (entries : list GStateEntry)
| OpConstructPath (paint : PaintOp) (path : option (list DrawCmd))
| OpOther.

(** *** emitSegmentsFromPath *)

(** The bounds accumulator starts as the box
    [(+inf, +inf, -inf, -inf)], here [None]; [extendBounds] is the four
    [Math.min]/[Math.max] updates that follow a push. *)
Definition extendBounds (acc : option Bounds) (x0 y0 x1 y1 : Q) : option Bounds :=
  match acc with
  | None => Some (mkBounds (min2 x0 x1) (min2 y0 y1) (max2 x0 x1) (max2 y0 y1))
  | Some b => Some (mkBounds (min3 (minX b) x0 x1) (min3 (minY b) y0 y1)
                             (max3 (maxX b) x0 x1) (max3 (maxY b) y0 y1))
  end.

(** The objects shared by all paths of a page: both builders and the
    bounds accumulator. *)
Record Sink : Type := mkSink {
  strokes : list Stroke;
  sinkBounds : option Bounds
}.

Definition pushStroke (k : Sink) (halfWidth luma alpha : Q) (x0 y0 x1 y1 : Q) : Sink :=
  mkSink (strokes k ++ [mkStroke (mkQuad (f32 x0) (f32 y0) (f32 x1) (f32 y1))
                                 (mkQuad (f32 halfWidth) (f32 luma) (f32 alpha) 0)])
         (extendBounds (sinkBounds k) x0 y0 x1 y1).

(** The local variables of one call, with the sink. *)
Record PathState : Type := mkPathState {
  emitted : nat;                 (* the local [sourceSegmentCount] *)
  cursorX : Q; cursorY : Q;
  startX : Q; startY : Q;
  hasStart : bool;
  pending : option Chord;        (* [hasPending] with [pendingX0..pendingY1] *)
  sink : Sink
}.

Section Path.
Variable mat : Mat2D.
Variables halfWidth luma alpha : Q.
Variable allowSegmentMerge : bool.

Definition setPending (s : PathState) (p : option Chord) : PathState :=
  mkPathState (emitted s) (cursorX s) (cursorY s) (startX s) (startY s) (hasStart s) p (sink s).

Definition setSink (s : PathState) (k : Sink) : PathState :=
  mkPathState (emitted s) (cursorX s) (cursorY s) (startX s) (startY s) (hasStart s)
              (pending s) k.

Definition flushPending (s : PathState) : PathState :=
  match pending s with
  | None => s
  | Some p =>
      setPending
        (setSink s (pushStroke (sink s) halfWidth luma alpha (ax p) (ay p) (bx p) (by_ p)))
        None
  end.

(** [tryMergePending]: [Some] of the extended pending segment when the
    merge succeeds (the closure returns [true]), [None] otherwise. *)
Definition tryMergePending (pend : option Chord) (x0 y0 x1 y1 : Q) : option Chord :=
  match pend with
  | None => None
  | Some p =>
      let joinDx := x0 - bx p in
      let joinDy := y0 - by_ p in
      if Qltb (SEGMENT_JOIN_EPSILON * SEGMENT_JOIN_EPSILON) (joinDx * joinDx + joinDy * joinDy)
      then None
      else
        let baseDx := bx p - ax p in
        let baseDy := by_ p - ay p in
        let nextDx := x1 - x0 in
        let nextDy := y1 - y0 in
        let baseLenSq := baseDx * baseDx + baseDy * baseDy in
        let nextLenSq := nextDx * nextDx + nextDy * nextDy in
        if Qltb baseLenSq 1e-10 || Qltb nextLenSq 1e-10 then None
        else
          let invLenProduct := 1 / sqrt (baseLenSq * nextLenSq) in
          let dot := (baseDx * nextDx + baseDy * nextDy) * invLenProduct in
          if Qltb dot COLLINEAR_DOT_THRESHOLD then None
          else
            let chainDx := x1 - ax p in
            let chainDy := y1 - ay p in
            let perpDistSq := crossDistanceSq chainDx chainDy baseDx baseDy baseLenSq in
            if Qltb (COLLINEAR_PERP_EPSILON * COLLINEAR_PERP_EPSILON) perpDistSq then None
            else Some (mkChord (ax p) (ay p) x1 y1)
  end.

Definition bumpEmitted (s : PathState) : PathState :=
  mkPathState (S (emitted s)) (cursorX s) (cursorY s) (startX s) (startY s) (hasStart s)
              (pending s) (sink s).

Definition emitLine (s : PathState) (x0 y0 x1 y1 : Q) (allowMerge : bool) : PathState :=
  let dx := x1 - x0 in
  let dy := y1 - y0 in
  if Qltb (dx * dx + dy * dy) 1e-10 then s
  else
    let s1 := bumpEmitted s in
    match (if allowSegmentMerge && allowMerge
           then tryMergePending (pending s1) x0 y0 x1 y1 else None) with
    | Some merged => setPending s1 (Some merged)
    | None =>
        if allowSegmentMerge
        then setPending (flushPending s1) (Some (mkChord x0 y0 x1 y1))
        else setSink s1 (pushStroke (sink s1) halfWidth luma alpha x0 y0 x1 y1)
    end.

Definition emitChords (s : PathState) (chords : list Chord) : PathState :=
  fold_left (fun st c => emitLine st (ax c) (ay c) (bx c) (by_ c) false) chords s.

Definition setCursor (s : PathState) (x y : Q) : PathState :=
  mkPathState (emitted s) x y (startX s) (startY s) (hasStart s) (pending s) (sink s).

(** The body of the loop for one record; the boolean is [false] after the
    [break] of an unknown opcode. *)
Definition pathStep (s : PathState) (cmd : DrawCmd) : PathState * bool :=
  match cmd with
  | DrawMoveTo x y =>
      let s1 := flushPending s in
      (mkPathState (emitted s1) x y x y true (pending s1) (sink s1), true)
  | DrawLineTo x y =>
      let t0 := applyMatrix mat (cursorX s) (cursorY s) in
      let t1 := applyMatrix mat x y in
      (setCursor (emitLine s (fst t0) (snd t0) (fst t1) (snd t1) true) x y, true)
  | DrawCurveTo x1 y1 x2 y2 x3 y3 =>
      let t0 := applyMatrix mat (cursorX s) (cursorY s) in
      let t1 := applyMatrix mat x1 y1 in
      let t2 := applyMatrix mat x2 y2 in
      let t3 := applyMatrix mat x3 y3 in
      let chords := flattenCubic (fst t0) (snd t0) (fst t1) (snd t1) (fst t2) (snd t2)
                      (fst t3) (snd t3) CURVE_FLATNESS MAX_CURVE_SPLIT_DEPTH in
      (setCursor (emitChords s chords) x3 y3, true)
  | DrawQuadTo x1 y1 x2 y2 =>
      let c1x := cursorX s + (2 / 3) * (x1 - cursorX s) in
      let c1y := cursorY s + (2 / 3) * (y1 - cursorY s) in
      let c2x := x2 + (2 / 3) * (x1 - x2) in
      let c2y := y2 + (2 / 3) * (y1 - y2) in
      let t0 := applyMatrix mat (cursorX s) (cursorY s) in
      let t1 := applyMatrix mat c1x c1y in
      let t2 := applyMatrix mat c2x c2y in
      let t3 := applyMatrix mat x2 y2 in
      let chords := flattenCubic (fst t0) (snd t0) (fst t1) (snd t1) (fst t2) (snd t2)
                      (fst t3) (snd t3) CURVE_FLATNESS MAX_CURVE_SPLIT_DEPTH in
      (setCursor (emitChords s chords) x2 y2, true)
  | DrawClose =>
      let s1 :=
        if hasStart s && (negb (Qeqb (cursorX s) (startX s)) || negb (Qeqb (cursorY s) (startY s)))
        then
          let t0 := applyMatrix mat (cursorX s) (cursorY s) in
          let t1 := applyMatrix mat (startX s) (startY s) in
          emitLine s (fst t0) (snd t0) (fst t1) (snd t1) true
        else s in
      (flushPending (setCursor s1 (startX s1) (startY s1)), true)
  | DrawUnknown => (flushPending s, false)
  end.

Fixpoint pathLoop (s : PathState) (pathData : list DrawCmd) : PathState :=
  match pathData with
  | [] => s
  | cmd :: rest =>
      let '(s1, continue) := pathStep s cmd in
      if continue then pathLoop s1 rest else s1
  end.

(** Returns the number of source segments and the updated sink. *)
Definition emitSegmentsFromPath (pathData : list DrawCmd) (k : Sink) : nat * Sink :=
  let s0 := mkPathState 0 0 0 0 0 false None k in
  let s1 := flushPending (pathLoop s0 pathData) in
  (emitted s1, sink s1).
End Path.

(** *** cullInvisibleSegments *)

Record CoverageCandidate : Type := mkCandidate {
  index : nat;
  start : Q;
  end_ : Q;
  halfWidth : Q;
  alpha : Q
}.

Record InvisibleCullResult : Type := mkCullResult {
  cullSegmentCount : nat;
  cullStrokes : list Stroke;       (* [endpoints] and [styles], record by record *)
  cullBounds : Bounds;
  cullMaxHalfWidth : Q;
  cullDiscardedTransparent : nat;
  cullDiscardedDegenerate : nat;
  cullDiscardedDuplicate : nat;
  cullDiscardedContained : nat
}.

Definition quantize (value scale : Q) : Z := round (value * scale).

(** A key is the list of integers that the source joins with ["|"]. *)
Definition Key : Type := list Z.

Definition keyEqb (a b : Key) : bool := bool_decide (a = b).

Definition buildDuplicateKey (x0 y0 x1 y1 halfWidth luma alpha : Q) : Key :=
  let swap := Qltb x1 x0 || (Qeqb x0 x1 && Qltb y1 y0) in
  let ax := if swap then x1 else x0 in
  let ay := if swap then y1 else y0 in
  let bx := if swap then x0 else x1 in
  let by_ := if swap then y0 else y1 in
  [ quantize halfWidth DUPLICATE_STYLE_SCALE;
    quantize luma DUPLICATE_STYLE_SCALE;
    quantize alpha DUPLICATE_STYLE_SCALE;
    quantize ax DUPLICATE_POSITION_SCALE;
    quantize ay DUPLICATE_POSITION_SCALE;
    quantize bx DUPLICATE_POSITION_SCALE;
    quantize by_ DUPLICATE_POSITION_SCALE ].

Definition buildCoverageCandidate (index : nat) (x0 y0 x1 y1 halfWidth luma alpha : Q)
    : Key * CoverageCandidate :=
  let dx := x1 - x0 in
  let dy := y1 - y0 in
  let len := hypot dx dy in
  let ux0 := dx / len in
  let uy0 := dy / len in
  let flip := Qltb ux0 0 || (Qltb (abs ux0) 1e-10 && Qltb uy0 0) in
  let ux := if flip then - ux0 else ux0 in
  let uy := if flip then - uy0 else uy0 in
  let ax := if flip then x1 else x0 in
  let ay := if flip then y1 else y0 in
  let bx := if flip then x0 else x1 in
  let by_ := if flip then y0 else y1 in
  let nx := - uy in
  let ny := ux in
  let offset := nx * ax + ny * ay in
  let t0 := ux * ax + uy * ay in
  let t1 := ux * bx + uy * by_ in
  let key := [ quantize ux COVER_DIRECTION_SCALE;
               quantize uy COVER_DIRECTION_SCALE;
               quantize offset COVER_OFFSET_SCALE;
               quantize luma DUPLICATE_STYLE_SCALE ] in
  (key, mkCandidate index (min2 t0 t1) (max2 t0 t1) halfWidth alpha).

(** [coverageGroups]: a [Map] in insertion order whose values are arrays
    that grow by [push]. *)
Definition Groups : Type := list (Key * list CoverageCandidate).

Fixpoint pushToGroup (groups : Groups) (key : Key) (c : CoverageCandidate) : Groups :=
  match groups with
  | [] => [(key, [c])]
  | (k, bucket) :: rest =>
      if keyEqb k key then (k, bucket ++ [c]) :: rest
      else (k, bucket) :: pushToGroup rest key c
  end.

(** The state of the first loop. *)
Record ScanState : Type := mkScan {
  keepMask : list bool;
  seenDuplicates : list Key;
  coverageGroups : Groups;
  nTransparent : nat;
  nDegenerate : nat;
  nDuplicate : nat
}.

Definition scanStep (s : ScanState) (i : nat) (seg : Stroke) : ScanState :=
  let x0 := qa (endpoint seg) in
  let y0 := qb (endpoint seg) in
  let x1 := qc (endpoint seg) in
  let y1 := qd (endpoint seg) in
  let halfWidth := qa (style seg) in
  let luma := qb (style seg) in
  let alpha := qc (style seg) in
  if Qleb alpha ALPHA_INVISIBLE_EPSILON then
    mkScan (keepMask s) (seenDuplicates s) (coverageGroups s)
           (S (nTransparent s)) (nDegenerate s) (nDuplicate s)
  else
    let dx := x1 - x0 in
    let dy := y1 - y0 in
    let lenSq := dx * dx + dy * dy in
    if Qltb lenSq 1e-10 then
      mkScan (keepMask s) (seenDuplicates s) (coverageGroups s)
             (nTransparent s) (S (nDegenerate s)) (nDuplicate s)
    else
      let duplicateKey := buildDuplicateKey x0 y0 x1 y1 halfWidth luma alpha in
      if existsb (keyEqb duplicateKey) (seenDuplicates s) then
        mkScan (keepMask s) (seenDuplicates s) (coverageGroups s)
               (nTransparent s) (nDegenerate s) (S (nDuplicate s))
      else
        let coverage := buildCoverageCandidate i x0 y0 x1 y1 halfWidth luma alpha in
        mkScan (<[i := true]> (keepMask s))
               (duplicateKey :: seenDuplicates s)
               (pushToGroup (coverageGroups s) (fst coverage) (snd coverage))
               (nTransparent s) (nDegenerate s) (nDuplicate s).

(** The first loop, over the strokes from index [i] on. *)
Fixpoint scanLoop (s : ScanState) (i : nat) (segs : list Stroke) : ScanState :=
  match segs with
  | [] => s
  | seg :: rest => scanLoop (scanStep s i seg) (S i) rest
  end.

(** The comparator handed to [sort]. *)
Definition compareCandidates (a b : CoverageCandidate) : Q :=
  if Qltb COVER_HALF_WIDTH_EPSILON (abs (halfWidth a - halfWidth b))
  then halfWidth b - halfWidth a
  else
    let lenA := end_ a - start a in
    let lenB := end_ b - start b in
    if Qltb COVER_INTERVAL_EPSILON (abs (lenA - lenB))
    then lenB - lenA
    else start a - start b.

(** Whether [cover] shadows [candidate]. *)
Definition covers (cover candidate : CoverageCandidate) : bool :=
  if Qltb (halfWidth cover + COVER_HALF_WIDTH_EPSILON) (halfWidth candidate) then false
  else Qleb (start cover - COVER_INTERVAL_EPSILON) (start candidate)
       && Qleb (end_ candidate) (end_ cover + COVER_INTERVAL_EPSILON).

(** The loop over the sorted candidates of one group: the mask, the
    counter and the list of opaque covers. *)
Definition coverStep (st : list bool * nat * list CoverageCandidate) (candidate : CoverageCandidate)
    : list bool * nat * list CoverageCandidate :=
  let '(mask, contained, opaqueCovers) := st in
  if existsb (fun cover => covers cover candidate) opaqueCovers then
    match mask !! index candidate with
    | Some true => (<[index candidate := false]> mask, S contained, opaqueCovers)
    | _ => (mask, contained, opaqueCovers)
    end
  else if Qleb OPAQUE_ALPHA_EPSILON (alpha candidate)
  then (mask, contained, opaqueCovers ++ [candidate])
  else (mask, contained, opaqueCovers).

Definition coverGroup (st : list bool * nat) (candidates : list CoverageCandidate)
    : list bool * nat :=
  let sorted := sortBy compareCandidates candidates in
  let '(mask, contained, _) := fold_left coverStep sorted (fst st, snd st, []) in
  (mask, contained).

Definition coverLoop (mask : list bool) (groups : Groups) : list bool * nat :=
  fold_left (fun st g => coverGroup st (snd g)) groups (mask, 0%nat).

(** The strokes whose mask entry is set, in input order. *)
Fixpoint selectKept (mask : list bool) (segs : list Stroke) : list Stroke :=
  match mask, segs with
  | keep :: mask', seg :: segs' =>
      if keep then seg :: selectKept mask' segs' else selectKept mask' segs'
  | _, _ => []
  end.

Fixpoint countKept (mask : list bool) : nat :=
  match mask with
  | [] => 0
  | keep :: mask' => (if keep then 1 else 0) + countKept mask'
  end.

Definition strokeBounds (acc : option Bounds) (seg : Stroke) : option Bounds :=
  extendBounds acc (qa (endpoint seg)) (qb (endpoint seg)) (qc (endpoint seg)) (qd (endpoint seg)).

(** The bounds object of a result; the accumulator of a non-empty output is
    never the initial box. *)
Definition boundsOf (acc : option Bounds) : Bounds :=
  match acc with
  | Some b => b
  | None => mkBounds 0 0 0 0
  end.

Definition cullInvisibleSegments (segs : list Stroke) : InvisibleCullResult :=
  let segmentCount := length segs in
  let s := scanLoop (mkScan (replicate segmentCount false) [] [] 0 0 0) 0 segs in
  let '(mask, contained) := coverLoop (keepMask s) (coverageGroups s) in
  let visibleCount := countKept mask in
  match visibleCount with
  | O =>
      mkCullResult 0 [] (mkBounds 0 0 0 0) 0
        (nTransparent s) (nDegenerate s) (nDuplicate s) contained
  | _ =>
      let out := selectKept mask segs in
      mkCullResult visibleCount out
        (boundsOf (fold_left strokeBounds out None))
        (fold_left (fun m seg => max2 m (qa (style seg))) out 0)
        (nTransparent s) (nDegenerate s) (nDuplicate s) contained
  end.

(** *** extractFirstPageVectors *)

(** The mutable variables of the operator loop. *)
Record InterpState : Type := mkInterp {
  stateStack : list GraphicsState;     (* the head is the top *)
  currentState : GraphicsState;
  nPaths : nat;
  nSource : nat;
  widest : Q;                          (* [maxHalfWidth] *)
  pageSink : Sink
}.

Definition withCurrent (s : InterpState) (g : GraphicsState) : InterpState :=
  mkInterp (stateStack s) g (nPaths s) (nSource s) (widest s) (pageSink s).

Definition interpStep (enableSegmentMerge : bool) (s : InterpState) (op : Operator)
    : InterpState :=
  let cur := currentState s in
  match op with
  | OpSave =>
      mkInterp (cur :: stateStack s) cur (nPaths s) (nSource s) (widest s) (pageSink s)
  | OpRestore =>
      match stateStack s with
      | restored :: rest =>
          mkInterp rest restored (nPaths s) (nSource s) (widest s) (pageSink s)
      | [] => s
      end
  | OpTransform (Some t) =>
      withCurrent s (mkGState (multiplyMatrices (matrix cur) t) (lineWidth cur)
                              (strokeLuma cur) (strokeAlpha cur))
  | OpTransform None => s
  | OpSetLineWidth w =>
      let nextWidth := match w with Some v => v | None => lineWidth cur end in
      withCurrent s (mkGState (matrix cur) (max2 0 nextWidth) (strokeLuma cur) (strokeAlpha cur))
  | OpSetStrokeColor v =>
      withCurrent s (mkGState (matrix cur) (lineWidth cur) (parseLuma v (strokeLuma cur))
                              (strokeAlpha cur))
  | OpSetGState entries =>
      withCurrent s (applyGraphicsStateEntries entries cur)
  | OpConstructPath paint path =>
      if negb (isStrokePaintOp paint) then s
      else
        match path with
        | None => s
        | Some pathData =>
            let widthScale := matrixScale (matrix cur) in
            let strokeWidth :=
              if Qltb 0 (lineWidth cur) then lineWidth cur * widthScale else 0.7 in
            let halfWidth := max2 0.2 (strokeWidth * 0.5) in
            let styleLuma := clamp01 (strokeLuma cur) in
            let styleAlpha := clamp01 (strokeAlpha cur) in
            let '(n, k) :=
              emitSegmentsFromPath (matrix cur) halfWidth styleLuma styleAlpha
                enableSegmentMerge pathData (pageSink s) in
            mkInterp (stateStack s) cur (S (nPaths s)) (nSource s + n)
                     (max2 (widest s) halfWidth) k
        end
  | OpOther => s
  end.

(** The page as pdf.js presents it: the view box, the matrix that
    [buildPageMatrix] returns for it, and the operator list. *)
Record Page : Type := mkPage {
  pageView : Q * Q * Q * Q;
  pageMatrix : Mat2D;
  operatorList : list Operator
}.

Definition pageBoundsOf (page : Page) : Bounds :=
  let '(v0, v1, v2, v3) := pageView page in
  let rawPageBounds := mkBounds (min2 v0 v2) (min2 v1 v3) (max2 v0 v2) (max2 v1 v3) in
  transformBounds rawPageBounds (pageMatrix page).

Definition runOperators (page : Page) (options : VectorExtractOptions) : InterpState :=
  fold_left (interpStep (enableSegmentMerge options)) (operatorList page)
    (mkInterp [] (createDefaultState (pageMatrix page)) 0 0 0 (mkSink [] None)).

Definition extractFirstPageVectors (page : Page) (options : VectorExtractOptions)
    : VectorScene :=
  let pageBounds := pageBoundsOf page in
  let s := runOperators page options in
  let merged := strokes (pageSink s) in
  let mergedSegmentCount := length merged in
  let operatorCount := length (operatorList page) in
  match mergedSegmentCount with
  | O =>
      mkScene 0 (nSource s) mergedSegmentCount [] [] pageBounds pageBounds 0
              operatorCount (nPaths s) 0 0 0 0
  | _ =>
      if negb (enableInvisibleCull options) then
        mkScene mergedSegmentCount (nSource s) mergedSegmentCount
                (map endpoint merged) (map style merged)
                (boundsOf (sinkBounds (pageSink s))) pageBounds (widest s)
                operatorCount (nPaths s) 0 0 0 0
      else
        let culled := cullInvisibleSegments merged in
        match cullSegmentCount culled with
        | O =>
            mkScene 0 (nSource s) mergedSegmentCount [] [] pageBounds pageBounds 0
                    operatorCount (nPaths s)
                    (cullDiscardedTransparent culled) (cullDiscardedDegenerate culled)
                    (cullDiscardedDuplicate culled) (cullDiscardedContained culled)
        | _ =>
            mkScene (cullSegmentCount culled) (nSource s) mergedSegmentCount
                    (map endpoint (cullStrokes culled)) (map style (cullStrokes culled))
                    (cullBounds culled) pageBounds (cullMaxHalfWidth culled)
                    operatorCount (nPaths s)
                    (cullDiscardedTransparent culled) (cullDiscardedDegenerate culled)
                    (cullDiscardedDuplicate culled) (cullDiscardedContained culled)
        end
  end.

End Extractor.

(** ** spatialGrid.ts *)

Module SpatialGrid.
Import Extractor.
Local Open Scope Z_scope.

Definition MIN_GRID_SIDE : Z := 64.
Definition MAX_GRID_SIDE : Z := 1024.
Definition MIN_TARGET_CELLS : Z := 30000.
Definition MAX_TARGET_CELLS : Z := 220000.

(** The conversion of a store into a [Uint32Array]. *)
Definition u32 (z : Z) : Z := z mod 2 ^ 32.

(** A read of a [Uint32Array] at an index inside it. *)
Definition get (a : list Z) (i : nat) : Z := default 0 (a !! i).

Record SpatialGrid : Type := mkGrid {
  gridWidth : Z;
  gridHeight : Z;
  gMinX : Q;
  gMinY : Q;
  gMaxX : Q;
  gMaxY : Q;
  cellWidth : Q;
  cellHeight : Q;
  offsets : list Z;
  counts : list Z;
  indices : list Z;
  maxCellPopulation : Z
}.

Definition clamp (value min max : Z) : Z :=
  if value <? min then min
  else if max <? value then max
  else value.

Definition clampToCell (value maxCells : Z) : Z :=
  if value <? 0 then 0
  else if maxCells <=? value then maxCells - 1
  else value.

Definition chooseGridSize (segmentCount : nat) (width height : Q) : Z * Z :=
  let targetCells :=
    clamp (round (inject_Z (Z.of_nat segmentCount) / 8)%Q) MIN_TARGET_CELLS MAX_TARGET_CELLS in
  let aspect := (width / height)%Q in
  let gridWidth := round (sqrt (inject_Z targetCells * aspect)%Q) in
  let gridHeight := round (inject_Z targetCells / inject_Z (Z.max gridWidth 1))%Q in
  (clamp gridWidth MIN_GRID_SIDE MAX_GRID_SIDE, clamp gridHeight MIN_GRID_SIDE MAX_GRID_SIDE).

(** The cell range [(c0, c1, r0, r1)] of stroke [i]; [None] when the
    scene has no record [i] (the reads are [undefined], every bound is
    [NaN] and the loops over the range do not run). *)
Definition cellRange (scene : VectorScene) (gridWidth gridHeight : Z) (cellWidth cellHeight : Q)
    (i : nat) : option (Z * Z * Z * Z) :=
  match endpoints scene !! i, styles scene !! i with
  | Some e, Some s =>
      let x0 := qa e in
      let y0 := qb e in
      let x1 := qc e in
      let y1 := qd e in
      let halfWidth := qa s in
      let margin := (halfWidth + 0.35)%Q in
      let minX := (min2 x0 x1 - margin)%Q in
      let minY := (min2 y0 y1 - margin)%Q in
      let maxX := (max2 x0 x1 + margin)%Q in
      let maxY := (max2 y0 y1 + margin)%Q in
      let c0 := clampToCell (floor ((minX - Extractor.minX (bounds scene)) / cellWidth)%Q) gridWidth in
      let c1 := clampToCell (floor ((maxX - Extractor.minX (bounds scene)) / cellWidth)%Q) gridWidth in
      let r0 := clampToCell (floor ((minY - Extractor.minY (bounds scene)) / cellHeight)%Q) gridHeight in
      let r1 := clampToCell (floor ((maxY - Extractor.minY (bounds scene)) / cellHeight)%Q) gridHeight in
      Some (c0, c1, r0, r1)
  | _, _ => None
  end.

(** The values of [cellIndex] that the two nested loops
    [for row = r0..r1 { cellIndex = row * gridWidth + c0; for col = c0..c1 ... }]
    visit, in order. *)
Definition rangeCells (gridWidth : Z) (range : Z * Z * Z * Z) : list nat :=
  let '(c0, c1, r0, r1) := range in
  row ← seqZ r0 (r1 - r0 + 1);
  col ← seqZ c0 (c1 - c0 + 1);
  [Z.to_nat (row * gridWidth + col)].

Definition strokeCells (scene : VectorScene) (gridWidth gridHeight : Z)
    (cellWidth cellHeight : Q) (i : nat) : list nat :=
  match cellRange scene gridWidth gridHeight cellWidth cellHeight i with
  | Some range => rangeCells gridWidth range
  | None => []
  end.

(** First pass: one visit of a cell. *)
Definition countCell (st : list Z * Z) (cellIndex : nat) : list Z * Z :=
  let '(counts, maxCellPopulation) := st in
  let next := get counts cellIndex + 1 in
  (<[cellIndex := u32 next]> counts,
   if maxCellPopulation <? next then next else maxCellPopulation).

(** The prefix-sum loop, iteration [i]. *)
Definition offsetStep (counts : list Z) (offsets : list Z) (i : nat) : list Z :=
  <[S i := u32 (get offsets i + get counts i)]> offsets.

(** Second pass: one visit of a cell by stroke [i]. *)
Definition fillCell (i : nat) (st : list Z * list Z) (cellIndex : nat) : list Z * list Z :=
  let '(indices, cursors) := st in
  let writeOffset := get cursors cellIndex in
  (<[Z.to_nat writeOffset := u32 (Z.of_nat i)]> indices,
   <[cellIndex := u32 (writeOffset + 1)]> cursors).

(** The grid dimensions and the cell size:
    [(gridWidth, gridHeight, cellWidth, cellHeight)]. *)
Definition gridGeometry (scene : VectorScene) : Z * Z * Q * Q :=
  let width := max2 (Extractor.maxX (bounds scene) - Extractor.minX (bounds scene))%Q 1e-5 in
  let height := max2 (Extractor.maxY (bounds scene) - Extractor.minY (bounds scene))%Q 1e-5 in
  let '(gridWidth, gridHeight) := chooseGridSize (segmentCount scene) width height in
  (gridWidth, gridHeight, (width / inject_Z gridWidth)%Q, (height / inject_Z gridHeight)%Q).

(** The first loop over the strokes: [counts] and [maxCellPopulation]. *)
Definition countPass (cellsOf : nat -> list nat) (segmentCount cellCount : nat) : list Z * Z :=
  fold_left (fun st i => fold_left countCell (cellsOf i) st)
            (seq 0 segmentCount) (replicate cellCount 0, 0).

(** The prefix-sum loop: [offsets]. *)
Definition offsetPass (counts : list Z) (cellCount : nat) : list Z :=
  fold_left (offsetStep counts) (seq 0 cellCount) (replicate (S cellCount) 0).

(** The second loop over the strokes: [indices] and the final [cursors]. *)
Definition fillPass (cellsOf : nat -> list nat) (segmentCount cellCount : nat)
    (offsets : list Z) : list Z * list Z :=
  fold_left (fun st i => fold_left (fillCell i) (cellsOf i) st)
            (seq 0 segmentCount)
            (replicate (Z.to_nat (get offsets cellCount)) 0, take cellCount offsets).

Definition buildSpatialGrid (scene : VectorScene) : SpatialGrid :=
  let segmentCount := segmentCount scene in
  let '(gridWidth, gridHeight, cellWidth, cellHeight) := gridGeometry scene in
  let cellCount := Z.to_nat (gridWidth * gridHeight) in
  let cellsOf := strokeCells scene gridWidth gridHeight cellWidth cellHeight in
  let '(counts, maxCellPopulation) := countPass cellsOf segmentCount cellCount in
  let offsets := offsetPass counts cellCount in
  let '(indices, _) := fillPass cellsOf segmentCount cellCount offsets in
  mkGrid gridWidth gridHeight
         (Extractor.minX (bounds scene)) (Extractor.minY (bounds scene))
         (Extractor.maxX (bounds scene)) (Extractor.maxY (bounds scene))
         cellWidth cellHeight offsets counts indices maxCellPopulation.

(** The cell visits of both loops, stroke by stroke: the grid memberships. *)
Definition memberships (scene : VectorScene) : list nat :=
  let '(gridWidth, gridHeight, cellWidth, cellHeight) := gridGeometry scene in
  flat_map (strokeCells scene gridWidth gridHeight cellWidth cellHeight)
           (seq 0 (segmentCount scene)).

End SpatialGrid.

(** ** The WebGL renderer: scene installation and the per-frame visible set

    [Renderer] is the revision of the renderer that tracks interaction and
    keeps per-stroke bounds; [RendererBasic] further down is
    [gpuFloorplanRenderer.ts]. *)

Module Renderer.
Import Extractor SpatialGrid.
Local Open Scope Z_scope.

Definition INTERACTION_DECAY_MS : Q := 140.
Definition FULL_VIEW_FALLBACK_THRESHOLD : Q := 0.92.
Definition MARK_TOKEN_LIMIT : Z := 0xffffffff.

(** The fields of the renderer that scene installation and the visible-set
    builder read or write. *)
Record State : Type := mkState {
  scene : option VectorScene;
  grid : option SpatialGrid;
  allSegmentIds : list Z;
  visibleSegmentIds : list Z;
  segmentMarks : list Z;
  segmentMinX : list Q;
  segmentMinY : list Q;
  segmentMaxX : list Q;
  segmentMaxY : list Q;
  markToken : Z;
  segmentCount : nat;
  visibleSegmentCount : nat;
  usingAllSegments : bool;
  needsVisibleSetUpdate : bool;
  cameraCenterX : Q;
  cameraCenterY : Q;
  zoom : Q;
  canvasWidth : Q;
  canvasHeight : Q;
  lastInteractionTime : option Q;     (* [None]: [Number.NEGATIVE_INFINITY] *)
  isPanInteracting : bool
}.

Definition clampToGrid (value gridSize : Z) : Z :=
  if value <? 0 then 0
  else if gridSize <=? value then gridSize - 1
  else value.

(** [performance.now() - lastInteractionTime <= INTERACTION_DECAY_MS];
    the clock reading is an argument. *)
Definition isInteractionActive (now : Q) (st : State) : bool :=
  match lastInteractionTime st with
  | Some t => Qleb (now - t) INTERACTION_DECAY_MS
  | None => false
  end.

(** The four bound arrays. *)
Record SegmentBounds : Type := mkSegBounds {
  sbMinX : list Q; sbMinY : list Q; sbMaxX : list Q; sbMaxY : list Q
}.

(** One iteration of the loop of [buildSegmentBounds].  A scene without a
    record [i] would store [NaN]s, which are outside the model. *)
Definition segmentBoundsStep (sc : VectorScene) (b : SegmentBounds) (i : nat) : SegmentBounds :=
  match endpoints sc !! i, styles sc !! i with
  | Some e, Some s =>
      let margin := (qa s + 0.35)%Q in
      mkSegBounds (<[i := f32 (min2 (qa e) (qc e) - margin)%Q]> (sbMinX b))
                  (<[i := f32 (min2 (qb e) (qd e) - margin)%Q]> (sbMinY b))
                  (<[i := f32 (max2 (qa e) (qc e) + margin)%Q]> (sbMaxX b))
                  (<[i := f32 (max2 (qb e) (qd e) + margin)%Q]> (sbMaxY b))
  | _, _ => b
  end.

Definition buildSegmentBounds (sc : VectorScene) (n : nat) (b : SegmentBounds) : SegmentBounds :=
  let b0 :=
    if (length (sbMinX b) <? n)%nat
    then mkSegBounds (replicate n 0%Q) (replicate n 0%Q) (replicate n 0%Q) (replicate n 0%Q)
    else b in
  fold_left (segmentBoundsStep sc) (seq 0 n) b0.

Definition setScene (sc : VectorScene) (st : State) : State :=
  let n := Extractor.segmentCount sc in
  let b := buildSegmentBounds sc n
             (mkSegBounds (segmentMinX st) (segmentMinY st) (segmentMaxX st) (segmentMaxY st)) in
  let fresh := (length (segmentMarks st) <? n)%nat in
  mkState (Some sc) (Some (buildSpatialGrid sc))
          (map Z.of_nat (seq 0 n))
          (if (length (visibleSegmentIds st) <? n)%nat then replicate n 0 else visibleSegmentIds st)
          (if fresh then replicate n 0 else segmentMarks st)
          (sbMinX b) (sbMinY b) (sbMaxX b) (sbMaxY b)
          (if fresh then 1 else markToken st)
          n n true true
          (cameraCenterX st) (cameraCenterY st) (zoom st)
          (canvasWidth st) (canvasHeight st)
          (lastInteractionTime st) false.

(** The view rectangle [(viewMinX, viewMaxX, viewMinY, viewMaxY)]. *)
Definition viewRect (maxHalfWidth zoom viewCenterX viewCenterY viewportWidthPx viewportHeightPx : Q)
    : Q * Q * Q * Q :=
  let halfViewWidth := (viewportWidthPx / (2 * zoom))%Q in
  let halfViewHeight := (viewportHeightPx / (2 * zoom))%Q in
  let margin := max2 (16 / zoom)%Q (maxHalfWidth * 2)%Q in
  ((viewCenterX - halfViewWidth - margin)%Q, (viewCenterX + halfViewWidth + margin)%Q,
   (viewCenterY - halfViewHeight - margin)%Q, (viewCenterY + halfViewHeight + margin)%Q).

(** The clamped cell range [(c0, c1, r0, r1)] of a view rectangle. *)
Definition viewCells (g : SpatialGrid) (view : Q * Q * Q * Q) : Z * Z * Z * Z :=
  let '(viewMinX, viewMaxX, viewMinY, viewMaxY) := view in
  (clampToGrid (floor ((viewMinX - gMinX g) / cellWidth g)%Q) (gridWidth g),
   clampToGrid (floor ((viewMaxX - gMinX g) / cellWidth g)%Q) (gridWidth g),
   clampToGrid (floor ((viewMinY - gMinY g) / cellHeight g)%Q) (gridHeight g),
   clampToGrid (floor ((viewMaxY - gMinY g) / cellHeight g)%Q) (gridHeight g)).

(** The test that skips a stroke whose bounds miss the view rectangle; a
    read outside an array is [undefined] and compares [false]. *)
Definition outsideView (b : SegmentBounds) (view : Q * Q * Q * Q) (segmentIndex : nat) : bool :=
  let '(viewMinX, viewMaxX, viewMinY, viewMaxY) := view in
  let lt (a : option Q) (v : Q) := match a with Some x => Qltb x v | None => false end in
  let gt (a : option Q) (v : Q) := match a with Some x => Qltb v x | None => false end in
  lt (sbMaxX b !! segmentIndex) viewMinX
  || gt (sbMinX b !! segmentIndex) viewMaxX
  || lt (sbMaxY b !! segmentIndex) viewMinY
  || gt (sbMinY b !! segmentIndex) viewMaxY.

(** The scratch state of the scan: marks, output buffer and [outCount]. *)
Record Scan : Type := mkScanSt {
  marks : list Z;
  outIds : list Z;
  outCount : nat
}.

(** The body of the innermost loop for one entry of [grid.indices]. *)
Definition visit (b : SegmentBounds) (view : Q * Q * Q * Q) (token : Z)
    (s : Scan) (segmentIndex : Z) : Scan :=
  let k := Z.to_nat segmentIndex in
  if (match marks s !! k with Some m => m =? token | None => false end) then s
  else
    let marked := <[k := u32 token]> (marks s) in
    if outsideView b view k then mkScanSt marked (outIds s) (outCount s)
    else mkScanSt marked (<[outCount s := segmentIndex]> (outIds s)) (S (outCount s)).

(** The entries of [grid.indices] that the loop over one cell reads; a
    read past the end of [indices] is [undefined]. *)
Definition cellEntries (g : SpatialGrid) (cellIndex : nat) : list (option Z) :=
  let offset := get (offsets g) cellIndex in
  let count := get (counts g) cellIndex in
  map (fun i => indices g !! Z.to_nat (offset + Z.of_nat i)) (seq 0 (Z.to_nat count)).

Definition visitEntry (b : SegmentBounds) (view : Q * Q * Q * Q) (token : Z)
    (s : Scan) (entry : option Z) : Scan :=
  match entry with
  | Some segmentIndex => visit b view token s segmentIndex
  | None => s      (* [marks[undefined]] is never the token and both stores are dropped *)
  end.

Definition scanCell (g : SpatialGrid) (b : SegmentBounds) (view : Q * Q * Q * Q) (token : Z)
    (s : Scan) (cellIndex : nat) : Scan :=
  fold_left (visitEntry b view token) (cellEntries g cellIndex) s.

Definition updateVisibleSet (now : Q) (viewCenterX viewCenterY viewportWidthPx viewportHeightPx : Q)
    (st : State) : State :=
  match scene st, grid st with
  | Some sc, Some g =>
      let view := viewRect (maxHalfWidth sc) (zoom st) viewCenterX viewCenterY
                           viewportWidthPx viewportHeightPx in
      let '(c0, c1, r0, r1) := viewCells g view in
      let visibleCellCount := (c1 - c0 + 1) * (r1 - r0 + 1) in
      let totalCellCount := gridWidth g * gridHeight g in
      if negb (isInteractionActive now st)
         && Qleb (inject_Z totalCellCount * FULL_VIEW_FALLBACK_THRESHOLD)%Q (inject_Z visibleCellCount)
      then
        mkState (scene st) (grid st) (allSegmentIds st) (visibleSegmentIds st) (segmentMarks st)
                (segmentMinX st) (segmentMinY st) (segmentMaxX st) (segmentMaxY st)
                (markToken st) (segmentCount st) (segmentCount st) true
                (needsVisibleSetUpdate st) (cameraCenterX st) (cameraCenterY st) (zoom st)
                (canvasWidth st) (canvasHeight st) (lastInteractionTime st) (isPanInteracting st)
      else
        let bumped := markToken st + 1 in
        let wrapped := bumped =? MARK_TOKEN_LIMIT in
        let token := if wrapped then 1 else bumped in
        let marks0 :=
          if wrapped then replicate (length (segmentMarks st)) 0 else segmentMarks st in
        let b := mkSegBounds (segmentMinX st) (segmentMinY st) (segmentMaxX st) (segmentMaxY st) in
        let s := fold_left (scanCell g b view token)
                           (rangeCells (gridWidth g) (c0, c1, r0, r1))
                           (mkScanSt marks0 (visibleSegmentIds st) 0) in
        mkState (scene st) (grid st) (allSegmentIds st) (outIds s) (marks s)
                (segmentMinX st) (segmentMinY st) (segmentMaxX st) (segmentMaxY st)
                token (segmentCount st) (outCount s) false
                (needsVisibleSetUpdate st) (cameraCenterX st) (cameraCenterY st) (zoom st)
                (canvasWidth st) (canvasHeight st) (lastInteractionTime st) (isPanInteracting st)
  | _, _ =>
      mkState (scene st) (grid st) (allSegmentIds st) (visibleSegmentIds st) (segmentMarks st)
              (segmentMinX st) (segmentMinY st) (segmentMaxX st) (segmentMaxY st)
              (markToken st) (segmentCount st) 0 true
              (needsVisibleSetUpdate st) (cameraCenterX st) (cameraCenterY st) (zoom st)
              (canvasWidth st) (canvasHeight st) (lastInteractionTime st) (isPanInteracting st)
  end.

(** The instance ids that a draw call consumes after an update: the buffer
    of all ids, or the populated prefix of the scratch buffer. *)
Definition visibleSet (st : State) : list Z :=
  if usingAllSegments st then take (segmentCount st) (allSegmentIds st)
  else take (visibleSegmentCount st) (visibleSegmentIds st).

(** The renderer as its constructor leaves it. *)
Definition initial (canvasWidth canvasHeight : Q) : State :=
  mkState None None [] [] [] [] [] [] [] 1 0 0 true false 0 0 1
          canvasWidth canvasHeight None false.

End Renderer.

(** ** gpuFloorplanRenderer.ts *)

Module RendererBasic.
Import Extractor SpatialGrid.
Local Open Scope Z_scope.

Record State : Type := mkState {
  scene : option VectorScene;
  grid : option SpatialGrid;
  allSegmentIds : list Z;
  visibleSegmentIds : list Z;
  segmentMarks : list Z;
  markToken : Z;
  segmentCount : nat;
  visibleSegmentCount : nat;
  usingAllSegments : bool;
  needsVisibleSetUpdate : bool;
  cameraCenterX : Q;
  cameraCenterY : Q;
  zoom : Q;
  canvasWidth : Q;
  canvasHeight : Q
}.

Definition clampToGrid (value gridSize : Z) : Z :=
  if value <? 0 then 0
  else if gridSize <=? value then gridSize - 1
  else value.

Definition setScene (sc : VectorScene) (st : State) : State :=
  let n := Extractor.segmentCount sc in
  let fresh := (length (segmentMarks st) <? n)%nat in
  mkState (Some sc) (Some (buildSpatialGrid sc))
          (map Z.of_nat (seq 0 n))
          (if (length (visibleSegmentIds st) <? n)%nat then replicate n 0 else visibleSegmentIds st)
          (if fresh then replicate n 0 else segmentMarks st)
          (if fresh then 1 else markToken st)
          n n true true
          (cameraCenterX st) (cameraCenterY st) (zoom st)
          (canvasWidth st) (canvasHeight st).

Definition viewRect (st : State) (sc : VectorScene) : Q * Q * Q * Q :=
  let halfViewWidth := (canvasWidth st / (2 * zoom st))%Q in
  let halfViewHeight := (canvasHeight st / (2 * zoom st))%Q in
  let margin := max2 (16 / zoom st)%Q (maxHalfWidth sc * 2)%Q in
  ((cameraCenterX st - halfViewWidth - margin)%Q, (cameraCenterX st + halfViewWidth + margin)%Q,
   (cameraCenterY st - halfViewHeight - margin)%Q, (cameraCenterY st + halfViewHeight + margin)%Q).

Definition viewCells (g : SpatialGrid) (view : Q * Q * Q * Q) : Z * Z * Z * Z :=
  let '(viewMinX, viewMaxX, viewMinY, viewMaxY) := view in
  (clampToGrid (floor ((viewMinX - gMinX g) / cellWidth g)%Q) (gridWidth g),
   clampToGrid (floor ((viewMaxX - gMinX g) / cellWidth g)%Q) (gridWidth g),
   clampToGrid (floor ((viewMinY - gMinY g) / cellHeight g)%Q) (gridHeight g),
   clampToGrid (floor ((viewMaxY - gMinY g) / cellHeight g)%Q) (gridHeight g)).

(** The scratch state of the scan: marks, output buffer and [outCount]. *)
Record Scan : Type := mkScanSt {
  marks : list Z;
  outIds : list Z;
  outCount : nat
}.

Definition visit (token : Z) (s : Scan) (segmentIndex : Z) : Scan :=
  let k := Z.to_nat segmentIndex in
  if (match marks s !! k with Some m => m =? token | None => false end) then s
  else mkScanSt (<[k := u32 token]> (marks s))
                (<[outCount s := segmentIndex]> (outIds s)) (S (outCount s)).

Definition cellEntries (g : SpatialGrid) (cellIndex : nat) : list (option Z) :=
  let offset := get (offsets g) cellIndex in
  let count := get (counts g) cellIndex in
  map (fun i => indices g !! Z.to_nat (offset + Z.of_nat i)) (seq 0 (Z.to_nat count)).

Definition visitEntry (token : Z) (s : Scan) (entry : option Z) : Scan :=
  match entry with
  | Some segmentIndex => visit token s segmentIndex
  | None => s
  end.

Definition scanCell (g : SpatialGrid) (token : Z) (s : Scan) (cellIndex : nat) : Scan :=
  fold_left (visitEntry token) (cellEntries g cellIndex) s.

Definition updateVisibleSet (st : State) : State :=
  match scene st, grid st with
  | Some sc, Some g =>
      let '(c0, c1, r0, r1) := viewCells g (viewRect st sc) in
      let visibleCellCount := (c1 - c0 + 1) * (r1 - r0 + 1) in
      let totalCellCount := gridWidth g * gridHeight g in
      if Qleb (inject_Z totalCellCount * 0.7)%Q (inject_Z visibleCellCount)
      then
        mkState (scene st) (grid st) (allSegmentIds st) (visibleSegmentIds st) (segmentMarks st)
                (markToken st) (segmentCount st) (segmentCount st) true
                (needsVisibleSetUpdate st) (cameraCenterX st) (cameraCenterY st) (zoom st)
                (canvasWidth st) (canvasHeight st)
      else
        let bumped := markToken st + 1 in
        let wrapped := bumped =? 0xffffffff in
        let token := if wrapped then 1 else bumped in
        let marks0 :=
          if wrapped then replicate (length (segmentMarks st)) 0 else segmentMarks st in
        let s := fold_left (scanCell g token)
                           (rangeCells (gridWidth g) (c0, c1, r0, r1))
                           (mkScanSt marks0 (visibleSegmentIds st) 0) in
        mkState (scene st) (grid st) (allSegmentIds st) (outIds s) (marks s)
                token (segmentCount st) (outCount s) false
                (needsVisibleSetUpdate st) (cameraCenterX st) (cameraCenterY st) (zoom st)
                (canvasWidth st) (canvasHeight st)
  | _, _ =>
      mkState (scene st) (grid st) (allSegmentIds st) (visibleSegmentIds st) (segmentMarks st)
              (markToken st) (segmentCount st) 0 true
              (needsVisibleSetUpdate st) (cameraCenterX st) (cameraCenterY st) (zoom st)
              (canvasWidth st) (canvasHeight st)
  end.

Definition visibleSet (st : State) : list Z :=
  if usingAllSegments st then take (segmentCount st) (allSegmentIds st)
  else take (visibleSegmentCount st) (visibleSegmentIds st).

Definition initial (canvasWidth canvasHeight : Q) : State :=
  mkState None None [] [] [] 1 0 0 true false 0 0 1 canvasWidth canvasHeight.

End RendererBasic.

(** ** parsedDataZip.ts: the stroke textures of a loaded archive *)

Module ParsedDataZip.

(** [trimTextureForItemCount]; [None] stands for the thrown error. *)
Definition trimTextureForItemCount (source : list Quad) (itemCount : nat) : option (list Quad) :=
  match itemCount with
  | O => Some []
  | _ =>
      if (length source <? itemCount)%nat then None
      else Some (take itemCount source)
  end.

(** Both derivations read record [i] of their inputs for every
    [i < primitiveCount]; the loader calls them on arrays trimmed to that
    count. *)
Definition deriveLinePrimitiveB (primitivesA : list Quad) (primitiveCount : nat) : list Quad :=
  map (fun a => mkQuad (qc a) (qd a) 0 0) (take primitiveCount primitivesA).

Definition derivePrimitiveBounds (primitivesA primitivesB : list Quad) (primitiveCount : nat)
    : list Quad :=
  map (fun ab : Quad * Quad =>
         let '(a, b) := ab in
         mkQuad (min3 (qa a) (qc a) (qa b)) (min3 (qb a) (qd a) (qb b))
                (max3 (qa a) (qc a) (qa b)) (max3 (qb a) (qd a) (qb b)))
      (take primitiveCount (zip primitivesA primitivesB)).

(** A texture entry as [readTexture] returns it. *)
Record TextureEntry : Type := mkTexture { data : list Quad; logicalItemCount : nat }.

Record StrokeTextures : Type := mkStrokeTextures {
  endpoints : list Quad;
  styles : list Quad;
  primitiveMeta : list Quad;
  primitiveBounds : list Quad
}.

(** The stroke arrays as [loadSceneFromParsedDataZip] assembles them from
    the optional texture entries, before the legacy-layout migration;
    [None] stands for a thrown error. *)
Definition loadStrokeTextures (segmentCount : nat)
    (strokePrimitiveAEntry strokeStylesEntry strokePrimitiveBEntry strokePrimitiveBoundsEntry
       : option TextureEntry) : option StrokeTextures :=
  let present (e : option TextureEntry) := match e with Some _ => true | None => false end in
  let dataOf (e : option TextureEntry) := match e with Some t => data t | None => [] end in
  if (0 <? segmentCount)%nat
     && (negb (present strokePrimitiveAEntry) || negb (present strokeStylesEntry))
  then None
  else
    endpoints ← trimTextureForItemCount (dataOf strokePrimitiveAEntry) segmentCount;
    styles ← trimTextureForItemCount (dataOf strokeStylesEntry) segmentCount;
    primitiveMeta ←
      match strokePrimitiveBEntry with
      | Some t => trimTextureForItemCount (data t) segmentCount
      | None => Some (deriveLinePrimitiveB endpoints segmentCount)
      end;
    primitiveBounds ←
      match strokePrimitiveBoundsEntry with
      | Some t => trimTextureForItemCount (data t) segmentCount
      | None => Some (derivePrimitiveBounds endpoints primitiveMeta segmentCount)
      end;
    Some (mkStrokeTextures endpoints styles primitiveMeta primitiveBounds).

End ParsedDataZip.

(** ** parsedDataEncoding.ts: the texture payload codecs *)

(** A [Uint8Array] is the list of its bytes; a [Float32Array] or
    [Uint32Array] is the list of the 32-bit patterns of its elements, and a
    copy of an element keeps its pattern.  Two typed arrays over one buffer
    see the same bytes, least significant byte first. *)
Module ParsedDataEncoding.
Local Open Scope Z_scope.

(** The pattern that a [Float32Array] stores for [undefined]. *)
Definition NAN_PATTERN : Z := 0x7fc00000.

Definition bytesOfWord (w : Z) : list Z :=
  [w mod 256; (w / 256) mod 256; (w / 65536) mod 256; (w / 16777216) mod 256].

(** [new Uint8Array(a.buffer, a.byteOffset, a.byteLength)] on an array of
    32-bit elements. *)
Definition viewBytes (words : list Z) : list Z := words ≫= bytesOfWord.

(** [new Float32Array(b.buffer)] and [new Uint32Array(b.buffer)] on a byte
    array whose length is a multiple of four. *)
Fixpoint viewWords (bytes : list Z) : list Z :=
  match bytes with
  | b0 :: b1 :: b2 :: b3 :: rest =>
      (b0 + 256 * b1 + 65536 * b2 + 16777216 * b3) :: viewWords rest
  | _ => []
  end.

(** The inner loop that reads with a stride of four,
    [out[laneOffset + i] = src[srcIndex]; srcIndex += 4]; [missing] is what
    the store makes of a read past the end of [src]. *)
Definition gatherStep (missing : Z) (src : list Z) (laneOffset : nat)
    (st : list Z * nat) (i : nat) : list Z * nat :=
  let '(out, srcIndex) := st in
  (<[(laneOffset + i)%nat := default missing (src !! srcIndex)]> out, (srcIndex + 4)%nat).

Definition gatherLane (missing : Z) (src : list Z) (count : nat) (out : list Z) (lane : nat)
    : list Z :=
  fst (fold_left (gatherStep missing src (lane * count)) (seq 0 count) (out, lane)).

(** The loop over the four lanes. *)
Definition gatherLanes (missing : Z) (src : list Z) (count : nat) (out : list Z) : list Z :=
  fold_left (gatherLane missing src count) (seq 0 4) out.

(** The inner loop that writes with a stride of four,
    [out[dstIndex] = src[laneOffset + i]; dstIndex += 4]. *)
Definition scatterStep (missing : Z) (src : list Z) (laneOffset : nat)
    (st : list Z * nat) (i : nat) : list Z * nat :=
  let '(out, dstIndex) := st in
  (<[dstIndex := default missing (src !! (laneOffset + i)%nat)]> out, (dstIndex + 4)%nat).

Definition scatterLane (missing : Z) (src : list Z) (count : nat) (out : list Z) (lane : nat)
    : list Z :=
  fst (fold_left (scatterStep missing src (lane * count)) (seq 0 count) (out, lane)).

Definition scatterLanes (missing : Z) (src : list Z) (count : nat) (out : list Z) : list Z :=
  fold_left (scatterLane missing src count) (seq 0 4) out.

Definition encodeByteShuffledFloat32 (source : list Z) : list Z :=
  let floatCount := length source in
  if (floatCount =? 0)%nat then []
  else
    let sourceBytes := viewBytes source in
    gatherLanes 0 sourceBytes floatCount (replicate (length sourceBytes) 0).

(** [None] stands for the thrown error. *)
Definition decodeByteShuffledFloat32 (bytes : list Z) : option (list Z) :=
  if (length bytes =? 0)%nat then Some []
  else if negb (length bytes mod 4 =? 0)%nat then None
  else
    let floatCount := (length bytes / 4)%nat in
    Some (viewWords (scatterLanes 0 bytes floatCount (replicate (length bytes) 0))).

Definition shuffleBytesByWord (bytes : list Z) (wordCount : nat) : list Z :=
  gatherLanes 0 bytes wordCount (replicate (length bytes) 0).

Definition unshuffleBytesByWord (bytes : list Z) (wordCount : nat) : list Z :=
  scatterLanes 0 bytes wordCount (replicate (length bytes) 0).

(** [ToInt32], the store into a [Uint32Array], and the operator [^], whose
    result is a signed 32-bit integer. *)
Definition toInt32 (z : Z) : Z :=
  let m := z mod 2 ^ 32 in
  if m <? 2 ^ 31 then m else m - 2 ^ 32.
Definition toUint32 (z : Z) : Z := z mod 2 ^ 32.
Definition xor32 (a b : Z) : Z := Z.lxor (toInt32 a) (toInt32 b).

(** The delta loop of the encoder, from element [i] on:
    [deltaWords[i] = current ^ prev; prev = current]. *)
Fixpoint xorDelta (prev : Z) (sourceWords : list Z) : list Z :=
  match sourceWords with
  | [] => []
  | current :: rest => toUint32 (xor32 current prev) :: xorDelta current rest
  end.

(** The loop of the decoder:
    [current = deltaWords[i] ^ prev; outWords[i] = current; prev = current]. *)
Fixpoint xorUndelta (prev : Z) (deltaWords : list Z) : list Z :=
  match deltaWords with
  | [] => []
  | delta :: rest =>
      let current := xor32 delta prev in
      toUint32 current :: xorUndelta current rest
  end.

Definition encodeXorDeltaByteShuffledFloat32 (source : list Z) : list Z :=
  let floatCount := length source in
  if (floatCount =? 0)%nat then []
  else
    let deltaWords := xorDelta 0 source in
    let deltaBytes := viewBytes deltaWords in
    shuffleBytesByWord deltaBytes floatCount.

Definition decodeXorDeltaByteShuffledFloat32 (bytes : list Z) : option (list Z) :=
  if (length bytes =? 0)%nat then Some []
  else if negb (length bytes mod 4 =? 0)%nat then None
  else
    let floatCount := (length bytes / 4)%nat in
    let deltaBytes := unshuffleBytesByWord bytes floatCount in
    let deltaWords := viewWords deltaBytes in
    Some (xorUndelta 0 deltaWords).

Definition encodeChannelMajorFloat32 (source : list Z) : option (list Z) :=
  if (length source =? 0)%nat then Some []
  else if negb (length source mod 4 =? 0)%nat then None
  else
    let itemCount := (length source / 4)%nat in
    let out := gatherLanes NAN_PATTERN source itemCount (replicate (length source) 0) in
    Some (viewBytes out).

Definition decodeChannelMajorFloat32 (bytes : list Z) : option (list Z) :=
  if (length bytes =? 0)%nat then Some []
  else if negb (length bytes mod 16 =? 0)%nat then None
  else
    let channelMajor := viewWords bytes in
    let itemCount := (length channelMajor / 4)%nat in
    Some (scatterLanes NAN_PATTERN channelMajor itemCount (replicate (length channelMajor) 0)).

End ParsedDataEncoding.

(** ** parsedDataZip.ts: texture payloads of an archive *)

Module ParsedDataTextures.
Import ParsedDataEncoding.

(** [Math.trunc]. *)
Definition trunc (x : Q) : Z := Z.quot (Qnum x) (Zpos (Qden x)).

(** [readNonNegativeInt]; [None] is a value whose [Number(...)] is not
    finite.  The fallback is finite at every call. *)
Definition readNonNegativeInt (value : option Q) (fallback : Q) : Z :=
  match value with
  | Some number => Z.max 0 (trunc number)
  | None => Z.max 0 (trunc fallback)
  end.

(** The fields of a manifest texture entry that select a decoder, after the
    [typeof ... === "string"] tests and their defaults. *)
Inductive ComponentType : Type := ComponentFloat32 | ComponentOther.
Inductive Layout : Type := LayoutInterleaved | LayoutChannelMajor | LayoutOther.
Inductive Predictor : Type := PredictorNone | PredictorXorDelta | PredictorOther.

Record ParsedDataTextureEntry : Type := mkTextureEntry {
  componentType : ComponentType;
  layout : Layout;
  byteShuffle : bool;                 (* [entry.byteShuffle === true] *)
  predictor : Predictor;
  logicalItemCount : option Q;
  logicalFloatCount : option Q
}.

(** [None] stands for a thrown error. *)
Definition readTexturePayloadAsFloat32 (fileBuffer : list Z) (entry : ParsedDataTextureEntry)
    : option (list Z) :=
  match componentType entry with
  | ComponentOther => None
  | ComponentFloat32 =>
      match layout entry with
      | LayoutOther => None
      | LayoutChannelMajor => decodeChannelMajorFloat32 fileBuffer
      | LayoutInterleaved =>
          match predictor entry with
          | PredictorOther => None
          | PredictorXorDelta =>
              if byteShuffle entry then decodeXorDeltaByteShuffledFloat32 fileBuffer
              else None
          | PredictorNone =>
              if byteShuffle entry then decodeByteShuffledFloat32 fileBuffer
              else if negb (length fileBuffer mod 4 =? 0)%nat then None
              else Some (viewWords fileBuffer)
          end
      end
  end.

(** The part of the [readTexture] closure that follows the lookup of the
    file: the payload and its logical item count. *)
Definition readTexture (fileBuffer : list Z) (entry : ParsedDataTextureEntry)
    : option (list Z * Z) :=
  raw ← readTexturePayloadAsFloat32 fileBuffer entry;
  let logicalFloatCount :=
    readNonNegativeInt (logicalFloatCount entry) (inject_Z (Z.of_nat (length raw))) in
  if (Z.of_nat (length raw) <? logicalFloatCount)%Z then None
  else
    let logicalItemCount :=
      readNonNegativeInt (logicalItemCount entry) (inject_Z (logicalFloatCount / 4)) in
    Some (take (Z.to_nat logicalFloatCount) raw, logicalItemCount).

(** The two layouts that the exporter writes. *)
Inductive TextureLayout : Type := Interleaved | ChannelMajor.

(** [createTextureExportEntry]: the [data] of the entry, a view of the first
    [logicalItemCount * 4] floats. *)
Definition createTextureExportEntry (source : list Z) (logicalItemCount : nat)
    : option (list Z) :=
  let logicalFloatCount := (logicalItemCount * 4)%nat in
  if (length source <? logicalFloatCount)%nat then None
  else Some (take logicalFloatCount source).

(** The bytes that [buildParsedDataZipBlobForLayout] stores for an entry. *)
Definition exportBytes (data : list Z) (textureLayout : TextureLayout) : option (list Z) :=
  match textureLayout with
  | ChannelMajor => encodeChannelMajorFloat32 data
  | Interleaved => Some (viewBytes data)
  end.

(** The manifest record that it writes for the entry. *)
Definition manifestEntry (logicalItemCount : nat) (textureLayout : TextureLayout)
    : ParsedDataTextureEntry :=
  mkTextureEntry ComponentFloat32
    (match textureLayout with ChannelMajor => LayoutChannelMajor | Interleaved => LayoutInterleaved end)
    false PredictorNone
    (Some (inject_Z (Z.of_nat logicalItemCount)))
    (Some (inject_Z (Z.of_nat (logicalItemCount * 4)))).

End ParsedDataTextures.

(** ** gpuFloorplanRenderer.ts: the camera *)

Module Camera.
Local Open Scope Q_scope.

(** The fields of the renderer that the camera methods read or write. *)
Record State : Type := mkCamera {
  cameraCenterX : Q;
  cameraCenterY : Q;
  zoom : Q;
  minZoom : Q;
  maxZoom : Q;
  canvasWidth : Q;
  canvasHeight : Q;
  needsVisibleSetUpdate : bool
}.

(** What [clientToWorld] reads of the page: two sides of
    [canvas.getBoundingClientRect()] and [window.devicePixelRatio]. *)
Record Client : Type := mkClient {
  rectLeft : Q;
  rectBottom : Q;
  devicePixelRatio : Q
}.

Definition clamp (value min max : Q) : Q :=
  if Qltb value min then min
  else if Qltb max value then max
  else value.

(** [window.devicePixelRatio || 1]. *)
Definition dprOf (client : Client) : Q :=
  if Qeqb (devicePixelRatio client) 0 then 1 else devicePixelRatio client.

Definition clientToWorld (client : Client) (st : State) (clientX clientY : Q) : Q * Q :=
  let dpr := dprOf client in
  let pixelX := (clientX - rectLeft client) * dpr in
  let pixelY := (rectBottom client - clientY) * dpr in
  ((pixelX - canvasWidth st * 0.5) / zoom st + cameraCenterX st,
   (pixelY - canvasHeight st * 0.5) / zoom st + cameraCenterY st).

Definition fitToBounds (bounds : Extractor.Bounds) (paddingPixels : Q) (st : State) : State :=
  let width := max2 (Extractor.maxX bounds - Extractor.minX bounds) 1e-4 in
  let height := max2 (Extractor.maxY bounds - Extractor.minY bounds) 1e-4 in
  let viewWidth := max2 1 (canvasWidth st - paddingPixels * 2) in
  let viewHeight := max2 1 (canvasHeight st - paddingPixels * 2) in
  let zoom1 := min2 (viewWidth / width) (viewHeight / height) in
  let zoom2 := clamp zoom1 (minZoom st) (maxZoom st) in
  mkCamera ((Extractor.minX bounds + Extractor.maxX bounds) * 0.5)
           ((Extractor.minY bounds + Extractor.maxY bounds) * 0.5)
           zoom2 (minZoom st) (maxZoom st) (canvasWidth st) (canvasHeight st) true.

(** An argument is [None] when it is not a finite number. *)
Definition panByPixels (deltaX deltaY : option Q) (st : State) : State :=
  match deltaX, deltaY with
  | Some dx, Some dy =>
      mkCamera (cameraCenterX st - dx / zoom st) (cameraCenterY st + dy / zoom st)
               (zoom st) (minZoom st) (maxZoom st) (canvasWidth st) (canvasHeight st) true
  | _, _ => st
  end.

Definition zoomAtClientPoint (client : Client) (clientX clientY zoomFactor : Q) (st : State)
    : State :=
  let clampedFactor := clamp zoomFactor 0.1 10 in
  let before := clientToWorld client st clientX clientY in
  let nextZoom := clamp (zoom st * clampedFactor) (minZoom st) (maxZoom st) in
  let st1 := mkCamera (cameraCenterX st) (cameraCenterY st) nextZoom (minZoom st) (maxZoom st)
                      (canvasWidth st) (canvasHeight st) (needsVisibleSetUpdate st) in
  let after := clientToWorld client st1 clientX clientY in
  mkCamera (cameraCenterX st + (fst before - fst after))
           (cameraCenterY st + (snd before - snd after))
           nextZoom (minZoom st) (maxZoom st) (canvasWidth st) (canvasHeight st) true.

End Camera.

(** ** Texture sizes *)

Module TextureSize.
Local Open Scope Z_scope.

Definition clamp (value min max : Z) : Z :=
  if value <? min then min
  else if max <? value then max
  else value.

(** [Math.ceil(a / b)] for a count [a] and a positive width [b]. *)
Definition ceilDiv (a b : Z) : Z := - ((- a) / b).

(** [Math.ceil(Math.sqrt(n))], exact for a count below [2^52]. *)
Definition ceilSqrt (n : Z) : Z := Z.sqrt_up n.

(** gpuFloorplanRenderer.ts, [uploadSegments]: width and height of the two
    segment textures; [None] stands for the thrown error. *)
Definition segmentTextureSize (segmentCount maxTextureSize : Z) : option (Z * Z) :=
  let preferredWidth := ceilSqrt segmentCount in
  let segmentTextureWidth := clamp preferredWidth 1 maxTextureSize in
  let segmentTextureHeight := Z.max 1 (ceilDiv segmentCount segmentTextureWidth) in
  if maxTextureSize <? segmentTextureHeight then None
  else Some (segmentTextureWidth, segmentTextureHeight).

(** main.ts and threeMaterialFillLayer.ts, [chooseTextureSize]. *)
Definition chooseTextureSize (count : Z) : Z * Z :=
  if count <=? 0 then (1, 1)
  else
    let width := Z.max 1 (ceilSqrt count) in
    let height := Z.max 1 (ceilDiv count width) in
    (width, height).

End TextureSize.

(** ** pdfVectorExtractor.ts: the growing array of four-float records *)

Module Float4Builder.
Local Open Scope nat_scope.

(** [data] with its capacity [data.length], and [length], the number of
    floats in use. *)
Record Builder : Type := mkBuilder {
  data : list Q;
  length_ : nat
}.

(** The constructor. *)
Definition create (initialQuads : nat) : Builder :=
  mkBuilder (replicate (initialQuads * 4) 0%Q) 0.

(** [this.length >> 2]. *)
Definition quadCount (b : Builder) : nat := length_ b / 4.

(** [while (this.length + extraFloats > nextLength) nextLength *= 2], with a
    bound on the number of doublings; [None] when the bound is reached. *)
Fixpoint growLoop (fuel : nat) (needed nextLength : nat) : option nat :=
  if nextLength <? needed then
    match fuel with
    | O => None
    | S fuel' => growLoop fuel' needed (nextLength * 2)
    end
  else Some nextLength.

Definition ensureCapacity (fuel : nat) (extraFloats : nat) (b : Builder) : option Builder :=
  if length_ b + extraFloats <=? length (data b) then Some b
  else
    match growLoop fuel (length_ b + extraFloats) (length (data b)) with
    | Some nextLength =>
        Some (mkBuilder (data b ++ replicate (nextLength - length (data b)) 0%Q) (length_ b))
    | None => None
    end.

Definition push (fuel : nat) (a b c d : Q) (bld : Builder) : option Builder :=
  match ensureCapacity fuel 4 bld with
  | Some b1 =>
      let offset := length_ b1 in
      Some (mkBuilder (<[offset + 3 := f32 d]>
                         (<[offset + 2 := f32 c]>
                            (<[offset + 1 := f32 b]>
                               (<[offset := f32 a]> (data b1)))))
                      (length_ b1 + 4))
  | None => None
  end.

Definition toTypedArray (b : Builder) : list Q := take (length_ b) (data b).

(** A run of pushes, one per record. *)
Fixpoint pushAll (fuel : nat) (quads : list Quad) (b : Builder) : option Builder :=
  match quads with
  | [] => Some b
  | q :: rest =>
      match push fuel (qa q) (qb q) (qc q) (qd q) b with
      | Some b1 => pushAll fuel rest b1
      | None => None
      end
  end.

End Float4Builder.

(** ** parsedDataZip.ts: bounds and layouts of a loaded scene *)

Module ParsedDataScene.
Import Extractor.
Local Open Scope Q_scope.

(** One iteration of the loop of [boundsFromPrimitiveBounds]; the
    accumulator starts as the box [(+inf, +inf, -inf, -inf)], here [None]. *)
Definition growBounds (acc : option Bounds) (minx miny maxx maxy : Q) : option Bounds :=
  match acc with
  | None => Some (mkBounds minx miny maxx maxy)
  | Some b => Some (mkBounds (min2 (minX b) minx) (min2 (minY b) miny)
                             (max2 (maxX b) maxx) (max2 (maxY b) maxy))
  end.

(** [None] is [null]. *)
Definition boundsFromPrimitiveBounds (primitiveBounds : list Quad) (primitiveCount : nat)
    : option Bounds :=
  if (primitiveCount =? 0)%nat || (length primitiveBounds <? primitiveCount)%nat then None
  else
    fold_left (fun acc q => growBounds acc (qa q) (qb q) (qc q) (qd q))
              (take primitiveCount primitiveBounds) None.

Definition boundsFromFillPathMeta (metaA metaB : list Quad) (fillPathCount : nat)
    : option Bounds :=
  if (fillPathCount =? 0)%nat || (length metaA <? fillPathCount)%nat
     || (length metaB <? fillPathCount)%nat
  then None
  else
    fold_left (fun acc ab => growBounds acc (qc (fst ab)) (qd (fst ab)) (qa (snd ab)) (qb (snd ab)))
              (take fillPathCount (zip metaA metaB)) None.

Definition mergeBounds (a b : option Bounds) : option Bounds :=
  match a, b with
  | None, None => None
  | None, Some b => Some b
  | Some a, None => Some a
  | Some a, Some b =>
      Some (mkBounds (min2 (minX a) (minX b)) (min2 (minY a) (minY b))
                     (max2 (maxX a) (maxX b)) (max2 (maxY a) (maxY b)))
  end.

(** [fallbackBounds] of [loadSceneFromParsedDataZip]. *)
Definition fallbackBounds (primitiveBounds : list Quad) (segmentCount : nat)
    (fillPathMetaA fillPathMetaB : list Quad) (fillPathCount : nat) : Bounds :=
  match mergeBounds (boundsFromPrimitiveBounds primitiveBounds segmentCount)
                    (boundsFromFillPathMeta fillPathMetaA fillPathMetaB fillPathCount) with
  | Some b => b
  | None => mkBounds 0 0 1 1
  end.

(** [clamp01]; [None] is a value that is not finite, which a read past the
    end of an array gives. *)
Definition clamp01 (value : option Q) : Q :=
  match value with
  | None => 0
  | Some v => if Qltb v 0 then 0 else if Qltb 1 v then 1 else v
  end.

(** The first loop of [migrateLegacyStrokeLayout]: whether some record has
    a fourth channel above [1e-6] in size. *)
Definition hasPackedStyleMeta (primitiveMeta : list Quad) (segmentCount : nat) : bool :=
  existsb (fun i => match primitiveMeta !! i with
                    | Some m => Qltb 1e-6 (abs (qd m))
                    | None => false
                    end)
          (seq 0 segmentCount).

(** One iteration of its second loop; a store past the end of an array is
    dropped. *)
Definition migrateStep (st : list Quad * list Quad) (i : nat) : list Quad * list Quad :=
  let '(primitiveMeta, styles) := st in
  let luma := clamp01 (qb <$> styles !! i) in
  let alpha := clamp01 (qc <$> styles !! i) in
  let styleFlags : Q :=
    match styles !! i with
    | Some s => if Qleb 0.5 (qd s) then 1 else 0
    | None => 0
    end in
  (match primitiveMeta !! i with
   | Some m => <[i := mkQuad (qa m) (qb m) (qc m) (f32 (alpha + styleFlags * 2))]> primitiveMeta
   | None => primitiveMeta
   end,
   match styles !! i with
   | Some s => <[i := mkQuad (qa s) luma luma luma]> styles
   | None => styles
   end).

(** The arrays [(primitiveMeta, styles)] after the call. *)
Definition migrateLegacyStrokeLayout (primitiveMeta styles : list Quad) (segmentCount : nat)
    : list Quad * list Quad :=
  if (segmentCount =? 0)%nat then (primitiveMeta, styles)
  else if hasPackedStyleMeta primitiveMeta segmentCount then (primitiveMeta, styles)
  else fold_left migrateStep (seq 0 segmentCount) (primitiveMeta, styles).

End ParsedDataScene.

(** ** Vocabulary of the statements *)

(** Measures of the subdivision stack of [flattenCubic]. *)
Module Measures.
Import Extractor.

(** Nodes of the subdivision tree below a record, and its leaves. *)
Definition recWeight (maxDepth : nat) (r : CubicRec) : nat :=
  2 ^ S (maxDepth - depth r) - 1.
Definition recLeaves (maxDepth : nat) (r : CubicRec) : nat :=
  2 ^ (maxDepth - depth r).

Definition stackWeight (maxDepth : nat) (st : list CubicRec) : nat :=
  list_sum (map (recWeight maxDepth) st).
Definition stackLeaves (maxDepth : nat) (st : list CubicRec) : nat :=
  list_sum (map (recLeaves maxDepth) st).

(** Strokes pushed so far by a path, plus the pending one. *)
Definition held (s : PathState) : nat :=
  (length (strokes (sink s)) + match pending s with Some _ => 1 | None => 0 end)%nat.

(** Between [s] and [s'] no more strokes were pushed or left pending than
    source segments were counted. *)
Definition accounted (s s' : PathState) : Prop :=
  (held s' + emitted s <= held s + emitted s')%nat.

(** Occurrences of cell [c] in a list of visits, and visits of cells below
    [k]. *)
Fixpoint occ (c : nat) (visits : list nat) : nat :=
  match visits with
  | [] => 0
  | x :: rest => ((if (x =? c)%nat then 1 else 0) + occ c rest)%nat
  end.

Fixpoint below (k : nat) (visits : list nat) : nat :=
  match visits with
  | [] => 0
  | x :: rest => ((if (x <? k)%nat then 1 else 0) + below k rest)%nat
  end.

(** The visits of the second pass, each with the stroke that makes it. *)
Definition visitPairs (cellsOf : nat -> list nat) (n : nat) : list (nat * nat) :=
  flat_map (fun i => map (pair i) (cellsOf i)) (seq 0 n).

(** The cells of stroke [i] in the grid of a scene, and the number of cells
    of that grid. *)
Definition gridCells (scene : VectorScene) (i : nat) : list nat :=
  let '(gridWidth, gridHeight, cellWidth, cellHeight) := SpatialGrid.gridGeometry scene in
  SpatialGrid.strokeCells scene gridWidth gridHeight cellWidth cellHeight i.

Definition cellCountOf (scene : VectorScene) : nat :=
  let '(gridWidth, gridHeight, _, _) := SpatialGrid.gridGeometry scene in
  Z.to_nat (gridWidth * gridHeight).

(** The largest element of a [Uint32Array], 0 for an empty one. *)
Definition maxOf (a : list Z) : Z := fold_right Z.max 0%Z a.
End Measures.

(** The literal inputs of the end-to-end scenarios. *)
Module Scenarios.
Import Extractor.
Local Open Scope Q_scope.

(** Equality of the four numbers of two boxes. *)
Definition boundsEq (a b : Bounds) : Prop :=
  minX a == minX b /\ minY a == minY b /\ maxX a == maxX b /\ maxY a == maxY b.

(** Scenario 1: a line width of 2 and one stroked path from (0,0) to
    (10,0), under the identity page matrix. *)
Definition singleStrokePage (view : Q * Q * Q * Q) : Page :=
  mkPage view IDENTITY_MATRIX
    [ OpSetLineWidth (Some 2);
      OpConstructPath PaintStroke (Some [DrawMoveTo 0 0; DrawLineTo 10 0]) ].

(** Scenario 3: one stroke painted with [CA = 0.0005]. *)
Definition transparentStrokePage : Page :=
  mkPage (0, 0, 100, 100) IDENTITY_MATRIX
    [ OpSetGState [EntryCA (Some 0.0005)];
      OpConstructPath PaintStroke (Some [DrawMoveTo 0 0; DrawLineTo 10 0]) ].

(** A page without operators. *)
Definition blankPage : Page := mkPage (0, 0, 100, 100) IDENTITY_MATRIX [].
(** Equality of the four numbers of two records. *)
Definition quadEq (a b : Quad) : Prop :=
  qa a == qa b /\ qb a == qb b /\ qc a == qc b /\ qd a == qd b.

(** The axis-aligned box of the two endpoints of a stroke record. *)
Definition endpointBox (e : Quad) : Quad :=
  mkQuad (min2 (qa e) (qc e)) (min2 (qb e) (qd e)) (max2 (qa e) (qc e)) (max2 (qb e) (qd e)).

(** The endpoint box grown by [half_width + 0.35] on every side. *)
Definition expandedBox (e s : Quad) : Quad :=
  mkQuad (min2 (qa e) (qc e) - (qa s + 0.35)) (min2 (qb e) (qd e) - (qa s + 0.35))
         (max2 (qa e) (qc e) + (qa s + 0.35)) (max2 (qb e) (qd e) + (qa s + 0.35)).

(** An archive that holds only [stroke-primitives-a] and [stroke-styles],
    with the stroke of scenario 1. *)
Definition legacyPrimitivesA : ParsedDataZip.TextureEntry :=
  ParsedDataZip.mkTexture [mkQuad 0 0 10 0] 1.
Definition legacyStyles : ParsedDataZip.TextureEntry :=
  ParsedDataZip.mkTexture [mkQuad 1 0 1 0] 1.
(** The squared length of a stroke, as the culler computes it. *)
Definition squaredLength (seg : Stroke) : Q :=
  let dx := qc (endpoint seg) - qa (endpoint seg) in
  let dy := qd (endpoint seg) - qb (endpoint seg) in
  dx * dx + dy * dy.

(** A stroke that passes the transparency and the degeneracy filter. *)
Definition visibleStroke (seg : Stroke) : Prop :=
  ALPHA_INVISIBLE_EPSILON < qc (style seg) /\ 1e-10 <= squaredLength seg.
(** The duplicate key of a stroke record. *)
Definition duplicateKeyOf (seg : Stroke) : Key :=
  buildDuplicateKey (qa (endpoint seg)) (qb (endpoint seg)) (qc (endpoint seg))
                    (qd (endpoint seg)) (qa (style seg)) (qb (style seg)) (qc (style seg)).

(** Three opaque strokes on the line y = 0, each of length 10: half widths
    1, 1 + 2^-14 and 1 + 2^-13, starts 0, 1/128 and 1/64.  All six numbers
    are 32-bit floats. *)
Definition coverBase : Stroke := mkStroke (mkQuad 0 0 10 0) (mkQuad 1 0 1 0).
Definition coverMiddle : Stroke :=
  mkStroke (mkQuad (1 # 128) 0 (10 + (1 # 128)) 0) (mkQuad (1 + (1 # 16384)) 0 1 0).
Definition coverWide : Stroke :=
  mkStroke (mkQuad (1 # 64) 0 (10 + (1 # 64)) 0) (mkQuad (1 + (1 # 8192)) 0 1 0).
Definition chainedStrokes : list Stroke := [coverBase; coverMiddle; coverWide].

(** The scene of scenario 1 as the extractor returns it. *)
Definition singleStrokeScene : VectorScene :=
  mkScene 1 1 1 [mkQuad 0 0 10 0] [mkQuad 1 0 1 0] (mkBounds 0 0 10 0)
          (mkBounds 0 0 100 100) 1 2 1 0 0 0 0.
End Scenarios.

(** The vocabulary of the visible-set properties. *)
Module Visibility.
Import Extractor SpatialGrid.
Local Open Scope Q_scope.

(** A scene whose arrays hold [segmentCount] records, whose margins
    [half_width + 0.35] are not negative, and whose stroke ids and grid
    memberships fit the 32-bit arrays of the grid. *)
Definition sceneOk (sc : VectorScene) : Prop :=
  length (endpoints sc) = segmentCount sc
  /\ length (styles sc) = segmentCount sc
  /\ Forall (fun s => 0 <= qa s + 0.35) (styles sc)
  /\ (Z.of_nat (segmentCount sc) < 2 ^ 32)%Z
  /\ (Z.of_nat (length (memberships sc)) < 2 ^ 32)%Z.

(** The mark array holds no token above the current one, and the current
    token is below the wrap-around limit. *)
Definition marksOk (marks : list Z) (token : Z) : Prop :=
  (1 <= token < 0xffffffff)%Z /\ Forall (fun m => (m <= token)%Z) marks.

(** The bound arrays hold, for every stroke, its endpoint box grown by
    [half_width + 0.35]. *)
Definition boundsOk (sc : VectorScene) (b : Renderer.SegmentBounds) : Prop :=
  forall i e s, endpoints sc !! i = Some e -> styles sc !! i = Some s ->
    exists x0 y0 x1 y1,
      Renderer.sbMinX b !! i = Some x0 /\ Renderer.sbMinY b !! i = Some y0
      /\ Renderer.sbMaxX b !! i = Some x1 /\ Renderer.sbMaxY b !! i = Some y1
      /\ Scenarios.quadEq (mkQuad x0 y0 x1 y1) (Scenarios.expandedBox e s).

Definition sameLengths (b : Renderer.SegmentBounds) : Prop :=
  length (Renderer.sbMinY b) = length (Renderer.sbMinX b)
  /\ length (Renderer.sbMaxX b) = length (Renderer.sbMinX b)
  /\ length (Renderer.sbMaxY b) = length (Renderer.sbMinX b).

Definition boundsOfState (st : Renderer.State) : Renderer.SegmentBounds :=
  Renderer.mkSegBounds (Renderer.segmentMinX st) (Renderer.segmentMinY st)
                       (Renderer.segmentMaxX st) (Renderer.segmentMaxY st).

(** What scene installation needs of the renderer it finds. *)
Definition rendererReady (st : Renderer.State) : Prop :=
  marksOk (Renderer.segmentMarks st) (Renderer.markToken st)
  /\ sameLengths (boundsOfState st).

(** A renderer on which scene [sc] is installed. *)
Definition rendererOk (sc : VectorScene) (st : Renderer.State) : Prop :=
  Renderer.scene st = Some sc
  /\ Renderer.grid st = Some (buildSpatialGrid sc)
  /\ Renderer.segmentCount st = segmentCount sc
  /\ Renderer.allSegmentIds st = map Z.of_nat (seq 0 (segmentCount sc))
  /\ (segmentCount sc <= length (Renderer.visibleSegmentIds st))%nat
  /\ (segmentCount sc <= length (Renderer.segmentMarks st))%nat
  /\ rendererReady st
  /\ boundsOk sc (boundsOfState st).

(** The same for [gpuFloorplanRenderer.ts], which keeps no bound arrays. *)
Definition basicOk (sc : VectorScene) (st : RendererBasic.State) : Prop :=
  RendererBasic.scene st = Some sc
  /\ RendererBasic.grid st = Some (buildSpatialGrid sc)
  /\ RendererBasic.segmentCount st = segmentCount sc
  /\ RendererBasic.allSegmentIds st = map Z.of_nat (seq 0 (segmentCount sc))
  /\ (segmentCount sc <= length (RendererBasic.visibleSegmentIds st))%nat
  /\ (segmentCount sc <= length (RendererBasic.segmentMarks st))%nat
  /\ marksOk (RendererBasic.segmentMarks st) (RendererBasic.markToken st).

(** A box [(minX, minY, maxX, maxY)] meets a view rectangle
    [(viewMinX, viewMaxX, viewMinY, viewMaxY)]. *)
Definition intersectsView (box : Quad) (view : Q * Q * Q * Q) : Prop :=
  let '(viewMinX, viewMaxX, viewMinY, viewMaxY) := view in
  viewMinX <= qc box /\ qa box <= viewMaxX /\ viewMinY <= qd box /\ qb box <= viewMaxY.

(** The invariant of the scan: the populated prefix of the output buffer has
    no repetition, holds ids below [n] that carry the token, and holds every
    marked stroke that the view test does not skip. *)
Definition scanInv (b : Renderer.SegmentBounds) (view : Q * Q * Q * Q) (token : Z) (n : nat)
    (s : Renderer.Scan) : Prop :=
  let out := take (Renderer.outCount s) (Renderer.outIds s) in
  (Renderer.outCount s <= length (Renderer.outIds s))%nat
  /\ (n <= length (Renderer.outIds s))%nat
  /\ (n <= length (Renderer.marks s))%nat
  /\ Forall (fun m => (m <= token)%Z) (Renderer.marks s)
  /\ NoDup out
  /\ (forall v, v ∈ out ->
        (0 <= v < Z.of_nat n)%Z /\ Renderer.marks s !! Z.to_nat v = Some token)
  /\ (forall k, Renderer.marks s !! k = Some token ->
        Renderer.outsideView b view k = false -> Z.of_nat k ∈ out).

(** Every stroke whose grown box meets the view rectangle is among [ids]. *)
Definition coversView (sc : VectorScene) (view : Q * Q * Q * Q) (ids : list Z) : Prop :=
  forall i e s, endpoints sc !! i = Some e -> styles sc !! i = Some s ->
    intersectsView (Scenarios.expandedBox e s) view -> Z.of_nat i ∈ ids.

(** The scan of [gpuFloorplanRenderer.ts] read as a scan that has no bound
    arrays to test against. *)
Definition noBounds : Renderer.SegmentBounds := Renderer.mkSegBounds [] [] [] [].

Definition toScan (s : RendererBasic.Scan) : Renderer.Scan :=
  Renderer.mkScanSt (RendererBasic.marks s) (RendererBasic.outIds s) (RendererBasic.outCount s).
End Visibility.

(** The contents of typed arrays. *)
Module Payloads.
Local Open Scope Z_scope.

(** The elements of a [Uint8Array]. *)
Definition allBytes (l : list Z) : Prop := Forall (fun b => 0 <= b < 256) l.

(** The patterns of the elements of a [Float32Array] or [Uint32Array]. *)
Definition allWords (l : list Z) : Prop := Forall (fun w => 0 <= w < 2 ^ 32) l.
End Payloads.

(** Chains of chords and of stack records. *)
Module Polyline.
Import Extractor.

(** The chords form a connected line from one point to another; an empty
    list connects a point to itself. *)
Fixpoint chained (fromX fromY : Q) (chords : list Chord) (toX toY : Q) : Prop :=
  match chords with
  | [] => fromX = toX /\ fromY = toY
  | c :: rest => ax c = fromX /\ ay c = fromY /\ chained (bx c) (by_ c) rest toX toY
  end.

(** The same for the records of the subdivision stack, top first. *)
Fixpoint stackChained (fromX fromY : Q) (stack : list CubicRec) (toX toY : Q) : Prop :=
  match stack with
  | [] => fromX = toX /\ fromY = toY
  | r :: rest =>
      q0x r = fromX /\ q0y r = fromY /\ stackChained (q3x r) (q3y r) rest toX toY
  end.
End Polyline.

(** The vocabulary of the properties of extracted strokes. *)
Module Strokes.
Import Extractor.
Local Open Scope Q_scope.

(** A style record as the extractor writes it: a half width of at least
    0.2, luma and alpha between 0 and 1, and a fourth channel of 0. *)
Definition styleOk (s : Quad) : Prop :=
  0.2 <= qa s /\ (0 <= qb s /\ qb s <= 1) /\ (0 <= qc s /\ qc s <= 1) /\ qd s = 0.

(** Both endpoints of a stroke lie in a box. *)
Definition within (b : Bounds) (seg : Stroke) : Prop :=
  (minX b <= qa (endpoint seg) /\ qa (endpoint seg) <= maxX b)
  /\ (minX b <= qc (endpoint seg) /\ qc (endpoint seg) <= maxX b)
  /\ (minY b <= qb (endpoint seg) /\ qb (endpoint seg) <= maxY b)
  /\ (minY b <= qd (endpoint seg) /\ qd (endpoint seg) <= maxY b).

(** A stroke drawn the other way. *)
Definition reversed (seg : Stroke) : Stroke :=
  mkStroke (mkQuad (qc (endpoint seg)) (qd (endpoint seg)) (qa (endpoint seg)) (qb (endpoint seg)))
           (style seg).

(** A point lies in a box. *)
Definition inBox (b : Bounds) (p : Q * Q) : Prop :=
  (minX b <= fst p /\ fst p <= maxX b) /\ (minY b <= snd p /\ snd p <= maxY b).

(** The depth of [save] nesting after a run of operators that starts at
    depth [d]; [None] when a [restore] has no [save] before it in the run. *)
Fixpoint nestDepth (d : nat) (ops : list Operator) : option nat :=
  match ops with
  | [] => Some d
  | OpSave :: rest => nestDepth (S d) rest
  | OpRestore :: rest =>
      match d with
      | O => None
      | S d' => nestDepth d' rest
      end
  | _ :: rest => nestDepth d rest
  end.
End Strokes.

(** The floats of a list of records, as a [Float32Array] holds them. *)
Module Packing.
Definition floatsOf (quads : list Quad) : list Q :=
  quads ≫= (fun q => [f32 (qa q); f32 (qb q); f32 (qc q); f32 (qd q)]).
End Packing.

(** The strokes that visit a cell. *)
Module CellLists.

(** The strokes of the visits of cell [c] among [(stroke, cell)] visits, in
    the order of the visits. *)
Fixpoint visitors (c : nat) (pairs : list (nat * nat)) : list nat :=
  match pairs with
  | [] => []
  | (i, c') :: rest => if (c' =? c)%nat then i :: visitors c rest else visitors c rest
  end.

(** The strokes of a scene whose cell range holds cell [c], in increasing
    order. *)
Definition strokesOfCell (scene : Extractor.VectorScene) (c : nat) : list nat :=
  filter (fun i => c ∈ Measures.gridCells scene i) (seq 0 (Extractor.segmentCount scene)).
End CellLists.

(** Boxes stored in the textures of an archive. *)
Module StoredBoxes.
Import Extractor.
Local Open Scope Q_scope.

(** The box [(minX, minY, maxX, maxY)] of a record lies in the bounds. *)
Definition encloses (b : Bounds) (box : Quad) : Prop :=
  minX b <= qa box /\ minY b <= qb box /\ qc box <= maxX b /\ qd box <= maxY b.

(** The box of a fill path, which its two meta records share. *)
Definition fillBox (metaA metaB : Quad) : Quad :=
  mkQuad (qc metaA) (qd metaA) (qa metaB) (qb metaB).
End StoredBoxes.

(* ================================================================== *)
(** * Properties *)

(** ** Curve flattening *)

Section Flatten.
Import Extractor.
Variable flatness : Q.
Variable maxDepth : nat.

Local Abbreviation recWeight := (Measures.recWeight maxDepth).
Local Abbreviation recLeaves := (Measures.recLeaves maxDepth).
Local Abbreviation stackWeight := (Measures.stackWeight maxDepth).
Local Abbreviation stackLeaves := (Measures.stackLeaves maxDepth).

Lemma pow2_pos (n : nat) : (1 <= 2 ^ n)%nat.
Proof. induction n; simpl; lia. Qed.

Lemma recWeight_pos (r : CubicRec) : (1 <= recWeight r)%nat.
Proof. unfold Measures.recWeight. simpl. pose proof (pow2_pos (maxDepth - depth r)). lia. Qed.

Lemma split_weight (r : CubicRec) :
  isLeaf flatness maxDepth r = false ->
  (recWeight (firstHalf r) + recWeight (secondHalf r) + 1 = recWeight r)%nat
  /\ (recLeaves (firstHalf r) + recLeaves (secondHalf r) = recLeaves r)%nat.
Proof.
  unfold isLeaf. intros H. apply orb_false_iff in H as [Hd _].
  apply Nat.leb_gt in Hd.
  unfold Measures.recWeight, Measures.recLeaves, firstHalf, secondHalf; cbn [depth].
  replace (maxDepth - depth r)%nat with (S (maxDepth - (depth r + 1)))%nat by lia.
  set (k := (maxDepth - (depth r + 1))%nat).
  pose proof (pow2_pos k). cbn [Nat.pow]. lia.
Qed.

Lemma stackWeight_cons r st : stackWeight (r :: st) = (recWeight r + stackWeight st)%nat.
Proof. reflexivity. Qed.

Lemma stackLeaves_cons r st : stackLeaves (r :: st) = (recLeaves r + stackLeaves st)%nat.
Proof. reflexivity. Qed.

Lemma flattenLoop_run (fuel : nat) :
  forall stack out,
    (stackWeight stack < fuel)%nat ->
    exists emitted,
      flattenLoop fuel flatness maxDepth stack out = Some (out ++ emitted)
      /\ (length stack <= length emitted <= stackLeaves stack)%nat.
Proof.
  induction fuel as [|fuel IH]; intros stack out Hw; [lia|].
  destruct stack as [|r rest].
  - exists []. rewrite app_nil_r. simpl. split; [reflexivity|lia].
  - cbn [flattenLoop]. unfold flattenStep. cbn [fst snd].
    rewrite stackWeight_cons in Hw. rewrite stackLeaves_cons.
    pose proof (recWeight_pos r) as Hr.
    destruct (isLeaf flatness maxDepth r) eqn:Hleaf.
    + destruct (IH rest (out ++ [chordOf r])) as (em & Heq & Hlen); [lia|].
      exists (chordOf r :: em). rewrite Heq, <- app_assoc. split; [reflexivity|].
      cbn [length]. unfold Measures.recLeaves. pose proof (pow2_pos (maxDepth - depth r)). lia.
    + destruct (split_weight r Hleaf) as [Hw2 Hl2].
      destruct (IH (firstHalf r :: secondHalf r :: rest) out) as (em & Heq & Hlen).
      { rewrite !stackWeight_cons. lia. }
      exists em. split; [exact Heq|].
      rewrite !stackLeaves_cons in Hlen. cbn [length] in *. lia.
Qed.

End Flatten.

Lemma flattenCubic_general (flatness : Q) (maxDepth : nat) (x0 y0 x1 y1 x2 y2 x3 y3 : Q) :
  exists chords,
    Extractor.flattenLoop (Extractor.flattenFuel maxDepth) flatness maxDepth
      [Extractor.mkCubic x0 y0 x1 y1 x2 y2 x3 y3 0] [] = Some chords
    /\ Extractor.flattenCubic x0 y0 x1 y1 x2 y2 x3 y3 flatness maxDepth = chords
    /\ (1 <= length chords <= 2 ^ maxDepth)%nat.
Proof.
  destruct (flattenLoop_run flatness maxDepth (Extractor.flattenFuel maxDepth)
              [Extractor.mkCubic x0 y0 x1 y1 x2 y2 x3 y3 0] []) as (em & Heq & Hlen).
  - rewrite stackWeight_cons.
    unfold Measures.stackWeight, Measures.recWeight, Extractor.flattenFuel.
    cbn [map Extractor.depth]. rewrite Nat.sub_0_r.
    pose proof (pow2_pos (S maxDepth)). change (list_sum []) with 0%nat. lia.
  - exists em. cbn [app] in Heq. split; [exact Heq|]. split.
    + unfold Extractor.flattenCubic. rewrite Heq. reflexivity.
    + rewrite stackLeaves_cons in Hlen.
      unfold Measures.stackLeaves, Measures.recLeaves in Hlen.
      cbn [map Extractor.depth length] in Hlen. rewrite Nat.sub_0_r in Hlen.
      change (list_sum []) with 0%nat in Hlen. lia.
Qed.


(** ** Comparisons on numbers *)

Lemma Qleb_true (x y : Q) : Qleb x y = true <-> (x <= y)%Q.
Proof. apply Qle_bool_iff. Qed.

Lemma Qleb_false (x y : Q) : Qleb x y = false <-> (y < x)%Q.
Proof.
  unfold Qleb. rewrite <- not_true_iff_false, Qle_bool_iff.
  split; [apply Qnot_le_lt | apply Qlt_not_le].
Qed.

Lemma Qltb_true (x y : Q) : Qltb x y = true <-> (x < y)%Q.
Proof. unfold Qltb. rewrite negb_true_iff. apply Qleb_false. Qed.

Lemma Qltb_false (x y : Q) : Qltb x y = false <-> (y <= x)%Q.
Proof. unfold Qltb. rewrite negb_false_iff. apply Qleb_true. Qed.

Lemma f32_eq (x : Q) : (f32 x == x)%Q.
Proof. apply Qred_correct. Qed.

Lemma min2_spec (a b : Q) : (min2 a b <= a /\ min2 a b <= b)%Q.
Proof.
  unfold min2. destruct (Qleb a b) eqn:E.
  - apply Qleb_true in E. split; [apply Qle_refl | exact E].
  - apply Qleb_false in E. split; [apply Qlt_le_weak, E | apply Qle_refl].
Qed.

Lemma max2_spec (a b : Q) : (a <= max2 a b /\ b <= max2 a b)%Q.
Proof.
  unfold max2. destruct (Qleb a b) eqn:E.
  - apply Qleb_true in E. split; [exact E | apply Qle_refl].
  - apply Qleb_false in E. split; [apply Qle_refl | apply Qlt_le_weak, E].
Qed.

(** ** Scenario 1: a single horizontal stroke *)

(** C3 as stated fails: the bounds of the scene are not the endpoint box
    grown by [half_width + 0.35]. *)
Lemma single_stroke_bounds_not_expanded :
  ~ Scenarios.boundsEq
      (Extractor.bounds
         (Extractor.extractFirstPageVectors (Scenarios.singleStrokePage (0, 0, 100, 100)%Q)
            (Extractor.mkOptions true true)))
      (Extractor.mkBounds (-1.35) (-1.35) 11.35 1.35).
Proof.
  intros [H _]. vm_compute in H. discriminate H.
Qed.

(** C3, amended.  For scenario 1 under the identity page matrix, whatever
    the page view and the options, the scene has one stroke with endpoints
    (0,0,10,0), half width 1, luma 0 and alpha 1, its [maxHalfWidth] is 1, and
    its bounds are the bare endpoint box (0,0,10,0). *)
Theorem single_stroke_scene (view : Q * Q * Q * Q) (options : Extractor.VectorExtractOptions) :
  let sc := Extractor.extractFirstPageVectors (Scenarios.singleStrokePage view) options in
  Extractor.segmentCount sc = 1%nat
  /\ Extractor.endpoints sc = [mkQuad 0 0 10 0]
  /\ Extractor.styles sc = [mkQuad 1 0 1 0]
  /\ (Extractor.maxHalfWidth sc == 1)%Q
  /\ Scenarios.boundsEq (Extractor.bounds sc) (Extractor.mkBounds 0 0 10 0).
Proof.
  destruct options as [[] []]; vm_compute; repeat split; reflexivity.
Qed.

(** ** Scenes without a surviving stroke *)

(** C10.  When no stroke was pushed, or when culling is enabled and
    discards every stroke, the scene has no stroke and empty arrays, its
    bounds are the page bounds, its [maxHalfWidth] is 0, and the source,
    merged, operator and path counts and the discarded tallies are still
    reported. *)
Theorem extract_without_survivors
    (page : Extractor.Page) (options : Extractor.VectorExtractOptions) :
  let s := Extractor.runOperators page options in
  let merged := Extractor.strokes (Extractor.pageSink s) in
  let culled := Extractor.cullInvisibleSegments merged in
  let sc := Extractor.extractFirstPageVectors page options in
  (length merged = 0%nat
   \/ (Extractor.enableInvisibleCull options = true
       /\ Extractor.cullSegmentCount culled = 0%nat)) ->
  Extractor.segmentCount sc = 0%nat
  /\ Extractor.endpoints sc = [] /\ Extractor.styles sc = []
  /\ Extractor.bounds sc = Extractor.pageBoundsOf page
  /\ Extractor.pageBounds sc = Extractor.pageBoundsOf page
  /\ Extractor.maxHalfWidth sc = 0%Q
  /\ Extractor.sourceSegmentCount sc = Extractor.nSource s
  /\ Extractor.mergedSegmentCount sc = length merged
  /\ Extractor.operatorCount sc = length (Extractor.operatorList page)
  /\ Extractor.pathCount sc = Extractor.nPaths s
  /\ (Extractor.discardedTransparentCount sc, Extractor.discardedDegenerateCount sc,
      Extractor.discardedDuplicateCount sc, Extractor.discardedContainedCount sc)
     = match length merged with
       | O => (0, 0, 0, 0)%nat
       | _ => (Extractor.cullDiscardedTransparent culled, Extractor.cullDiscardedDegenerate culled,
               Extractor.cullDiscardedDuplicate culled, Extractor.cullDiscardedContained culled)
       end.
Proof.
  intros s merged culled sc H.
  unfold sc, Extractor.extractFirstPageVectors.
  fold s. fold merged.
  destruct (length merged) eqn:Hlen.
  - cbn. repeat split; reflexivity.
  - destruct H as [H | [Hcull Hzero]]; [discriminate H|].
    rewrite Hcull. cbn [negb]. fold culled. rewrite Hzero.
    cbn. repeat split; reflexivity.
Qed.

Lemma extract_without_survivors_witness :
  let sc := Extractor.extractFirstPageVectors Scenarios.transparentStrokePage
              (Extractor.mkOptions true true) in
  Extractor.segmentCount sc = 0%nat
  /\ Extractor.mergedSegmentCount sc = 1%nat
  /\ Extractor.discardedTransparentCount sc = 1%nat
  /\ Extractor.bounds sc = Extractor.pageBoundsOf Scenarios.transparentStrokePage.
Proof.
  pose proof (extract_without_survivors Scenarios.transparentStrokePage
                (Extractor.mkOptions true true)) as H.
  cbv zeta in H.
  destruct H as (H1 & _ & _ & H4 & _ & _ & _ & H8 & _ & _ & H11).
  { right. split; [reflexivity | vm_compute; reflexivity]. }
  cbv zeta. split; [exact H1|]. split; [rewrite H8; vm_compute; reflexivity|].
  split; [|exact H4].
  apply (f_equal (fun t => fst (fst (fst t)))) in H11. exact H11.
Defined.

(** ** Textures derived by the archive loader *)

Lemma min3_dup (a b : Q) : min3 a b b = min2 a b.
Proof.
  unfold min3, min2. destruct (Qleb a b) eqn:E; [rewrite E; reflexivity|].
  destruct (Qleb b b); reflexivity.
Qed.

Lemma max3_dup (a b : Q) : max3 a b b = max2 a b.
Proof.
  unfold max3, max2. destruct (Qleb a b) eqn:E.
  - destruct (Qleb b b); reflexivity.
  - rewrite E. reflexivity.
Qed.

Lemma trimTexture_lookup (source : list Quad) (n : nat) (out : list Quad) :
  ParsedDataZip.trimTextureForItemCount source n = Some out ->
  length out = n /\ forall i, (i < n)%nat -> out !! i = source !! i.
Proof.
  unfold ParsedDataZip.trimTextureForItemCount. destruct n as [|n].
  - intros [= <-]. split; [reflexivity|]. intros i Hi. lia.
  - destruct (length source <? S n)%nat eqn:E; [discriminate|].
    apply Nat.ltb_ge in E. intros [= <-]. split.
    + apply length_take_le. exact E.
    + intros i Hi. apply lookup_take_lt. exact Hi.
Qed.

Lemma deriveLinePrimitiveB_lookup (A : list Quad) (n i : nat) (e : Quad) :
  length A = n -> A !! i = Some e ->
  ParsedDataZip.deriveLinePrimitiveB A n !! i = Some (mkQuad (qc e) (qd e) 0 0).
Proof.
  intros Hlen He. unfold ParsedDataZip.deriveLinePrimitiveB.
  rewrite firstn_all2 by lia.
  change (map ?f ?l) with (f <$> l). rewrite list_lookup_fmap, He. reflexivity.
Qed.

Lemma derivePrimitiveBounds_lookup (A B : list Quad) (n i : nat) (e m : Quad) :
  length A = n -> A !! i = Some e -> B !! i = Some m ->
  ParsedDataZip.derivePrimitiveBounds A B n !! i
  = Some (mkQuad (min3 (qa e) (qc e) (qa m)) (min3 (qb e) (qd e) (qb m))
                 (max3 (qa e) (qc e) (qa m)) (max3 (qb e) (qd e) (qb m))).
Proof.
  intros Hlen He Hm. unfold ParsedDataZip.derivePrimitiveBounds.
  assert (Hz : zip A B !! i = Some (e, m)).
  { apply lookup_zip_with_Some. exists e, m. auto. }
  rewrite firstn_all2.
  - change (map ?f ?l) with (f <$> l). rewrite list_lookup_fmap, Hz. reflexivity.
  - rewrite length_zip_with. lia.
Qed.

(** C9 as stated fails: for an archive that holds only the endpoints and the
    styles of one stroke of half width 1 from (0,0) to (10,0), the derived
    bounds record is (0,0,10,0), not the box grown by [half_width + 0.35]. *)
Lemma derived_bounds_without_margin :
  exists t,
    ParsedDataZip.loadStrokeTextures 1
      (Some Scenarios.legacyPrimitivesA) (Some Scenarios.legacyStyles) None None = Some t
    /\ ParsedDataZip.primitiveBounds t = [mkQuad 0 0 10 0]
    /\ ~ Scenarios.quadEq (mkQuad 0 0 10 0)
           (Scenarios.expandedBox (mkQuad 0 0 10 0) (mkQuad 1 0 1 0)).
Proof.
  eexists. split; [vm_compute; reflexivity|]. split; [reflexivity|].
  intros [H _]. vm_compute in H. discriminate H.
Qed.

(** C9, amended.  When the loader accepts an archive: a missing
    [stroke-primitives-b] is derived record by record as [(x1, y1, 0, 0)]; a
    missing [stroke-primitive-bounds] is derived as the minimum and maximum
    over the two endpoints and the first two channels of the
    [stroke-primitives-b] record; when both are missing the derived bounds
    record is the box of the two endpoints, without any margin. *)
Theorem derived_stroke_textures (n : nat)
    (entryA entryS entryB entryBounds : option ParsedDataZip.TextureEntry)
    (t : ParsedDataZip.StrokeTextures) :
  ParsedDataZip.loadStrokeTextures n entryA entryS entryB entryBounds = Some t ->
  length (ParsedDataZip.endpoints t) = n
  /\ (entryB = None ->
      forall i e, ParsedDataZip.endpoints t !! i = Some e ->
        ParsedDataZip.primitiveMeta t !! i = Some (mkQuad (qc e) (qd e) 0 0))
  /\ (entryBounds = None ->
      forall i e m, ParsedDataZip.endpoints t !! i = Some e ->
        ParsedDataZip.primitiveMeta t !! i = Some m ->
        ParsedDataZip.primitiveBounds t !! i
        = Some (mkQuad (min3 (qa e) (qc e) (qa m)) (min3 (qb e) (qd e) (qb m))
                       (max3 (qa e) (qc e) (qa m)) (max3 (qb e) (qd e) (qb m))))
  /\ (entryB = None -> entryBounds = None ->
      forall i e, ParsedDataZip.endpoints t !! i = Some e ->
        ParsedDataZip.primitiveBounds t !! i = Some (Scenarios.endpointBox e)).
Proof.
  unfold ParsedDataZip.loadStrokeTextures.
  destruct (_ && _); [discriminate|].
  match goal with
  | |- (ParsedDataZip.trimTextureForItemCount ?d n ≫= _) = Some _ -> _ =>
      destruct (ParsedDataZip.trimTextureForItemCount d n) as [eps|] eqn:HA
  end; [|cbn; discriminate].
  cbn [mbind option_bind].
  match goal with
  | |- (ParsedDataZip.trimTextureForItemCount ?d n ≫= _) = Some _ -> _ =>
      destruct (ParsedDataZip.trimTextureForItemCount d n) as [sts|] eqn:HS
  end; [|cbn; discriminate].
  cbn [mbind option_bind].
  destruct (trimTexture_lookup _ _ _ HA) as [Hlen _].
  assert (HB : entryB = None ->
               forall meta, Some (ParsedDataZip.deriveLinePrimitiveB eps n) = Some meta ->
               forall i e, eps !! i = Some e -> meta !! i = Some (mkQuad (qc e) (qd e) 0 0)).
  { intros _ meta [= <-] i e He. apply deriveLinePrimitiveB_lookup; assumption. }
  destruct entryB as [tb|], entryBounds as [tbd|]; cbn [mbind option_bind].
  - destruct (ParsedDataZip.trimTextureForItemCount (ParsedDataZip.data tb) n); [|cbn; discriminate].
    cbn [mbind option_bind].
    destruct (ParsedDataZip.trimTextureForItemCount (ParsedDataZip.data tbd) n); [|cbn; discriminate].
    cbn [mbind option_bind]. intros [= <-]. cbn.
    split; [exact Hlen|]. repeat split; intros; discriminate.
  - destruct (ParsedDataZip.trimTextureForItemCount (ParsedDataZip.data tb) n) as [meta|];
      [|cbn; discriminate].
    cbn [mbind option_bind]. intros [= <-]. cbn.
    split; [exact Hlen|]. split; [intros; discriminate|]. split; [|intros; discriminate].
    intros _ i e m He Hm. apply derivePrimitiveBounds_lookup; assumption.
  - destruct (ParsedDataZip.trimTextureForItemCount (ParsedDataZip.data tbd) n); [|cbn; discriminate].
    cbn [mbind option_bind]. intros [= <-]. cbn.
    split; [exact Hlen|]. split; [|split; intros; discriminate].
    intros _ i e He. apply (HB eq_refl _ eq_refl). exact He.
  - intros [= <-]. cbn.
    split; [exact Hlen|]. split; [|split].
    + intros _ i e He. apply (HB eq_refl _ eq_refl). exact He.
    + intros _ i e m He Hm. apply derivePrimitiveBounds_lookup; assumption.
    + intros _ _ i e He.
      rewrite (derivePrimitiveBounds_lookup eps _ n i e (mkQuad (qc e) (qd e) 0 0) Hlen He).
      * cbn [qa qb]. rewrite !min3_dup, !max3_dup. reflexivity.
      * apply (HB eq_refl _ eq_refl). exact He.
Qed.

Lemma derived_stroke_textures_witness :
  exists t,
    ParsedDataZip.loadStrokeTextures 1
      (Some Scenarios.legacyPrimitivesA) (Some Scenarios.legacyStyles) None None = Some t
    /\ ParsedDataZip.primitiveMeta t !! 0%nat = Some (mkQuad 10 0 0 0)
    /\ ParsedDataZip.primitiveBounds t !! 0%nat = Some (mkQuad 0 0 10 0).
Proof.
  set (t := ParsedDataZip.mkStrokeTextures [mkQuad 0 0 10 0] [mkQuad 1 0 1 0]
              [mkQuad 10 0 0 0] [mkQuad 0 0 10 0]).
  assert (Ht : ParsedDataZip.loadStrokeTextures 1
                 (Some Scenarios.legacyPrimitivesA) (Some Scenarios.legacyStyles) None None
               = Some t) by reflexivity.
  exists t. split; [exact Ht|].
  destruct (derived_stroke_textures 1 _ _ _ _ t Ht) as (_ & HB & _ & HBd).
  split.
  - apply (HB eq_refl 0%nat (mkQuad 0 0 10 0)). reflexivity.
  - apply (HBd eq_refl eq_refl 0%nat (mkQuad 0 0 10 0)). reflexivity.
Defined.

(** ** The full-view fast path of the visible-set builder *)



(** The older revision, [gpuFloorplanRenderer.ts], has no interaction gate
    and switches at [0.7] of the cells. *)
Lemma basic_full_view_threshold (st : RendererBasic.State)
    (sc : Extractor.VectorScene) (g : SpatialGrid.SpatialGrid) :
  RendererBasic.scene st = Some sc ->
  RendererBasic.grid st = Some g ->
  let visibleCellCount :=
    (let '(c0, c1, r0, r1) := RendererBasic.viewCells g (RendererBasic.viewRect st sc) in
     (c1 - c0 + 1) * (r1 - r0 + 1))%Z in
  RendererBasic.usingAllSegments (RendererBasic.updateVisibleSet st) = true
  <-> (inject_Z (SpatialGrid.gridWidth g * SpatialGrid.gridHeight g) * 0.7
       <= inject_Z visibleCellCount)%Q.
Proof.
  intros Hsc Hg. cbv zeta. unfold RendererBasic.updateVisibleSet. rewrite Hsc, Hg.
  destruct (RendererBasic.viewCells g (RendererBasic.viewRect st sc)) as [[[c0 c1] r0] r1].
  destruct (Qleb _ _) eqn:Hq; cbn [RendererBasic.usingAllSegments].
  - split; [intros _; apply Qleb_true, Hq | reflexivity].
  - split; [discriminate|]. intros H. apply Qleb_true in H. congruence.
Qed.

(** ** The visibility culler: counters, survivors and order *)

Section Cull.
Import Extractor.

Lemma countKept_insert_true (mask : list bool) (i : nat) :
  mask !! i = Some false ->
  countKept (<[i := true]> mask) = S (countKept mask).
Proof.
  revert i. induction mask as [|b mask IH]; intros [|i] H; try discriminate.
  - cbn in H. injection H as ->. reflexivity.
  - simpl in H. simpl. rewrite (IH i H). destruct b; reflexivity.
Qed.

Lemma countKept_insert_false (mask : list bool) (i : nat) :
  mask !! i = Some true ->
  S (countKept (<[i := false]> mask)) = countKept mask.
Proof.
  revert i. induction mask as [|b mask IH]; intros [|i] H; try discriminate.
  - cbn in H. injection H as ->. reflexivity.
  - simpl in H. simpl. rewrite <- (IH i H). destruct b; reflexivity.
Qed.

Lemma countKept_replicate_false (n : nat) : countKept (replicate n false) = 0%nat.
Proof. induction n; [reflexivity | exact IHn]. Qed.

Lemma countKept_length_select (mask : list bool) (segs : list Stroke) :
  length mask = length segs -> length (selectKept mask segs) = countKept mask.
Proof.
  revert segs. induction mask as [|b mask IH]; intros [|seg segs] H; try discriminate.
  - reflexivity.
  - injection H as H. cbn. destruct b; cbn; rewrite (IH segs H); reflexivity.
Qed.

Lemma selectKept_none (mask : list bool) (segs : list Stroke) :
  countKept mask = 0%nat -> selectKept mask segs = [].
Proof.
  revert segs. induction mask as [|b mask IH]; intros segs H; [reflexivity|].
  destruct segs as [|seg segs]; [reflexivity|].
  destruct b; [discriminate H|]. cbn. apply IH. exact H.
Qed.

Lemma selectKept_sublist (mask : list bool) (segs : list Stroke) :
  sublist (selectKept mask segs) segs.
Proof.
  revert segs. induction mask as [|b mask IH]; intros segs.
  - apply sublist_nil_l.
  - destruct segs as [|seg segs]; [constructor|].
    cbn. destruct b; [apply sublist_skip | apply sublist_cons]; apply IH.
Qed.

Lemma selectKept_Forall (P : Stroke -> Prop) (mask : list bool) (segs : list Stroke) :
  (forall j seg, mask !! j = Some true -> segs !! j = Some seg -> P seg) ->
  Forall P (selectKept mask segs).
Proof.
  revert segs. induction mask as [|b mask IH]; intros segs H; [constructor|].
  destruct segs as [|seg segs]; [constructor|].
  cbn. assert (Hrest : Forall P (selectKept mask segs)).
  { apply IH. intros j seg' Hm Hs. apply (H (S j)); assumption. }
  destruct b; [|exact Hrest].
  constructor; [|exact Hrest]. apply (H 0%nat); reflexivity.
Qed.

(** *** The first loop *)

Lemma scanStep_length (s : ScanState) (i : nat) (seg : Stroke) :
  length (keepMask (scanStep s i seg)) = length (keepMask s).
Proof.
  unfold scanStep.
  repeat match goal with |- context [if ?c then _ else _] => destruct c end;
    cbn [keepMask]; rewrite ?length_insert; reflexivity.
Qed.

Lemma scanStep_below (s : ScanState) (i j : nat) (seg : Stroke) :
  j <> i -> keepMask (scanStep s i seg) !! j = keepMask s !! j.
Proof.
  intros Hne. unfold scanStep.
  repeat match goal with |- context [if ?c then _ else _] => destruct c end;
    cbn [keepMask]; try reflexivity.
  apply list_lookup_insert_ne. congruence.
Qed.

Lemma scanStep_count (s : ScanState) (i : nat) (seg : Stroke) :
  keepMask s !! i = Some false ->
  (nTransparent (scanStep s i seg) + nDegenerate (scanStep s i seg)
   + nDuplicate (scanStep s i seg) + countKept (keepMask (scanStep s i seg))
   = S (nTransparent s + nDegenerate s + nDuplicate s + countKept (keepMask s)))%nat.
Proof.
  intros Hi. unfold scanStep.
  repeat match goal with |- context [if ?c then _ else _] => destruct c end;
    cbn [keepMask nTransparent nDegenerate nDuplicate];
    rewrite ?(countKept_insert_true _ _ Hi); lia.
Qed.

Lemma scanStep_kept_visible (s : ScanState) (i : nat) (seg : Stroke) :
  keepMask (scanStep s i seg) !! i = Some true ->
  keepMask s !! i = Some true \/ Scenarios.visibleStroke seg.
Proof.
  unfold scanStep.
  destruct (Qleb _ ALPHA_INVISIBLE_EPSILON) eqn:Ha; [cbn [keepMask]; auto|].
  match goal with |- context [Qltb ?l 1e-10] => destruct (Qltb l 1e-10) eqn:Hl end;
    [cbn [keepMask]; auto|].
  intros _. right. split.
  - apply Qleb_false in Ha. exact Ha.
  - apply Qltb_false in Hl. exact Hl.
Qed.

Lemma scanLoop_spec (segs : list Stroke) :
  forall (s : ScanState) (i : nat),
    (i + length segs <= length (keepMask s))%nat ->
    (forall j, (i <= j)%nat -> (j < length (keepMask s))%nat -> keepMask s !! j = Some false) ->
    let s' := scanLoop s i segs in
    length (keepMask s') = length (keepMask s)
    /\ (nTransparent s' + nDegenerate s' + nDuplicate s' + countKept (keepMask s')
        = nTransparent s + nDegenerate s + nDuplicate s + countKept (keepMask s)
          + length segs)%nat
    /\ (forall j, keepMask s' !! j = Some true ->
          keepMask s !! j = Some true
          \/ exists seg, (i <= j)%nat /\ segs !! (j - i)%nat = Some seg
                         /\ Scenarios.visibleStroke seg).
Proof.
  induction segs as [|seg segs IH]; intros s i Hlen Hfalse; cbn [scanLoop].
  - cbn. split; [reflexivity|]. split; [lia|]. intros j Hj. left. exact Hj.
  - cbn [length] in Hlen.
    assert (Hi : keepMask s !! i = Some false) by (apply Hfalse; lia).
    destruct (IH (scanStep s i seg) (S i)) as (H1 & H2 & H3).
    { rewrite scanStep_length. lia. }
    { intros j Hj Hjl. rewrite scanStep_below by lia.
      rewrite scanStep_length in Hjl. apply Hfalse; lia. }
    cbv zeta. split; [rewrite H1; apply scanStep_length|].
    split; [rewrite H2, (scanStep_count s i seg Hi); cbn [length]; lia|].
    intros j Hj. destruct (H3 j Hj) as [Hk | (seg' & Hle & Hs & Hv)].
    + destruct (Nat.eq_dec j i) as [->|Hne].
      * destruct (scanStep_kept_visible s i seg Hk) as [Hk' | Hv]; [left; exact Hk'|].
        right. exists seg. rewrite Nat.sub_diag. split; [lia|]. split; [reflexivity|exact Hv].
      * left. rewrite scanStep_below in Hk by exact Hne. exact Hk.
    + right. exists seg'. split; [lia|]. split; [|exact Hv].
      replace (j - i)%nat with (S (j - S i)) by lia. exact Hs.
Qed.

(** *** The containment loop only clears mask entries, one per count *)

Lemma coverStep_spec (mask : list bool) (contained : nat)
    (opaque : list CoverageCandidate) (c : CoverageCandidate) :
  let '(mask', contained', _) := coverStep (mask, contained, opaque) c in
  length mask' = length mask
  /\ (countKept mask' + contained' = countKept mask + contained)%nat
  /\ (forall j, mask' !! j = Some true -> mask !! j = Some true).
Proof.
  unfold coverStep.
  destruct (existsb _ opaque).
  - destruct (mask !! index c) as [[|]|] eqn:Hm.
    + split; [apply length_insert|]. split.
      * rewrite <- (countKept_insert_false mask (index c) Hm). lia.
      * intros j Hj. destruct (Nat.eq_dec (index c) j) as [<-|Hne].
        -- rewrite list_lookup_insert_eq in Hj; [discriminate|].
           apply lookup_lt_is_Some. eauto.
        -- rewrite list_lookup_insert_ne in Hj by exact Hne. exact Hj.
    + split; [reflexivity|]. split; [reflexivity|]. auto.
    + split; [reflexivity|]. split; [reflexivity|]. auto.
  - destruct (Qleb _ _); (split; [reflexivity|]; split; [reflexivity|]; auto).
Qed.

Lemma coverFold_spec (cands : list CoverageCandidate) :
  forall (mask : list bool) (contained : nat) (opaque : list CoverageCandidate),
    let '(mask', contained', _) := fold_left coverStep cands (mask, contained, opaque) in
    length mask' = length mask
    /\ (countKept mask' + contained' = countKept mask + contained)%nat
    /\ (forall j, mask' !! j = Some true -> mask !! j = Some true).
Proof.
  induction cands as [|c cands IH]; intros mask contained opaque; cbn [fold_left].
  - split; [reflexivity|]. split; [reflexivity|]. auto.
  - pose proof (coverStep_spec mask contained opaque c) as Hstep.
    destruct (coverStep (mask, contained, opaque) c) as [[mask1 contained1] opaque1].
    destruct Hstep as (L1 & C1 & K1).
    specialize (IH mask1 contained1 opaque1).
    destruct (fold_left coverStep cands (mask1, contained1, opaque1)) as [[mask2 contained2] ?].
    destruct IH as (L2 & C2 & K2).
    split; [congruence|]. split; [lia|]. auto.
Qed.

Lemma coverLoop_spec (groups : Groups) (mask : list bool) :
  let '(mask', contained') := coverLoop mask groups in
  length mask' = length mask
  /\ (countKept mask' + contained' = countKept mask)%nat
  /\ (forall j, mask' !! j = Some true -> mask !! j = Some true).
Proof.
  unfold coverLoop.
  assert (H : forall (st : list bool * nat),
             let '(mask', contained') :=
               fold_left (fun st g => coverGroup st (snd g)) groups st in
             length mask' = length (fst st)
             /\ (countKept mask' + contained' = countKept (fst st) + snd st)%nat
             /\ (forall j, mask' !! j = Some true -> fst st !! j = Some true)).
  { induction groups as [|g groups IH]; intros [m k]; cbn [fold_left fst snd].
    - split; [reflexivity|]. split; [reflexivity|]. auto.
    - unfold coverGroup at 2. cbn [fst snd].
      pose proof (coverFold_spec (sortBy compareCandidates (snd g)) m k []) as Hg.
      destruct (fold_left coverStep _ (m, k, [])) as [[m1 k1] o1].
      destruct Hg as (L1 & C1 & K1).
      specialize (IH (m1, k1)). cbn [fst snd] in IH.
      destruct (fold_left _ groups (m1, k1)) as [m2 k2].
      destruct IH as (L2 & C2 & K2).
      split; [congruence|]. split; [lia|]. auto. }
  specialize (H (mask, 0%nat)). cbn [fst snd] in H.
  destruct (fold_left _ groups (mask, 0%nat)) as [m' k'].
  destruct H as (L & C & K). split; [exact L|]. split; [lia|]. exact K.
Qed.

(** *** The result of [cullInvisibleSegments] *)

Lemma cull_spec (segs : list Stroke) :
  let r := cullInvisibleSegments segs in
  exists mask,
    length mask = length segs
    /\ cullStrokes r = selectKept mask segs
    /\ cullSegmentCount r = length (cullStrokes r)
    /\ (cullDiscardedTransparent r + cullDiscardedDegenerate r + cullDiscardedDuplicate r
        + cullDiscardedContained r + cullSegmentCount r = length segs)%nat
    /\ Forall Scenarios.visibleStroke (cullStrokes r).
Proof.
  cbv zeta. unfold cullInvisibleSegments.
  set (s0 := mkScan (replicate (length segs) false) [] [] 0 0 0).
  destruct (scanLoop_spec segs s0 0%nat) as (L1 & C1 & K1).
  { unfold s0. cbn [keepMask]. rewrite length_replicate. lia. }
  { intros j _ Hj. unfold s0 in *. cbn [keepMask] in *.
    rewrite length_replicate in Hj. apply lookup_replicate_2. exact Hj. }
  set (s := scanLoop s0 0 segs) in *.
  pose proof (coverLoop_spec (coverageGroups s) (keepMask s)) as Hc.
  destruct (coverLoop (keepMask s) (coverageGroups s)) as [mask contained].
  destruct Hc as (L2 & C2 & K2).
  assert (Hlen : length mask = length segs).
  { rewrite L2, L1. unfold s0. cbn [keepMask]. apply length_replicate. }
  assert (Hcount : (nTransparent s + nDegenerate s + nDuplicate s + contained
                    + countKept mask = length segs)%nat).
  { unfold s0 in C1. cbn [keepMask nTransparent nDegenerate nDuplicate] in C1.
    rewrite countKept_replicate_false in C1. lia. }
  assert (Hvis : Forall Scenarios.visibleStroke (selectKept mask segs)).
  { apply selectKept_Forall. intros j seg Hm Hs.
    destruct (K1 j (K2 j Hm)) as [Hk | (seg' & _ & Hs' & Hv)].
    - unfold s0 in Hk. cbn [keepMask] in Hk.
      apply lookup_replicate in Hk as [Hk _]. discriminate Hk.
    - rewrite Nat.sub_0_r in Hs'. congruence. }
  exists mask. split; [exact Hlen|].
  destruct (countKept mask) eqn:Hk; cbn.
  - rewrite (selectKept_none mask segs Hk) in *.
    split; [reflexivity|]. split; [reflexivity|]. split; [lia|]. constructor.
  - split; [reflexivity|]. split; [rewrite countKept_length_select; auto|].
    split; [lia | exact Hvis].
Qed.

End Cull.

(** ** The operator loop: pushed strokes against source segments *)

Section Emission.
Import Extractor.
Variable mat : Mat2D.
Variables halfWidth luma alpha : Q.
Variable allowSegmentMerge : bool.

Local Abbreviation held := Measures.held.
Local Abbreviation accounted := Measures.accounted.

Lemma accounted_refl (s : PathState) : accounted s s.
Proof. unfold Measures.accounted. lia. Qed.

Lemma accounted_trans (s1 s2 s3 : PathState) :
  accounted s1 s2 -> accounted s2 s3 -> accounted s1 s3.
Proof. unfold Measures.accounted. lia. Qed.

Lemma pushStroke_length (k : Sink) (h l a x0 y0 x1 y1 : Q) :
  length (strokes (pushStroke k h l a x0 y0 x1 y1)) = S (length (strokes k)).
Proof. unfold pushStroke. cbn [strokes]. rewrite length_app. cbn. lia. Qed.

Lemma flushPending_held (s : PathState) :
  held (flushPending halfWidth luma alpha s) = held s
  /\ emitted (flushPending halfWidth luma alpha s) = emitted s
  /\ pending (flushPending halfWidth luma alpha s) = None.
Proof.
  unfold flushPending, Measures.held. destruct (pending s) as [p|] eqn:Hp.
  - cbn [setPending setSink sink pending emitted]. rewrite pushStroke_length.
    split; [lia|]. split; reflexivity.
  - rewrite ?Hp. split; [reflexivity|]. split; reflexivity.
Qed.

Lemma flushPending_accounted (s : PathState) :
  accounted s (flushPending halfWidth luma alpha s).
Proof.
  unfold Measures.accounted. destruct (flushPending_held s) as (H1 & H2 & _). lia.
Qed.

Lemma tryMergePending_Some (pend : option Chord) (x0 y0 x1 y1 : Q) (c : Chord) :
  tryMergePending pend x0 y0 x1 y1 = Some c -> exists p, pend = Some p.
Proof. destruct pend as [p|]; [eauto | discriminate]. Qed.

Lemma emitLine_accounted (s : PathState) (x0 y0 x1 y1 : Q) (allowMerge : bool) :
  accounted s (emitLine halfWidth luma alpha allowSegmentMerge s x0 y0 x1 y1 allowMerge).
Proof.
  unfold emitLine. destruct (Qltb _ 1e-10); [apply accounted_refl|].
  match goal with |- context [match ?m with Some _ => _ | None => _ end] =>
    destruct m as [merged|] eqn:Hm end.
  - destruct (allowSegmentMerge && allowMerge); [|discriminate].
    apply tryMergePending_Some in Hm as [p Hp]. cbn [bumpEmitted pending] in Hp.
    unfold Measures.accounted, Measures.held. cbn [setPending bumpEmitted sink pending emitted].
    rewrite Hp. lia.
  - destruct allowSegmentMerge.
    + destruct (flushPending_held (bumpEmitted s)) as (H1 & H2 & H3).
      unfold Measures.accounted, Measures.held in *.
      cbn [setPending bumpEmitted sink pending emitted] in *. lia.
    + unfold Measures.accounted, Measures.held.
      cbn [setSink bumpEmitted sink pending emitted]. rewrite pushStroke_length. lia.
Qed.

Lemma emitChords_accounted (chords : list Chord) (s : PathState) :
  accounted s (emitChords halfWidth luma alpha allowSegmentMerge s chords).
Proof.
  unfold emitChords. revert s. induction chords as [|c chords IH]; intros s; cbn [fold_left].
  - apply accounted_refl.
  - eapply accounted_trans; [apply emitLine_accounted | apply IH].
Qed.

Lemma setCursor_accounted (s : PathState) (x y : Q) : accounted s (setCursor s x y).
Proof. unfold Measures.accounted, Measures.held. cbn. lia. Qed.

Lemma pathStep_accounted (s : PathState) (cmd : DrawCmd) :
  accounted s (fst (pathStep mat halfWidth luma alpha allowSegmentMerge s cmd)).
Proof.
  destruct cmd; cbn [pathStep fst].
  - pose proof (flushPending_accounted s) as H. unfold Measures.accounted, Measures.held in *. cbn in *. exact H.
  - eapply accounted_trans; [apply emitLine_accounted | apply setCursor_accounted].
  - eapply accounted_trans; [apply emitChords_accounted | apply setCursor_accounted].
  - eapply accounted_trans; [apply emitChords_accounted | apply setCursor_accounted].
  - match goal with |- accounted s (flushPending _ _ _ (setCursor ?s1 _ _)) =>
      assert (H1 : accounted s s1) end.
    { destruct (_ && _); [apply emitLine_accounted | apply accounted_refl]. }
    eapply accounted_trans; [exact H1|].
    eapply accounted_trans; [apply setCursor_accounted | apply flushPending_accounted].
  - apply flushPending_accounted.
Qed.

Lemma pathLoop_accounted (pathData : list DrawCmd) (s : PathState) :
  accounted s (pathLoop mat halfWidth luma alpha allowSegmentMerge s pathData).
Proof.
  revert s. induction pathData as [|cmd rest IH]; intros s; cbn [pathLoop].
  - apply accounted_refl.
  - pose proof (pathStep_accounted s cmd) as H.
    destruct (pathStep mat halfWidth luma alpha allowSegmentMerge s cmd) as [s1 continue].
    cbn [fst] in H. destruct continue; [|exact H].
    eapply accounted_trans; [exact H | apply IH].
Qed.

Lemma emitSegmentsFromPath_length (pathData : list DrawCmd) (k : Sink) :
  let '(n, k') := emitSegmentsFromPath mat halfWidth luma alpha allowSegmentMerge pathData k in
  (length (strokes k') <= length (strokes k) + n)%nat.
Proof.
  unfold emitSegmentsFromPath.
  set (s0 := mkPathState 0 0 0 0 0 false None k).
  pose proof (pathLoop_accounted pathData s0) as H1.
  set (s1 := pathLoop mat halfWidth luma alpha allowSegmentMerge s0 pathData) in *.
  destruct (flushPending_held s1) as (H2 & H3 & H4).
  unfold Measures.accounted, Measures.held in *. rewrite H4 in H2. rewrite H3.
  unfold s0 in H1 at 2 3. cbn [sink pending emitted strokes] in H1. lia.
Qed.

End Emission.

Lemma interpStep_accounted (merge : bool) (s : Extractor.InterpState) (op : Extractor.Operator) :
  (length (Extractor.strokes (Extractor.pageSink (Extractor.interpStep merge s op)))
   + Extractor.nSource s
   <= length (Extractor.strokes (Extractor.pageSink s))
      + Extractor.nSource (Extractor.interpStep merge s op))%nat.
Proof.
  destruct op as [| |[t|]|w|v|entries|paint [pathData|]|]; cbn [Extractor.interpStep];
    try (cbn; lia).
  - destruct (Extractor.stateStack s); cbn; lia.
  - destruct (negb (Extractor.isStrokePaintOp paint)); [lia|].
    match goal with |- context [Extractor.emitSegmentsFromPath ?m ?h ?l ?a ?g ?p ?k] =>
      pose proof (emitSegmentsFromPath_length m h l a g p k) as H;
      destruct (Extractor.emitSegmentsFromPath m h l a g p k) as [n k'] end.
    cbn [Extractor.pageSink Extractor.nSource]. lia.
  - destruct (negb (Extractor.isStrokePaintOp paint)); lia.
Qed.

Lemma runOperators_accounted (page : Extractor.Page) (options : Extractor.VectorExtractOptions) :
  (length (Extractor.strokes (Extractor.pageSink (Extractor.runOperators page options)))
   <= Extractor.nSource (Extractor.runOperators page options))%nat.
Proof.
  unfold Extractor.runOperators.
  assert (H : forall ops s,
             (length (Extractor.strokes (Extractor.pageSink
                (fold_left (Extractor.interpStep (Extractor.enableSegmentMerge options)) ops s)))
              + Extractor.nSource s
              <= length (Extractor.strokes (Extractor.pageSink s))
                 + Extractor.nSource
                     (fold_left (Extractor.interpStep (Extractor.enableSegmentMerge options))
                        ops s))%nat).
  { induction ops as [|op ops IH]; intros s; cbn [fold_left]; [lia|].
    pose proof (interpStep_accounted (Extractor.enableSegmentMerge options) s op).
    specialize (IH (Extractor.interpStep (Extractor.enableSegmentMerge options) s op)). lia. }
  specialize (H (Extractor.operatorList page)
                (Extractor.mkInterp [] (Extractor.createDefaultState (Extractor.pageMatrix page))
                   0 0 0 (Extractor.mkSink [] None))).
  cbn [Extractor.pageSink Extractor.strokes Extractor.nSource length] in H. lia.
Qed.

(** C1.  In every scene that [extractFirstPageVectors] returns (with
    culling enabled, and also with culling disabled, where the four tallies
    are zero) the discarded tallies and the surviving count add up to the
    merged count, and [segmentCount <= mergedSegmentCount <=
    sourceSegmentCount]. *)
Theorem cull_partition_and_chain
    (page : Extractor.Page) (options : Extractor.VectorExtractOptions) :
  let sc := Extractor.extractFirstPageVectors page options in
  (Extractor.discardedTransparentCount sc + Extractor.discardedDegenerateCount sc
   + Extractor.discardedDuplicateCount sc + Extractor.discardedContainedCount sc
   + Extractor.segmentCount sc = Extractor.mergedSegmentCount sc)%nat
  /\ (Extractor.segmentCount sc <= Extractor.mergedSegmentCount sc)%nat
  /\ (Extractor.mergedSegmentCount sc <= Extractor.sourceSegmentCount sc)%nat.
Proof.
  cbv zeta. unfold Extractor.extractFirstPageVectors. cbv zeta.
  pose proof (runOperators_accounted page options) as Hsrc.
  set (s := Extractor.runOperators page options) in *.
  set (merged := Extractor.strokes (Extractor.pageSink s)) in *.
  destruct (cull_spec merged) as (mask & Hlen & Hsel & Hcnt & Hsum & _).
  destruct (length merged) as [|n] eqn:Hn; [cbn; lia|].
  destruct (Extractor.enableInvisibleCull options); cbn [negb].
  - destruct (Extractor.cullSegmentCount (Extractor.cullInvisibleSegments merged)) eqn:Hc;
      cbn; lia.
  - cbn. lia.
Qed.

(** C5.  With culling enabled the strokes of the scene are a subsequence of
    the merged strokes (same relative order), each with [alpha > 1e-3] and
    squared length at least [1e-10]; with culling disabled the endpoint and
    style arrays are those of the merged strokes and the four discarded
    counters are zero. *)
Theorem cull_survivors_and_passthrough (page : Extractor.Page) (merge : bool) :
  let merged :=
    Extractor.strokes (Extractor.pageSink
      (Extractor.runOperators page (Extractor.mkOptions merge true))) in
  (let sc := Extractor.extractFirstPageVectors page (Extractor.mkOptions merge true) in
   exists kept,
     sublist kept merged
     /\ Extractor.endpoints sc = map Extractor.endpoint kept
     /\ Extractor.styles sc = map Extractor.style kept
     /\ Extractor.segmentCount sc = length kept
     /\ Forall Scenarios.visibleStroke kept)
  /\ (let sc := Extractor.extractFirstPageVectors page (Extractor.mkOptions merge false) in
      Extractor.endpoints sc = map Extractor.endpoint merged
      /\ Extractor.styles sc = map Extractor.style merged
      /\ Extractor.segmentCount sc = length merged
      /\ Extractor.discardedTransparentCount sc = 0%nat
      /\ Extractor.discardedDegenerateCount sc = 0%nat
      /\ Extractor.discardedDuplicateCount sc = 0%nat
      /\ Extractor.discardedContainedCount sc = 0%nat).
Proof.
  cbv zeta. unfold Extractor.extractFirstPageVectors. cbv zeta.
  change (Extractor.runOperators page (Extractor.mkOptions merge false))
    with (Extractor.runOperators page (Extractor.mkOptions merge true)).
  set (s := Extractor.runOperators page (Extractor.mkOptions merge true)).
  set (merged := Extractor.strokes (Extractor.pageSink s)).
  destruct (cull_spec merged) as (mask & Hlen & Hsel & Hcnt & Hsum & Hvis).
  cbn [Extractor.enableInvisibleCull negb].
  split.
  - exists (Extractor.cullStrokes (Extractor.cullInvisibleSegments merged)).
    split; [rewrite Hsel; apply selectKept_sublist|].
    destruct (length merged) as [|n] eqn:Hn.
    + apply nil_length_inv in Hn. rewrite Hn in *.
      assert (Hnil : Extractor.cullStrokes (Extractor.cullInvisibleSegments []) = []).
      { rewrite Hsel. destruct mask; reflexivity. }
      rewrite Hnil. cbn. repeat split; try reflexivity. constructor.
    + destruct (Extractor.cullSegmentCount (Extractor.cullInvisibleSegments merged)) eqn:Hc.
      * symmetry in Hcnt. apply nil_length_inv in Hcnt. rewrite Hcnt. cbn.
        repeat split; try reflexivity. constructor.
      * cbn. split; [reflexivity|]. split; [reflexivity|]. split; [exact Hcnt | exact Hvis].
  - destruct (length merged) as [|n] eqn:Hn.
    + apply nil_length_inv in Hn. rewrite Hn. cbn. repeat split; reflexivity.
    + cbn. repeat split; reflexivity.
Qed.

(** ** The spatial grid: counting, prefix sums and filling *)

Section GridArrays.
Import SpatialGrid Measures.

Lemma u32_small (z : Z) : (0 <= z < 2 ^ 32)%Z -> u32 z = z.
Proof. intros H. unfold u32. apply Z.mod_small. exact H. Qed.

Lemma u32_range (z : Z) : (0 <= u32 z < 2 ^ 32)%Z.
Proof. unfold u32. apply Z.mod_pos_bound. reflexivity. Qed.

Lemma get_insert_eq (a : list Z) (i : nat) (v : Z) :
  (i < length a)%nat -> get (<[i := v]> a) i = v.
Proof. intros H. unfold get. rewrite list_lookup_insert_eq by exact H. reflexivity. Qed.

Lemma get_insert_ne (a : list Z) (i j : nat) (v : Z) :
  i <> j -> get (<[i := v]> a) j = get a j.
Proof. intros H. unfold get. rewrite list_lookup_insert_ne by exact H. reflexivity. Qed.

Lemma get_replicate (n i : nat) : get (replicate n 0%Z) i = 0%Z.
Proof.
  unfold get. destruct (replicate n 0%Z !! i) as [v|] eqn:E; [|reflexivity].
  apply lookup_replicate in E as [-> _]. reflexivity.
Qed.

Lemma get_lookup (a : list Z) (i : nat) : (i < length a)%nat -> a !! i = Some (get a i).
Proof.
  intros H. unfold get. destruct (lookup_lt_is_Some_2 a i H) as [v ->]. reflexivity.
Qed.

Lemma below_0 (L : list nat) : below 0 L = 0%nat.
Proof. induction L as [|x L IH]; [reflexivity | exact IH]. Qed.

Lemma below_S (k : nat) (L : list nat) : below (S k) L = (below k L + occ k L)%nat.
Proof.
  induction L as [|x L IH]; [reflexivity|]. cbn [below occ]. rewrite IH.
  destruct (Nat.ltb_spec x (S k)), (Nat.ltb_spec x k), (Nat.eqb_spec x k); lia.
Qed.

Lemma below_le_length (k : nat) (L : list nat) : (below k L <= length L)%nat.
Proof.
  induction L as [|x L IH]; [reflexivity|]. cbn [below length].
  destruct (x <? k)%nat; lia.
Qed.

Lemma below_mono (k k' : nat) (L : list nat) : (k <= k')%nat -> (below k L <= below k' L)%nat.
Proof.
  intros H. induction L as [|x L IH]; [reflexivity|]. cbn [below].
  destruct (Nat.ltb_spec x k), (Nat.ltb_spec x k'); lia.
Qed.

Lemma below_all (N : nat) (L : list nat) :
  Forall (fun c => (c < N)%nat) L -> below N L = length L.
Proof.
  induction 1 as [|x L Hx _ IH]; [reflexivity|]. cbn [below length]. rewrite IH.
  destruct (Nat.ltb_spec x N); lia.
Qed.

Lemma occ_app (c : nat) (L1 L2 : list nat) : occ c (L1 ++ L2) = (occ c L1 + occ c L2)%nat.
Proof. induction L1 as [|x L1 IH]; [reflexivity|]. cbn [app occ]. rewrite IH. lia. Qed.

Lemma occ_le_span (c : nat) (L : list nat) : (below c L + occ c L <= length L)%nat.
Proof. rewrite <- below_S. apply below_le_length. Qed.

Lemma maxOf_insert_ge (a : list Z) (c : nat) (v : Z) :
  (c < length a)%nat -> (get a c <= v)%Z ->
  maxOf (<[c := v]> a) = Z.max (maxOf a) v.
Proof.
  revert c. induction a as [|x a IH]; intros [|c] Hc Hv; cbn [length] in Hc; try lia.
  - unfold get in Hv. cbn in Hv. cbn. lia.
  - simpl. unfold maxOf in *. cbn [fold_right].
    rewrite IH; [lia | lia | exact Hv].
Qed.

Lemma maxOf_replicate_0 (n : nat) : maxOf (replicate n 0%Z) = 0%Z.
Proof. induction n as [|n IH]; [reflexivity|]. cbn. unfold maxOf in IH. rewrite IH. reflexivity. Qed.

Lemma fold_flat_map {A B S : Type} (f : S -> B -> S) (g : A -> list B) (l : list A) (init : S) :
  fold_left (fun st i => fold_left f (g i) st) l init = fold_left f (flat_map g l) init.
Proof.
  revert init. induction l as [|x l IH]; intros init; [reflexivity|].
  cbn [fold_left flat_map]. rewrite fold_left_app. apply IH.
Qed.

(** *** First pass *)

Lemma countFold_spec (L : list nat) :
  forall (counts : list Z) (mx : Z),
    Forall (fun c => (c < length counts)%nat) L ->
    (forall c, (c < length counts)%nat ->
       (0 <= get counts c)%Z /\ (get counts c + Z.of_nat (occ c L) < 2 ^ 32)%Z) ->
    mx = maxOf counts ->
    let '(counts', mx') := fold_left countCell L (counts, mx) in
    length counts' = length counts
    /\ (forall c, (c < length counts)%nat ->
          get counts' c = (get counts c + Z.of_nat (occ c L))%Z)
    /\ mx' = maxOf counts'.
Proof.
  induction L as [|x L IH]; intros counts mx Hvalid Hbound Hmx; cbn [fold_left].
  - split; [reflexivity|]. split; [|exact Hmx]. intros c _. cbn. lia.
  - apply Forall_cons in Hvalid as [Hx HL].
    cbn [countCell].
    set (next := (get counts x + 1)%Z).
    assert (Hnext : u32 next = next).
    { apply u32_small. destruct (Hbound x Hx) as [H0 H1].
      cbn [occ] in H1. rewrite Nat.eqb_refl in H1. unfold next. lia. }
    rewrite Hnext.
    specialize (IH (<[x := next]> counts)
                   (if (mx <? next)%Z then next else mx)).
    rewrite length_insert in IH.
    destruct (fold_left countCell L _) as [counts' mx'].
    destruct IH as (L1 & C1 & M1).
    + exact HL.
    + intros c Hc. destruct (Hbound c Hc) as [H0 H1]. cbn [occ] in H1.
      destruct (Nat.eq_dec x c) as [->|Hne].
      * rewrite get_insert_eq by exact Hc. rewrite Nat.eqb_refl in H1. unfold next. lia.
      * rewrite get_insert_ne by exact Hne.
        apply Nat.eqb_neq in Hne. rewrite Hne in H1. lia.
    + rewrite maxOf_insert_ge; [|exact Hx | unfold next; lia].
      rewrite Hmx. destruct (Z.ltb_spec (maxOf counts) next); lia.
    + split; [exact L1|]. split; [|exact M1].
      intros c Hc. rewrite (C1 c Hc). cbn [occ].
      destruct (Nat.eq_dec x c) as [->|Hne].
      * rewrite get_insert_eq by exact Hc. rewrite Nat.eqb_refl. unfold next. lia.
      * rewrite get_insert_ne by exact Hne.
        apply Nat.eqb_neq in Hne. rewrite Hne. lia.
Qed.

Lemma occ_le_length (c : nat) (L : list nat) : (occ c L <= length L)%nat.
Proof. pose proof (occ_le_span c L). lia. Qed.

Lemma countPass_spec (cellsOf : nat -> list nat) (n N : nat) :
  let V := flat_map cellsOf (seq 0 n) in
  Forall (fun c => (c < N)%nat) V ->
  (Z.of_nat (length V) < 2 ^ 32)%Z ->
  let '(counts, mx) := countPass cellsOf n N in
  length counts = N
  /\ (forall c, (c < N)%nat -> get counts c = Z.of_nat (occ c V))
  /\ mx = maxOf counts.
Proof.
  intros V Hvalid Hcap. unfold countPass. rewrite fold_flat_map. fold V.
  pose proof (countFold_spec V (replicate N 0%Z) 0%Z) as H.
  rewrite length_replicate in H.
  destruct (fold_left countCell V _) as [counts mx].
  destruct H as (L1 & C1 & M1).
  - exact Hvalid.
  - intros c _. rewrite get_replicate. pose proof (occ_le_length c V). lia.
  - symmetry. apply maxOf_replicate_0.
  - split; [exact L1|]. split; [|exact M1].
    intros c Hc. rewrite (C1 c Hc), get_replicate. lia.
Qed.

(** *** Prefix sums *)

Lemma offsetFold_spec (counts : list Z) (V : list nat) (N : nat) :
  (forall c, (c < N)%nat -> get counts c = Z.of_nat (occ c V)) ->
  (Z.of_nat (length V) < 2 ^ 32)%Z ->
  forall m, (m <= N)%nat ->
    let offs := fold_left (offsetStep counts) (seq 0 m) (replicate (S N) 0%Z) in
    length offs = S N
    /\ (forall k, (k <= m)%nat -> get offs k = Z.of_nat (below k V))
    /\ (forall k, (m < k)%nat -> get offs k = 0%Z).
Proof.
  intros Hcounts Hcap. induction m as [|m IH]; intros Hm; cbv zeta.
  - cbn [seq fold_left]. rewrite length_replicate. split; [reflexivity|].
    split; intros k Hk; rewrite get_replicate; [|reflexivity].
    replace k with 0%nat by lia. rewrite below_0. reflexivity.
  - rewrite seq_S, fold_left_app. cbn [fold_left Nat.add].
    destruct IH as (L1 & P1 & Z1); [lia|].
    set (offs := fold_left (offsetStep counts) (seq 0 m) (replicate (S N) 0%Z)) in *.
    unfold offsetStep. rewrite length_insert.
    assert (Hval : u32 (get offs m + get counts m) = Z.of_nat (below (S m) V)).
    { rewrite (P1 m) by lia. rewrite Hcounts by lia. rewrite below_S.
      rewrite u32_small; [lia|]. pose proof (occ_le_span m V). lia. }
    rewrite Hval. split; [exact L1|]. split.
    + intros k Hk. destruct (Nat.eq_dec (S m) k) as [<-|Hne].
      * apply get_insert_eq. lia.
      * rewrite get_insert_ne by exact Hne. apply P1. lia.
    + intros k Hk. rewrite get_insert_ne by lia. apply Z1. lia.
Qed.

Lemma offsetPass_spec (counts : list Z) (V : list nat) (N : nat) :
  (forall c, (c < N)%nat -> get counts c = Z.of_nat (occ c V)) ->
  (Z.of_nat (length V) < 2 ^ 32)%Z ->
  length (offsetPass counts N) = S N
  /\ (forall k, (k <= N)%nat -> get (offsetPass counts N) k = Z.of_nat (below k V)).
Proof.
  intros Hcounts Hcap.
  destruct (offsetFold_spec counts V N Hcounts Hcap N (Nat.le_refl N)) as (L1 & P1 & _).
  split; [exact L1 | exact P1].
Qed.

End GridArrays.

(** *** Second pass *)

Section GridFill.
Import SpatialGrid Measures.

Lemma fold_flat_pairs {S : Type} (f : nat -> S -> nat -> S) (g : nat -> list nat)
    (l : list nat) (init : S) :
  fold_left (fun st i => fold_left (f i) (g i) st) l init
  = fold_left (fun st p => f (fst p) st (snd p))
      (flat_map (fun i => map (pair i) (g i)) l) init.
Proof.
  revert init. induction l as [|x l IH]; intros init; [reflexivity|].
  cbn [fold_left flat_map]. rewrite fold_left_app, <- IH. f_equal.
  generalize (g x). intros cells. revert init.
  induction cells as [|c cells IHc]; intros init; [reflexivity|]. cbn. apply IHc.
Qed.

Lemma map_snd_flat_pairs (g : nat -> list nat) (l : list nat) :
  map snd (flat_map (fun i => map (pair i) (g i)) l) = flat_map g l.
Proof.
  induction l as [|x l IH]; [reflexivity|]. cbn [flat_map].
  rewrite map_app, IH, map_map. cbn [snd]. rewrite map_id. reflexivity.
Qed.

Lemma elem_of_flat_pairs (g : nat -> list nat) (l : list nat) (i c : nat) :
  (i, c) ∈ flat_map (fun i => map (pair i) (g i)) l <-> i ∈ l /\ c ∈ g i.
Proof.
  rewrite !list_elem_of_In, in_flat_map. split.
  - intros (x & Hx & Hp). apply in_map_iff in Hp as (c' & [= <- <-] & Hc). auto.
  - intros [Hi Hc]. exists i. split; [exact Hi|].
    apply in_map_iff. exists c. auto.
Qed.

Variable V : list nat.
Variable N : nat.
Hypothesis Hvalid : Forall (fun c => (c < N)%nat) V.
Hypothesis Hcap : (Z.of_nat (length V) < 2 ^ 32)%Z.

Lemma fillFold_spec (R : list (nat * nat)) :
  forall (P : list (nat * nat)) (indices cursors : list Z),
    map snd (P ++ R) = V ->
    Forall (fun p => (Z.of_nat (fst p) < 2 ^ 32)%Z) R ->
    length indices = length V ->
    length cursors = N ->
    (forall c, (c < N)%nat ->
       get cursors c = Z.of_nat (below c V + occ c (map snd P))) ->
    (forall i c, (i, c) ∈ P ->
       exists j, (j < occ c (map snd P))%nat
                 /\ indices !! (below c V + j)%nat = Some (Z.of_nat i)) ->
    let '(indices', _) :=
      fold_left (fun st p => fillCell (fst p) st (snd p)) R (indices, cursors) in
    length indices' = length V
    /\ (forall i c, (i, c) ∈ P ++ R ->
          exists j, (j < occ c V)%nat
                    /\ indices' !! (below c V + j)%nat = Some (Z.of_nat i)).
Proof.
  induction R as [|[i c] R IH]; intros P indices cursors HV Hids Hlen HlenC Hcur Hent;
    cbn [fold_left].
  - rewrite app_nil_r in *. rewrite HV in Hent. split; [exact Hlen | exact Hent].
  - apply Forall_cons in Hids as [Hi Hids]. cbn [fst snd] in *.
    assert (HVsplit : V = map snd P ++ c :: map snd R).
    { rewrite <- HV, map_app. reflexivity. }
    assert (Hc : (c < N)%nat).
    { rewrite Forall_forall in Hvalid. apply Hvalid.
      rewrite HVsplit. apply elem_of_app. right. apply list_elem_of_here. }
    assert (Hocc : forall c', (occ c' (map snd P) <= occ c' V)%nat).
    { intros c'. rewrite HVsplit, occ_app. lia. }
    assert (Hk : (occ c (map snd P) < occ c V)%nat).
    { rewrite HVsplit, occ_app. cbn [occ]. rewrite Nat.eqb_refl. lia. }
    pose proof (Hcur c Hc) as Hcc.
    remember (occ c (map snd P)) as k eqn:Ek.
    remember (below c V + k)%nat as w eqn:Ew.
    assert (Hw : (w < length V)%nat).
    { pose proof (occ_le_span c V). lia. }
    unfold fillCell at 2. rewrite Hcc.
    rewrite Nat2Z.id.
    rewrite (u32_small (Z.of_nat i)) by lia.
    rewrite (u32_small (Z.of_nat w + 1)) by lia.
    specialize (IH (P ++ [(i, c)]) (<[w := Z.of_nat i]> indices)
                   (<[c := (Z.of_nat w + 1)%Z]> cursors)).
    rewrite <- app_assoc in IH. cbn [app] in IH.
    rewrite !length_insert in IH.
    destruct (fold_left _ R _) as [indices' cursors'].
    apply IH; clear IH; try assumption.
    + intros c' Hc'. rewrite map_app, occ_app. cbn [map snd occ].
      destruct (Nat.eq_dec c c') as [<-|Hne].
      * rewrite get_insert_eq by lia. rewrite Nat.eqb_refl. lia.
      * rewrite get_insert_ne by exact Hne. rewrite (Hcur c' Hc').
        apply Nat.eqb_neq in Hne. rewrite Hne. lia.
    + intros i' c' Hin. rewrite map_app, occ_app. cbn [map snd occ].
      apply elem_of_app in Hin as [Hin | Hin].
      * destruct (Hent i' c' Hin) as (j & Hj & Hlook).
        exists j. split; [lia|].
        rewrite list_lookup_insert_ne; [exact Hlook|].
        destruct (Nat.lt_total c' c) as [Hlt | [-> | Hgt]].
        -- pose proof (below_mono (S c') c V ltac:(lia)) as Hm.
           rewrite below_S in Hm. pose proof (Hocc c'). lia.
        -- lia.
        -- pose proof (below_mono (S c) c' V ltac:(lia)) as Hm.
           rewrite below_S in Hm. lia.
      * apply list_elem_of_singleton in Hin. injection Hin as -> ->.
        exists k. rewrite Nat.eqb_refl. split; [lia|].
        rewrite <- Ew. apply list_lookup_insert_eq. lia.
Qed.

Lemma fillFold_length (R : list (nat * nat)) :
  forall st : list Z * list Z,
    length (fst (fold_left (fun st p => fillCell (fst p) st (snd p)) R st)) = length (fst st).
Proof.
  induction R as [|p R IH]; intros st; [reflexivity|]. cbn [fold_left].
  rewrite IH. destruct st as [a b]. unfold fillCell. cbn [fst]. apply length_insert.
Qed.

Lemma fillFold_values (Pv : Z -> Prop) (R : list (nat * nat)) :
  forall (indices cursors : list Z),
    Forall Pv indices ->
    Forall (fun p => Pv (u32 (Z.of_nat (fst p)))) R ->
    Forall Pv (fst (fold_left (fun st p => fillCell (fst p) st (snd p)) R (indices, cursors))).
Proof.
  induction R as [|[i c] R IH]; intros indices cursors Hall HR; cbn [fold_left].
  - exact Hall.
  - apply Forall_cons in HR as [Hi HR]. unfold fillCell at 2. cbn [fst snd] in *.
    apply IH; [|exact HR]. apply Forall_insert; assumption.
Qed.

End GridFill.

(** *** The grid of a scene *)

Section GridOfScene.
Import SpatialGrid Measures.

Lemma clampToCell_range (v m : Z) : (0 < m)%Z -> (0 <= clampToCell v m < m)%Z.
Proof.
  intros Hm. unfold clampToCell.
  destruct (Z.ltb_spec v 0); [lia|]. destruct (Z.leb_spec m v); lia.
Qed.

Lemma clampToCell_mono (v v' m : Z) :
  (0 < m)%Z -> (v <= v')%Z -> (clampToCell v m <= clampToCell v' m)%Z.
Proof.
  intros Hm Hv. unfold clampToCell.
  destruct (Z.ltb_spec v 0), (Z.ltb_spec v' 0), (Z.leb_spec m v), (Z.leb_spec m v'); lia.
Qed.

Lemma clamp_range (v lo hi : Z) : (lo <= hi)%Z -> (lo <= clamp v lo hi <= hi)%Z.
Proof.
  intros H. unfold clamp. destruct (Z.ltb_spec v lo); [lia|].
  destruct (Z.ltb_spec hi v); lia.
Qed.

Lemma chooseGridSize_range (n : nat) (w h : Q) :
  (64 <= fst (chooseGridSize n w h) <= 1024)%Z
  /\ (64 <= snd (chooseGridSize n w h) <= 1024)%Z.
Proof.
  unfold chooseGridSize. cbn [fst snd].
  split; apply clamp_range; unfold MIN_GRID_SIDE, MAX_GRID_SIDE; lia.
Qed.

Lemma max2_floor_pos (x : Q) : (0 < max2 x 1e-5)%Q.
Proof.
  destruct (max2_spec x 1e-5) as [_ H].
  eapply Qlt_le_trans; [|exact H]. reflexivity.
Qed.

Lemma gridGeometry_range (scene : Extractor.VectorScene) :
  let '(gw, gh, cw, ch) := gridGeometry scene in
  (64 <= gw <= 1024)%Z /\ (64 <= gh <= 1024)%Z /\ (0 < cw)%Q /\ (0 < ch)%Q.
Proof.
  unfold gridGeometry.
  match goal with |- context [chooseGridSize ?n ?w ?h] =>
    pose proof (chooseGridSize_range n w h) as Hr;
    destruct (chooseGridSize n w h) as [gw gh] end.
  cbn [fst snd] in Hr. destruct Hr as [Hw Hh].
  split; [exact Hw|]. split; [exact Hh|].
  split; apply Qlt_shift_div_l; try (rewrite Qmult_0_l; apply max2_floor_pos);
    change 0%Q with (inject_Z 0); rewrite <- Zlt_Qlt; lia.
Qed.

Lemma elem_of_rangeCells (gw c0 c1 r0 r1 : Z) (x : nat) :
  x ∈ rangeCells gw (c0, c1, r0, r1)
  <-> exists row col, (r0 <= row <= r1)%Z /\ (c0 <= col <= c1)%Z
                      /\ x = Z.to_nat (row * gw + col).
Proof.
  unfold rangeCells. rewrite list_elem_of_bind. split.
  - intros (row & Hx & Hrow). apply list_elem_of_bind in Hx as (col & Hx & Hcol).
    apply list_elem_of_singleton in Hx.
    apply elem_of_seqZ in Hrow. apply elem_of_seqZ in Hcol.
    exists row, col. split; [lia|]. split; [lia | exact Hx].
  - intros (row & col & Hr & Hc & ->). exists row. split.
    + apply list_elem_of_bind. exists col. split; [apply list_elem_of_singleton; reflexivity|].
      apply elem_of_seqZ. lia.
    + apply elem_of_seqZ. lia.
Qed.

Lemma cellRange_bounds (scene : Extractor.VectorScene) (gw gh : Z) (cw ch : Q) (i : nat)
    (c0 c1 r0 r1 : Z) :
  (0 < gw)%Z -> (0 < gh)%Z ->
  cellRange scene gw gh cw ch i = Some (c0, c1, r0, r1) ->
  (0 <= c0 < gw)%Z /\ (0 <= c1 < gw)%Z /\ (0 <= r0 < gh)%Z /\ (0 <= r1 < gh)%Z.
Proof.
  intros Hw Hh. unfold cellRange.
  destruct (Extractor.endpoints scene !! i) as [e|]; [|discriminate].
  destruct (Extractor.styles scene !! i) as [s|]; [|discriminate].
  intros [= <- <- <- <-]. repeat split; apply clampToCell_range; assumption.
Qed.

Lemma strokeCells_valid (scene : Extractor.VectorScene) (gw gh : Z) (cw ch : Q) (i : nat) :
  (0 < gw)%Z -> (0 < gh)%Z ->
  Forall (fun c => (c < Z.to_nat (gw * gh))%nat) (strokeCells scene gw gh cw ch i).
Proof.
  intros Hw Hh. unfold strokeCells.
  destruct (cellRange scene gw gh cw ch i) as [[[[c0 c1] r0] r1]|] eqn:Hr; [|constructor].
  destruct (cellRange_bounds _ _ _ _ _ _ _ _ _ _ Hw Hh Hr) as (H0 & H1 & H2 & H3).
  apply Forall_forall. intros x Hx.
  apply elem_of_rangeCells in Hx as (row & col & Hrow & Hcol & ->).
  apply Z2Nat.inj_lt; nia.
Qed.

Lemma flat_map_Forall {A B : Type} (P : B -> Prop) (f : A -> list B) (l : list A) :
  (forall x, Forall P (f x)) -> Forall P (flat_map f l).
Proof.
  intros H. induction l as [|x l IH]; [constructor|].
  cbn [flat_map]. apply Forall_app. split; [apply H | exact IH].
Qed.

Lemma length_bind_const {A B : Type} (f : A -> list B) (l : list A) (k : nat) :
  (forall x, length (f x) = k) -> length (l ≫= f) = (length l * k)%nat.
Proof.
  intros H. induction l as [|x l IH]; [reflexivity|].
  change ((x :: l) ≫= f) with (f x ++ (l ≫= f)).
  rewrite length_app, IH, H. cbn [length]. lia.
Qed.

Lemma strokeCells_length (scene : Extractor.VectorScene) (gw gh : Z) (cw ch : Q) (i : nat) :
  (0 < gw)%Z -> (0 < gh)%Z ->
  (length (strokeCells scene gw gh cw ch i) <= Z.to_nat (gw * gh))%nat.
Proof.
  intros Hw Hh. unfold strokeCells.
  destruct (cellRange scene gw gh cw ch i) as [[[[c0 c1] r0] r1]|] eqn:Hr; [|cbn; lia].
  destruct (cellRange_bounds _ _ _ _ _ _ _ _ _ _ Hw Hh Hr) as (H0 & H1 & H2 & H3).
  unfold rangeCells.
  rewrite (length_bind_const _ _ (Z.to_nat (c1 - c0 + 1))).
  - rewrite length_seqZ.
    assert (Ha : (Z.to_nat (r1 - r0 + 1) <= Z.to_nat gh)%nat) by lia.
    assert (Hb : (Z.to_nat (c1 - c0 + 1) <= Z.to_nat gw)%nat) by lia.
    rewrite (Z.mul_comm gw gh), Z2Nat.inj_mul by lia. nia.
  - intros row. rewrite (length_bind_const _ _ 1%nat) by reflexivity.
    rewrite length_seqZ. lia.
Qed.

Lemma flat_map_length_le {A B : Type} (f : A -> list B) (l : list A) (k : nat) :
  (forall x, (length (f x) <= k)%nat) -> (length (flat_map f l) <= length l * k)%nat.
Proof.
  intros H. induction l as [|x l IH]; [reflexivity|].
  cbn [flat_map length]. rewrite length_app. specialize (H x). lia.
Qed.

(** The memberships never exceed [segmentCount] times the largest grid. *)
Lemma memberships_bound (scene : Extractor.VectorScene) :
  (Z.of_nat (length (memberships scene))
   <= Z.of_nat (Extractor.segmentCount scene) * (1024 * 1024))%Z.
Proof.
  unfold memberships.
  pose proof (gridGeometry_range scene) as Hr.
  destruct (gridGeometry scene) as [[[gw gh] cw] ch].
  destruct Hr as (Hw & Hh & _).
  pose proof (flat_map_length_le (strokeCells scene gw gh cw ch)
                (seq 0 (Extractor.segmentCount scene)) (Z.to_nat (gw * gh))) as H.
  rewrite length_seq in H.
  assert (Hk : (Z.to_nat (gw * gh) <= Z.to_nat (1024 * 1024))%nat).
  { apply Z2Nat.inj_le; nia. }
  specialize (H (fun i => strokeCells_length scene gw gh cw ch i ltac:(lia) ltac:(lia))).
  nia.
Qed.

Lemma memberships_unfold (scene : Extractor.VectorScene) :
  memberships scene = flat_map (gridCells scene) (seq 0 (Extractor.segmentCount scene)).
Proof.
  unfold memberships, gridCells.
  destruct (gridGeometry scene) as [[[gw gh] cw] ch]. reflexivity.
Qed.

Lemma memberships_valid (scene : Extractor.VectorScene) :
  Forall (fun c => (c < cellCountOf scene)%nat) (memberships scene).
Proof.
  unfold memberships, cellCountOf.
  pose proof (gridGeometry_range scene) as Hr.
  destruct (gridGeometry scene) as [[[gw gh] cw] ch].
  destruct Hr as (Hw & Hh & _).
  apply flat_map_Forall. intros i. apply strokeCells_valid; lia.
Qed.

(** What [buildSpatialGrid] computes, in terms of the memberships [V] of the
    scene: [counts[c]] is the number of visits of cell [c], [offsets[k]] the
    number of visits of cells below [k], and the slice of [indices] that
    starts at [offsets[c]] holds every stroke that visits [c]. *)
Lemma buildSpatialGrid_spec (scene : Extractor.VectorScene) :
  let g := buildSpatialGrid scene in
  let V := memberships scene in
  let N := cellCountOf scene in
  let n := Extractor.segmentCount scene in
  (Z.of_nat (length V) < 2 ^ 32)%Z ->
  (gridWidth g, gridHeight g, cellWidth g, cellHeight g) = gridGeometry scene
  /\ gMinX g = Extractor.minX (Extractor.bounds scene)
  /\ gMinY g = Extractor.minY (Extractor.bounds scene)
  /\ length (counts g) = N
  /\ (forall c, (c < N)%nat -> get (counts g) c = Z.of_nat (occ c V))
  /\ maxCellPopulation g = maxOf (counts g)
  /\ length (offsets g) = S N
  /\ (forall k, (k <= N)%nat -> get (offsets g) k = Z.of_nat (below k V))
  /\ length (indices g) = length V
  /\ Forall (fun v => (0 <= v < Z.of_nat n)%Z) (indices g)
  /\ ((Z.of_nat n < 2 ^ 32)%Z ->
      forall i c, (i < n)%nat -> c ∈ gridCells scene i ->
        exists j, (j < occ c V)%nat
                  /\ indices g !! (below c V + j)%nat = Some (Z.of_nat i)).
Proof.
  intros g V N n Hcap.
  pose proof (memberships_valid scene) as Hvalid. fold V N in Hvalid.
  unfold g, buildSpatialGrid, gridCells. unfold N, cellCountOf in *.
  unfold V, memberships in *.
  destruct (gridGeometry scene) as [[[gw gh] cw] ch] eqn:Hgeo.
  set (cellsOf := strokeCells scene gw gh cw ch) in *.
  fold n in Hvalid, Hcap |- *. set (N' := Z.to_nat (gw * gh)) in *.
  set (V' := flat_map cellsOf (seq 0 n)) in *.
  pose proof (countPass_spec cellsOf n N' Hvalid Hcap) as Hcount.
  destruct (countPass cellsOf n N') as [cnts mx].
  destruct Hcount as (CL & CV & CM).
  destruct (offsetPass_spec cnts V' N' CV Hcap) as (OL & OV).
  pose proof (OV N' (Nat.le_refl N')) as Htotal.
  rewrite (below_all N' V' Hvalid) in Htotal.
  unfold fillPass. rewrite fold_flat_pairs. rewrite Htotal, Nat2Z.id.
  set (pairs := flat_map (fun i => map (pair i) (cellsOf i)) (seq 0 n)).
  assert (Hsnd : map snd pairs = V').
  { unfold pairs. apply map_snd_flat_pairs. }
  assert (Hfst : forall p, p ∈ pairs -> (fst p < n)%nat).
  { intros [i c] Hp. apply elem_of_flat_pairs in Hp as [Hi _].
    apply elem_of_seq in Hi. cbn. lia. }
  pose proof (fillFold_values (fun v => (0 <= v < Z.of_nat n)%Z) pairs
                (replicate (length V') 0%Z) (take N' (offsetPass cnts N'))) as Hvals.
  pose proof (fillFold_length pairs
                (replicate (length V') 0%Z, take N' (offsetPass cnts N'))) as Hlen.
  pose proof (fillFold_spec V' N' Hvalid Hcap pairs [] (replicate (length V') 0%Z)
                (take N' (offsetPass cnts N'))) as Hfill.
  destruct (fold_left _ pairs _) as [inds curs]. cbn [fst] in Hvals, Hlen.
  cbn [gridWidth gridHeight cellWidth cellHeight gMinX gMinY counts offsets indices
         maxCellPopulation].
  split; [reflexivity|]. split; [reflexivity|]. split; [reflexivity|].
  split; [exact CL|]. split; [exact CV|]. split; [exact CM|].
  split; [exact OL|]. split; [exact OV|].
  split; [rewrite Hlen; apply length_replicate|].
  split.
  - destruct n as [|n0] eqn:En.
    + assert (HVnil : length V' = 0%nat) by reflexivity.
      rewrite length_replicate, HVnil in Hlen.
      apply nil_length_inv in Hlen. rewrite Hlen. constructor.
    + apply Hvals.
      * apply Forall_forall. intros v Hv. apply elem_of_replicate in Hv as [-> _]. lia.
      * apply Forall_forall. intros p Hp. specialize (Hfst p Hp).
        pose proof (u32_range (Z.of_nat (fst p))) as Hu.
        assert ((u32 (Z.of_nat (fst p)) <= Z.of_nat (fst p))%Z).
        { unfold u32. apply Z.mod_le; lia. }
        lia.
  - intros Hn i c Hi Hc.
    destruct Hfill as [_ Hfill].
    + exact Hsnd.
    + apply Forall_forall. intros p Hp. specialize (Hfst p Hp). lia.
    + apply length_replicate.
    + rewrite length_take_le; [reflexivity | lia].
    + intros c' Hc'. unfold get. rewrite lookup_take_lt by exact Hc'.
      fold (get (offsetPass cnts N') c'). rewrite OV by lia. cbn. f_equal. lia.
    + intros i' c' Hin. apply elem_of_nil in Hin. destruct Hin.
    + apply Hfill. cbn [app]. apply elem_of_flat_pairs. split; [|exact Hc].
      apply elem_of_seq. lia.
Qed.

End GridOfScene.



(** ** The per-frame scan: marks and the output buffer *)

Section ScanMarks.
Import Renderer Visibility.
Variable b : SegmentBounds.
Variable view : Q * Q * Q * Q.
Variable token : Z.
Variable n : nat.
Hypothesis Htoken : (0 <= token < 2 ^ 32)%Z.

Lemma ids_pigeonhole (l : list Z) :
  NoDup l -> (forall v, v ∈ l -> (0 <= v < Z.of_nat n)%Z) -> (length l <= n)%nat.
Proof.
  intros Hnd Hin.
  assert (Hsub : l ⊆+ seqZ 0 (Z.of_nat n)).
  { apply NoDup_submseteq; [exact Hnd|]. intros v Hv. apply elem_of_seqZ.
    specialize (Hin v Hv). lia. }
  apply submseteq_length in Hsub. rewrite length_seqZ in Hsub. lia.
Qed.

Lemma visit_spec (s : Scan) (v : Z) :
  scanInv b view token n s ->
  (0 <= v < Z.of_nat n)%Z ->
  scanInv b view token n (visit b view token s v)
  /\ marks (visit b view token s v) !! Z.to_nat v = Some token
  /\ (forall k, marks s !! k = Some token -> marks (visit b view token s v) !! k = Some token).
Proof.
  intros Hinv Hv.
  pose proof Hinv as (Hcnt & Hbuf & Hmk & Hle & Hnd & Hout & Hseen).
  set (k := Z.to_nat v).
  assert (Hk : (k < length (marks s))%nat) by (unfold k; lia).
  unfold visit. fold k.
  destruct (lookup_lt_is_Some_2 (marks s) k Hk) as [m Hm]. rewrite Hm.
  destruct (Z.eqb_spec m token) as [->|Hne].
  - split; [exact Hinv|]. split; [exact Hm | auto].
  - rewrite (u32_small token Htoken).
    assert (Hfresh : v ∉ take (outCount s) (outIds s)).
    { intros Hin. destruct (Hout v Hin) as [_ Hmark]. fold k in Hmark. congruence. }
    assert (Hkeep : forall k', marks s !! k' = Some token ->
                      <[k := token]> (marks s) !! k' = Some token).
    { intros k' Hk'. destruct (Nat.eq_dec k k') as [<-|Hd]; [congruence|].
      rewrite list_lookup_insert_ne by exact Hd. exact Hk'. }
    assert (Hle' : Forall (fun m => (m <= token)%Z) (<[k := token]> (marks s))).
    { apply Forall_insert; [exact Hle | lia]. }
    destruct (outsideView b view k) eqn:Hside.
    + split; [|split].
      * unfold scanInv. cbn [marks outIds outCount]. rewrite length_insert.
        split; [exact Hcnt|]. split; [exact Hbuf|]. split; [exact Hmk|].
        split; [exact Hle'|]. split; [exact Hnd|]. split.
        -- intros v' Hv'. destruct (Hout v' Hv') as [Hr Hmark]. split; [exact Hr|].
           apply Hkeep. exact Hmark.
        -- intros k' Hk' Hs'. destruct (Nat.eq_dec k k') as [<-|Hd]; [congruence|].
           rewrite list_lookup_insert_ne in Hk' by exact Hd. apply Hseen; assumption.
      * cbn [marks]. apply list_lookup_insert_eq. exact Hk.
      * cbn [marks]. exact Hkeep.
    + assert (Hlen : length (take (outCount s) (outIds s)) = outCount s).
      { apply length_take_le. exact Hcnt. }
      assert (Hroom : (outCount s < n)%nat).
      { assert (Hnd' : NoDup (take (outCount s) (outIds s) ++ [v])).
        { apply NoDup_app. split; [exact Hnd|]. split; [|apply NoDup_singleton].
          intros x Hx Hx'. apply list_elem_of_singleton in Hx'. subst x. contradiction. }
        apply ids_pigeonhole in Hnd'.
        - rewrite length_app, Hlen in Hnd'. cbn in Hnd'. lia.
        - intros x Hx. apply elem_of_app in Hx as [Hx|Hx].
          + apply Hout. exact Hx.
          + apply list_elem_of_singleton in Hx. subst x. exact Hv. }
      assert (Htake : take (S (outCount s)) (<[outCount s := v]> (outIds s))
                      = take (outCount s) (outIds s) ++ [v]).
      { rewrite (take_S_r _ _ v).
        - rewrite take_insert_ge by lia. reflexivity.
        - apply list_lookup_insert_eq. lia. }
      split; [|split].
      * unfold scanInv. cbn [marks outIds outCount]. rewrite !length_insert, Htake.
        split; [lia|]. split; [exact Hbuf|]. split; [exact Hmk|].
        split; [exact Hle'|]. split.
        -- apply NoDup_app. split; [exact Hnd|]. split; [|apply NoDup_singleton].
           intros x Hx Hx'. apply list_elem_of_singleton in Hx'. subst x. contradiction.
        -- split.
           ++ intros v' Hv'. apply elem_of_app in Hv' as [Hv'|Hv'].
              ** destruct (Hout v' Hv') as [Hr Hmark]. split; [exact Hr|].
                 apply Hkeep. exact Hmark.
              ** apply list_elem_of_singleton in Hv'. subst v'. split; [exact Hv|].
                 fold k. apply list_lookup_insert_eq. exact Hk.
           ++ intros k' Hk' Hs'. apply elem_of_app.
              destruct (Nat.eq_dec k k') as [<-|Hd].
              ** right. apply list_elem_of_singleton. unfold k. lia.
              ** left. rewrite list_lookup_insert_ne in Hk' by exact Hd.
                 apply Hseen; assumption.
      * cbn [marks]. apply list_lookup_insert_eq. exact Hk.
      * cbn [marks]. exact Hkeep.
Qed.

Lemma visitEntries_spec (entries : list (option Z)) :
  forall s,
    scanInv b view token n s ->
    (forall v, Some v ∈ entries -> (0 <= v < Z.of_nat n)%Z) ->
    let s' := fold_left (visitEntry b view token) entries s in
    scanInv b view token n s'
    /\ (forall v, Some v ∈ entries -> marks s' !! Z.to_nat v = Some token)
    /\ (forall k, marks s !! k = Some token -> marks s' !! k = Some token).
Proof.
  induction entries as [|entry entries IH]; intros s Hinv Hrange; cbn [fold_left].
  - split; [exact Hinv|]. split; [|auto]. intros v Hv. apply elem_of_nil in Hv. destruct Hv.
  - assert (Hstep : scanInv b view token n (visitEntry b view token s entry)
                    /\ (forall v, entry = Some v ->
                          marks (visitEntry b view token s entry) !! Z.to_nat v = Some token)
                    /\ (forall k, marks s !! k = Some token ->
                          marks (visitEntry b view token s entry) !! k = Some token)).
    { destruct entry as [v|]; cbn [visitEntry].
      - destruct (visit_spec s v Hinv) as (H1 & H2 & H3).
        + apply Hrange. apply list_elem_of_here.
        + split; [exact H1|]. split; [|exact H3]. intros v' [= <-]. exact H2.
      - split; [exact Hinv|]. split; [discriminate | auto]. }
    destruct Hstep as (H1 & H2 & H3).
    destruct (IH _ H1) as (I1 & I2 & I3).
    { intros v Hv. apply Hrange. apply list_elem_of_further. exact Hv. }
    cbv zeta. split; [exact I1|]. split.
    + intros v Hv. apply elem_of_cons in Hv as [Hv|Hv].
      * apply I3. apply H2. symmetry. exact Hv.
      * apply I2. exact Hv.
    + intros k Hk. apply I3, H3, Hk.
Qed.

Lemma scanCells_spec (g : SpatialGrid.SpatialGrid) (cells : list nat) :
  forall s,
    scanInv b view token n s ->
    (forall c v, c ∈ cells -> Some v ∈ cellEntries g c -> (0 <= v < Z.of_nat n)%Z) ->
    let s' := fold_left (scanCell g b view token) cells s in
    scanInv b view token n s'
    /\ (forall c v, c ∈ cells -> Some v ∈ cellEntries g c ->
          marks s' !! Z.to_nat v = Some token)
    /\ (forall k, marks s !! k = Some token -> marks s' !! k = Some token).
Proof.
  induction cells as [|c cells IH]; intros s Hinv Hrange; cbn [fold_left].
  - split; [exact Hinv|]. split; [|auto].
    intros c v Hc. apply elem_of_nil in Hc. destruct Hc.
  - destruct (visitEntries_spec (cellEntries g c) s Hinv) as (H1 & H2 & H3).
    { intros v Hv. apply (Hrange c v); [apply list_elem_of_here | exact Hv]. }
    fold (scanCell g b view token s c) in H1, H2, H3.
    destruct (IH _ H1) as (I1 & I2 & I3).
    { intros c' v Hc' Hv. apply (Hrange c' v); [apply list_elem_of_further, Hc' | exact Hv]. }
    cbv zeta. split; [exact I1|]. split.
    + intros c' v Hc' Hv. apply elem_of_cons in Hc' as [->|Hc'].
      * apply I3, H2, Hv.
      * apply (I2 c' v Hc' Hv).
    + intros k Hk. apply I3, H3, Hk.
Qed.

(** The scan started on marks that are all below the token. *)
Lemma scan_start (marks0 ids : list Z) :
  Forall (fun m => (m < token)%Z) marks0 ->
  (n <= length marks0)%nat -> (n <= length ids)%nat ->
  scanInv b view token n (mkScanSt marks0 ids 0).
Proof.
  intros Hlt Hm Hi. unfold scanInv. cbn [outCount outIds marks take].
  split; [lia|]. split; [exact Hi|]. split; [exact Hm|]. split.
  { eapply Forall_impl; [exact Hlt|]. cbn. intros; lia. }
  split; [apply NoDup_nil_2|]. split.
  - intros v Hv. apply elem_of_nil in Hv. destruct Hv.
  - intros k Hk _. rewrite Forall_forall in Hlt.
    assert (token < token)%Z; [|lia].
    apply Hlt. apply list_elem_of_lookup. eauto.
Qed.

End ScanMarks.

(** ** From a view rectangle to the strokes of its cells *)

Section ViewCells.
Import SpatialGrid Visibility Measures.

Lemma floor_cell_mono (m cw x y : Q) (gw : Z) :
  (0 < cw)%Q -> (0 < gw)%Z -> (x <= y)%Q ->
  (clampToCell (floor ((x - m) / cw)) gw <= clampToCell (floor ((y - m) / cw)) gw)%Z.
Proof.
  intros Hcw Hgw Hxy. apply clampToCell_mono; [exact Hgw|].
  unfold floor. apply Qfloor_resp_le. unfold Qdiv.
  apply Qmult_le_compat_r; [lra|]. apply Qlt_le_weak, Qinv_lt_0_compat, Hcw.
Qed.

Lemma viewRect_ordered (maxHalfWidth zoom cx cy vw vh : Q) :
  (0 < zoom)%Q -> (0 <= vw)%Q -> (0 <= vh)%Q ->
  let '(viewMinX, viewMaxX, viewMinY, viewMaxY) :=
    Renderer.viewRect maxHalfWidth zoom cx cy vw vh in
  (viewMinX <= viewMaxX)%Q /\ (viewMinY <= viewMaxY)%Q.
Proof.
  intros Hz Hw Hh. unfold Renderer.viewRect.
  assert (Hinv : (0 < / zoom)%Q) by (apply Qinv_lt_0_compat, Hz).
  assert (Hinv2 : (0 < / (2 * zoom))%Q) by (apply Qinv_lt_0_compat; lra).
  assert (Hm : (0 <= max2 (16 / zoom) (maxHalfWidth * 2))%Q).
  { destruct (max2_spec (16 / zoom) (maxHalfWidth * 2))%Q as [H _].
    eapply Qle_trans; [|exact H]. unfold Qdiv.
    apply Qmult_le_0_compat; [lra | apply Qlt_le_weak, Hinv]. }
  assert (Hhw : (0 <= vw / (2 * zoom))%Q).
  { unfold Qdiv. apply Qmult_le_0_compat; [exact Hw | apply Qlt_le_weak, Hinv2]. }
  assert (Hhh : (0 <= vh / (2 * zoom))%Q).
  { unfold Qdiv. apply Qmult_le_0_compat; [exact Hh | apply Qlt_le_weak, Hinv2]. }
  split; lra.
Qed.

Lemma expandedBox_ordered (e s : Quad) :
  (0 <= qa s + 0.35)%Q ->
  (qa (Scenarios.expandedBox e s) <= qc (Scenarios.expandedBox e s))%Q
  /\ (qb (Scenarios.expandedBox e s) <= qd (Scenarios.expandedBox e s))%Q.
Proof.
  intros Hm. unfold Scenarios.expandedBox. cbn [qa qb qc qd].
  destruct (min2_spec (qa e) (qc e)) as [A1 _], (max2_spec (qa e) (qc e)) as [A2 _].
  destruct (min2_spec (qb e) (qd e)) as [B1 _], (max2_spec (qb e) (qd e)) as [B2 _].
  split; lra.
Qed.

(** A stroke whose grown box meets an ordered view rectangle shares a cell
    with the clamped cell range of that rectangle. *)
Lemma common_cell (sc : Extractor.VectorScene) (i : nat) (e s : Quad)
    (vminX vmaxX vminY vmaxY : Q) :
  sceneOk sc ->
  Extractor.endpoints sc !! i = Some e ->
  Extractor.styles sc !! i = Some s ->
  (vminX <= vmaxX)%Q -> (vminY <= vmaxY)%Q ->
  intersectsView (Scenarios.expandedBox e s) (vminX, vmaxX, vminY, vmaxY) ->
  let g := buildSpatialGrid sc in
  exists c, c ∈ gridCells sc i
            /\ c ∈ rangeCells (gridWidth g) (Renderer.viewCells g (vminX, vmaxX, vminY, vmaxY)).
Proof.
  intros (_ & _ & Hmargin & _ & Hcap) He Hs Hvx Hvy (I1 & I2 & I3 & I4) g.
  destruct (buildSpatialGrid_spec sc Hcap) as (Hgeo & HminX & HminY & _).
  fold g in Hgeo, HminX, HminY.
  pose proof (gridGeometry_range sc) as Hr.
  unfold gridCells. rewrite <- Hgeo in *. destruct Hr as (Hw & Hh & Hcw & Hch).
  assert (Hm : (0 <= qa s + 0.35)%Q).
  { rewrite Forall_forall in Hmargin. apply Hmargin.
    apply list_elem_of_lookup. eauto. }
  destruct (expandedBox_ordered e s Hm) as [Bx By].
  unfold Scenarios.expandedBox in *. cbn [qa qb qc qd] in *.
  unfold strokeCells, cellRange. rewrite He, Hs.
  unfold Renderer.viewCells. rewrite HminX, HminY.
  change Renderer.clampToGrid with clampToCell.
  set (cellX := fun x => clampToCell (floor ((x - Extractor.minX (Extractor.bounds sc))
                                             / cellWidth g)) (gridWidth g)).
  set (cellY := fun y => clampToCell (floor ((y - Extractor.minY (Extractor.bounds sc))
                                             / cellHeight g)) (gridHeight g)).
  assert (MX : forall x y, (x <= y)%Q -> (cellX x <= cellX y)%Z).
  { intros x y Hxy. apply floor_cell_mono; [exact Hcw | lia | exact Hxy]. }
  assert (MY : forall x y, (x <= y)%Q -> (cellY x <= cellY y)%Z).
  { intros x y Hxy. apply floor_cell_mono; [exact Hch | lia | exact Hxy]. }
  set (sx0 := (min2 (qa e) (qc e) - (qa s + 0.35))%Q) in *.
  set (sx1 := (max2 (qa e) (qc e) + (qa s + 0.35))%Q) in *.
  set (sy0 := (min2 (qb e) (qd e) - (qa s + 0.35))%Q) in *.
  set (sy1 := (max2 (qb e) (qd e) + (qa s + 0.35))%Q) in *.
  change (rangeCells (gridWidth g) (cellX sx0, cellX sx1, cellY sy0, cellY sy1))
    with (rangeCells (gridWidth g) (cellX sx0, cellX sx1, cellY sy0, cellY sy1)).
  fold (cellX sx0) (cellX sx1) (cellY sy0) (cellY sy1)
       (cellX vminX) (cellX vmaxX) (cellY vminY) (cellY vmaxY).
  pose proof (MX _ _ Bx). pose proof (MY _ _ By).
  pose proof (MX _ _ Hvx). pose proof (MY _ _ Hvy).
  pose proof (MX _ _ I1). pose proof (MX _ _ I2).
  pose proof (MY _ _ I3). pose proof (MY _ _ I4).
  exists (Z.to_nat (Z.max (cellY sy0) (cellY vminY) * gridWidth g
                    + Z.max (cellX sx0) (cellX vminX))).
  split; apply elem_of_rangeCells;
    exists (Z.max (cellY sy0) (cellY vminY)), (Z.max (cellX sx0) (cellX vminX));
    (split; [lia|]; split; [lia | reflexivity]).
Qed.

Lemma gridCells_valid (sc : Extractor.VectorScene) (i c : nat) :
  (i < Extractor.segmentCount sc)%nat -> c ∈ gridCells sc i -> (c < cellCountOf sc)%nat.
Proof.
  intros Hi Hc. pose proof (memberships_valid sc) as Hv.
  rewrite memberships_unfold in Hv. rewrite Forall_forall in Hv. apply Hv.
  apply list_elem_of_In, in_flat_map. exists i. split.
  - apply in_seq. lia.
  - apply list_elem_of_In. exact Hc.
Qed.

Lemma cellEntries_member (sc : Extractor.VectorScene) (i c : nat) :
  sceneOk sc ->
  (i < Extractor.segmentCount sc)%nat ->
  c ∈ gridCells sc i ->
  Some (Z.of_nat i) ∈ Renderer.cellEntries (buildSpatialGrid sc) c.
Proof.
  intros (_ & _ & _ & Hn & Hcap) Hi Hc.
  destruct (buildSpatialGrid_spec sc Hcap) as (_ & _ & _ & _ & CV & _ & _ & OV & _ & _ & HM).
  pose proof (gridCells_valid sc i c Hi Hc) as HcN.
  destruct (HM Hn i c Hi Hc) as (j & Hj & Hlook).
  unfold Renderer.cellEntries. rewrite (OV c) by lia. rewrite (CV c HcN).
  rewrite Nat2Z.id. apply list_elem_of_In, in_map_iff. exists j. split.
  - rewrite <- Nat2Z.inj_add, Nat2Z.id. exact Hlook.
  - apply in_seq. lia.
Qed.

Lemma cellEntries_range (sc : Extractor.VectorScene) (c : nat) (v : Z) :
  sceneOk sc ->
  Some v ∈ Renderer.cellEntries (buildSpatialGrid sc) c ->
  (0 <= v < Z.of_nat (Extractor.segmentCount sc))%Z.
Proof.
  intros (_ & _ & _ & _ & Hcap) Hin.
  destruct (buildSpatialGrid_spec sc Hcap) as (_ & _ & _ & _ & _ & _ & _ & _ & _ & IR & _).
  unfold Renderer.cellEntries in Hin.
  apply list_elem_of_In, in_map_iff in Hin as (j & Hlook & _).
  rewrite Forall_forall in IR. apply IR. apply list_elem_of_lookup. eauto.
Qed.

Lemma outsideView_intersecting (sc : Extractor.VectorScene) (bnds : Renderer.SegmentBounds)
    (i : nat) (e s : Quad) (view : Q * Q * Q * Q) :
  boundsOk sc bnds ->
  Extractor.endpoints sc !! i = Some e ->
  Extractor.styles sc !! i = Some s ->
  intersectsView (Scenarios.expandedBox e s) view ->
  Renderer.outsideView bnds view i = false.
Proof.
  intros Hb He Hs Hint.
  destruct (Hb i e s He Hs) as (x0 & y0 & x1 & y1 & H0 & H1 & H2 & H3 & Heq).
  destruct view as [[[vminX vmaxX] vminY] vmaxY].
  destruct Hint as (I1 & I2 & I3 & I4). destruct Heq as (E0 & E1 & E2 & E3).
  cbn [qa qb qc qd] in E0, E1, E2, E3.
  unfold Renderer.outsideView. rewrite H0, H1, H2, H3.
  repeat (apply orb_false_iff; split); apply Qltb_false.
  - rewrite E2. exact I1.
  - rewrite E0. exact I2.
  - rewrite E3. exact I3.
  - rewrite E1. exact I4.
Qed.

End ViewCells.

(** ** The visible set *)

Section VisibleSet.
Import SpatialGrid Visibility Measures.
Variable sc : Extractor.VectorScene.
Hypothesis Hscene : sceneOk sc.

Local Abbreviation n := (Extractor.segmentCount sc).
Local Abbreviation g := (buildSpatialGrid sc).

Lemma lookup_stroke_lt (i : nat) (e : Quad) :
  Extractor.endpoints sc !! i = Some e -> (i < n)%nat.
Proof.
  intros He. destruct Hscene as (Hlen & _). rewrite <- Hlen.
  apply lookup_lt_Some with (x := e). exact He.
Qed.

Lemma scan_visible (b : Renderer.SegmentBounds) (vminX vmaxX vminY vmaxY : Q)
    (token : Z) (marks0 ids : list Z) :
  let view := (vminX, vmaxX, vminY, vmaxY) in
  (1 <= token < 0xffffffff)%Z ->
  Forall (fun m => (m < token)%Z) marks0 ->
  (n <= length marks0)%nat -> (n <= length ids)%nat ->
  (vminX <= vmaxX)%Q -> (vminY <= vmaxY)%Q ->
  (forall i e s, Extractor.endpoints sc !! i = Some e -> Extractor.styles sc !! i = Some s ->
     intersectsView (Scenarios.expandedBox e s) view -> Renderer.outsideView b view i = false) ->
  let s := fold_left (Renderer.scanCell g b view token)
                     (rangeCells (gridWidth g) (Renderer.viewCells g view))
                     (Renderer.mkScanSt marks0 ids 0) in
  let out := take (Renderer.outCount s) (Renderer.outIds s) in
  NoDup out
  /\ (forall v, v ∈ out -> (0 <= v < Z.of_nat n)%Z)
  /\ coversView sc view out
  /\ (n <= length (Renderer.outIds s))%nat
  /\ (n <= length (Renderer.marks s))%nat
  /\ Forall (fun m => (m <= token)%Z) (Renderer.marks s).
Proof.
  intros view Htok Hlt Hm Hi Hvx Hvy Hkeep s out.
  assert (Htok' : (0 <= token < 2 ^ 32)%Z) by (change (2 ^ 32)%Z with 4294967296%Z; lia).
  pose proof (scan_start b view token n marks0 ids Hlt Hm Hi) as H0.
  destruct (scanCells_spec b view token n Htok' g
              (rangeCells (gridWidth g) (Renderer.viewCells g view)) _ H0)
    as (Hinv & Hmarked & _).
  { intros c v _ Hv. apply (cellEntries_range sc c v Hscene Hv). }
  fold s in Hinv, Hmarked.
  destruct Hinv as (_ & Hbuf & Hmk & Hle & Hnd & Hout & Hseen). fold out in Hnd, Hout, Hseen.
  split; [exact Hnd|]. split; [intros v Hv; apply (Hout v Hv)|].
  split; [|split; [exact Hbuf | split; [exact Hmk | exact Hle]]].
  intros i e st He Hs Hint.
  pose proof (lookup_stroke_lt i e He) as Hlti.
  destruct (common_cell sc i e st vminX vmaxX vminY vmaxY Hscene He Hs Hvx Hvy Hint)
    as (c & Hc1 & Hc2).
  pose proof (cellEntries_member sc i c Hscene Hlti Hc1) as Hent.
  pose proof (Hmarked c (Z.of_nat i) Hc2 Hent) as Hmark.
  rewrite Nat2Z.id in Hmark.
  apply Hseen; [exact Hmark|]. apply (Hkeep i e st He Hs Hint).
Qed.

Lemma all_ids_visible (view : Q * Q * Q * Q) :
  let ids := take n (map Z.of_nat (seq 0 n)) in
  NoDup ids /\ (forall v, v ∈ ids -> (0 <= v < Z.of_nat n)%Z) /\ coversView sc view ids.
Proof.
  cbv zeta. rewrite take_ge by (rewrite length_map, length_seq; lia).
  split; [|split].
  - apply NoDup_fmap_2; [intros x y; apply Nat2Z.inj | apply NoDup_ListNoDup, seq_NoDup].
  - intros v Hv. apply list_elem_of_In, in_map_iff in Hv as (i & <- & Hi).
    apply in_seq in Hi. lia.
  - intros i e s He _ _. pose proof (lookup_stroke_lt i e He).
    apply list_elem_of_In, in_map_iff. exists i. split; [reflexivity|]. apply in_seq. lia.
Qed.

Lemma next_token (token : Z) (marks0 : list Z) :
  marksOk marks0 token ->
  let bumped := (token + 1)%Z in
  let wrapped := (bumped =? Renderer.MARK_TOKEN_LIMIT)%Z in
  let token' := if wrapped then 1%Z else bumped in
  let marks' := if wrapped then replicate (length marks0) 0%Z else marks0 in
  (1 <= token' < 0xffffffff)%Z
  /\ Forall (fun m => (m < token')%Z) marks'
  /\ length marks' = length marks0.
Proof.
  intros [Htok Hle]. cbv zeta. unfold Renderer.MARK_TOKEN_LIMIT.
  destruct (Z.eqb_spec (token + 1) 0xffffffff) as [E|E].
  - split; [lia|]. split; [|apply length_replicate].
    apply Forall_forall. intros m Hm. apply elem_of_replicate in Hm as [-> _]. lia.
  - split; [lia|]. split; [|reflexivity].
    eapply Forall_impl; [exact Hle|]. cbn. intros; lia.
Qed.

Lemma outsideView_noBounds (view : Q * Q * Q * Q) (i : nat) :
  Renderer.outsideView noBounds view i = false.
Proof. destruct view as [[[a b0] c] d]. reflexivity. Qed.

Lemma toScan_visit (view : Q * Q * Q * Q) (token : Z) (s : RendererBasic.Scan) (v : Z) :
  toScan (RendererBasic.visit token s v) = Renderer.visit noBounds view token (toScan s) v.
Proof.
  unfold RendererBasic.visit, Renderer.visit, toScan. cbn [Renderer.marks Renderer.outIds Renderer.outCount].
  rewrite outsideView_noBounds.
  destruct (match RendererBasic.marks s !! Z.to_nat v with
            | Some m => (m =? token)%Z | None => false end); reflexivity.
Qed.

Lemma toScan_entries (view : Q * Q * Q * Q) (token : Z) (entries : list (option Z)) :
  forall s, toScan (fold_left (RendererBasic.visitEntry token) entries s)
            = fold_left (Renderer.visitEntry noBounds view token) entries (toScan s).
Proof.
  induction entries as [|[v|] entries IH]; intros s; cbn [fold_left].
  - reflexivity.
  - rewrite IH. cbn [RendererBasic.visitEntry Renderer.visitEntry].
    rewrite (toScan_visit view). reflexivity.
  - rewrite IH. reflexivity.
Qed.

Lemma toScan_cells (gr : SpatialGrid) (view : Q * Q * Q * Q) (token : Z) (cells : list nat) :
  forall s, toScan (fold_left (RendererBasic.scanCell gr token) cells s)
            = fold_left (Renderer.scanCell gr noBounds view token) cells (toScan s).
Proof.
  induction cells as [|c cells IH]; intros s; cbn [fold_left].
  - reflexivity.
  - rewrite IH. f_equal. unfold RendererBasic.scanCell, Renderer.scanCell.
    apply (toScan_entries view).
Qed.

End VisibleSet.

(** ** Scene installation *)

Section Install.
Import SpatialGrid Visibility Measures.
Variable sc : Extractor.VectorScene.
Hypothesis Hscene : sceneOk sc.

Local Abbreviation n := (Extractor.segmentCount sc).

Lemma sameLengths_fresh (k : nat) :
  sameLengths (Renderer.mkSegBounds (replicate k 0%Q) (replicate k 0%Q)
                                    (replicate k 0%Q) (replicate k 0%Q)).
Proof. unfold sameLengths. cbn. rewrite !length_replicate. auto. Qed.

Lemma segmentBoundsFold_spec (b0 : Renderer.SegmentBounds) :
  sameLengths b0 ->
  forall k, (k <= length (Renderer.sbMinX b0))%nat ->
    let b := fold_left (Renderer.segmentBoundsStep sc) (seq 0 k) b0 in
    sameLengths b
    /\ length (Renderer.sbMinX b) = length (Renderer.sbMinX b0)
    /\ (forall i e s, (i < k)%nat ->
          Extractor.endpoints sc !! i = Some e -> Extractor.styles sc !! i = Some s ->
          Renderer.sbMinX b !! i = Some (f32 (min2 (qa e) (qc e) - (qa s + 0.35))%Q)
          /\ Renderer.sbMinY b !! i = Some (f32 (min2 (qb e) (qd e) - (qa s + 0.35))%Q)
          /\ Renderer.sbMaxX b !! i = Some (f32 (max2 (qa e) (qc e) + (qa s + 0.35))%Q)
          /\ Renderer.sbMaxY b !! i = Some (f32 (max2 (qb e) (qd e) + (qa s + 0.35))%Q)).
Proof.
  intros Hsame. induction k as [|k IH]; intros Hk.
  - cbn. split; [exact Hsame|]. split; [reflexivity|]. intros; lia.
  - rewrite seq_S, fold_left_app. cbn [fold_left Nat.add].
    destruct IH as (Hs & Hlen & Hval); [lia|].
    set (b := fold_left (Renderer.segmentBoundsStep sc) (seq 0 k) b0) in *.
    destruct Hs as (L1 & L2 & L3).
    unfold Renderer.segmentBoundsStep.
    destruct (Extractor.endpoints sc !! k) as [ek|] eqn:Ek;
      [destruct (Extractor.styles sc !! k) as [sk|] eqn:Sk|].
    + cbv zeta. unfold sameLengths. cbn [Renderer.sbMinX Renderer.sbMinY Renderer.sbMaxX Renderer.sbMaxY].
      rewrite !length_insert. split; [auto|]. split; [exact Hlen|].
      intros i e s Hi He Hst. destruct (decide (i = k)) as [->|Hne].
      * rewrite Ek in He. rewrite Sk in Hst. injection He as <-. injection Hst as <-.
        rewrite !list_lookup_insert_eq by lia. auto.
      * rewrite !list_lookup_insert_ne by lia. apply Hval; [lia | exact He | exact Hst].
    + split; [unfold sameLengths; auto|]. split; [exact Hlen|].
      intros i e s Hi He Hst. destruct (decide (i = k)) as [->|Hne].
      * rewrite Sk in Hst. discriminate.
      * apply Hval; [lia | exact He | exact Hst].
    + split; [unfold sameLengths; auto|]. split; [exact Hlen|].
      intros i e s Hi He Hst. destruct (decide (i = k)) as [->|Hne].
      * rewrite Ek in He. discriminate.
      * apply Hval; [lia | exact He | exact Hst].
Qed.

Lemma buildSegmentBounds_spec (b0 : Renderer.SegmentBounds) :
  sameLengths b0 ->
  let b := Renderer.buildSegmentBounds sc n b0 in
  sameLengths b /\ boundsOk sc b.
Proof.
  intros Hsame. cbv zeta. unfold Renderer.buildSegmentBounds.
  set (b1 := if (length (Renderer.sbMinX b0) <? n)%nat then _ else b0).
  assert (H1 : sameLengths b1 /\ (n <= length (Renderer.sbMinX b1))%nat).
  { unfold b1. destruct (Nat.ltb_spec (length (Renderer.sbMinX b0)) n).
    - split; [apply sameLengths_fresh|]. cbn. rewrite length_replicate. lia.
    - split; [exact Hsame | lia]. }
  destruct H1 as [Hs1 Hn1].
  destruct (segmentBoundsFold_spec b1 Hs1 n Hn1) as (Hs & _ & Hval).
  split; [exact Hs|].
  intros i e s He Hst.
  assert (Hi : (i < n)%nat).
  { destruct Hscene as (Hlen & _). rewrite <- Hlen. apply lookup_lt_Some with (x := e), He. }
  destruct (Hval i e s Hi He Hst) as (V0 & V1 & V2 & V3).
  eexists _, _, _, _. split; [exact V0|]. split; [exact V1|]. split; [exact V2|].
  split; [exact V3|].
  unfold Scenarios.quadEq, Scenarios.expandedBox. cbn [qa qb qc qd].
  rewrite !f32_eq. repeat split; reflexivity.
Qed.

Lemma marksOk_install (marks0 : list Z) (token : Z) :
  marksOk marks0 token ->
  let fresh := (length marks0 <? n)%nat in
  marksOk (if fresh then replicate n 0%Z else marks0) (if fresh then 1%Z else token)
  /\ (n <= length (if fresh then replicate n 0%Z else marks0))%nat.
Proof.
  intros Hok. cbv zeta. destruct (Nat.ltb_spec (length marks0) n).
  - split; [|rewrite length_replicate; lia]. split; [lia|].
    apply Forall_forall. intros m Hm. apply elem_of_replicate in Hm as [-> _]. lia.
  - split; [exact Hok | lia].
Qed.

Lemma ids_install (ids : list Z) :
  (n <= length (if (length ids <? n)%nat then replicate n 0%Z else ids))%nat.
Proof.
  destruct (Nat.ltb_spec (length ids) n); [rewrite length_replicate|]; lia.
Qed.

Lemma setScene_ok (st : Renderer.State) :
  rendererReady st -> rendererOk sc (Renderer.setScene sc st).
Proof.
  intros [Hmarks Hsame].
  destruct (buildSegmentBounds_spec (boundsOfState st) Hsame) as [Hs Hb].
  destruct (marksOk_install _ _ Hmarks) as [Hm Hl].
  unfold rendererOk, rendererReady, boundsOfState, Renderer.setScene.
  cbn [Renderer.scene Renderer.grid Renderer.segmentCount Renderer.allSegmentIds
       Renderer.visibleSegmentIds Renderer.segmentMarks Renderer.markToken
       Renderer.segmentMinX Renderer.segmentMinY Renderer.segmentMaxX Renderer.segmentMaxY].
  split; [reflexivity|]. split; [reflexivity|]. split; [reflexivity|].
  split; [reflexivity|]. split; [apply ids_install|]. split; [exact Hl|].
  change (Renderer.mkSegBounds (Renderer.segmentMinX st) (Renderer.segmentMinY st)
                               (Renderer.segmentMaxX st) (Renderer.segmentMaxY st))
    with (boundsOfState st).
  split; [split; [exact Hm|]|].
  - destruct (Renderer.buildSegmentBounds sc n (boundsOfState st)); exact Hs.
  - destruct (Renderer.buildSegmentBounds sc n (boundsOfState st)); exact Hb.
Qed.

Lemma basic_setScene_ok (st : RendererBasic.State) :
  marksOk (RendererBasic.segmentMarks st) (RendererBasic.markToken st) ->
  basicOk sc (RendererBasic.setScene sc st).
Proof.
  intros Hmarks. destruct (marksOk_install _ _ Hmarks) as [Hm Hl].
  unfold basicOk, RendererBasic.setScene.
  cbn [RendererBasic.scene RendererBasic.grid RendererBasic.segmentCount
       RendererBasic.allSegmentIds RendererBasic.visibleSegmentIds
       RendererBasic.segmentMarks RendererBasic.markToken].
  split; [reflexivity|]. split; [reflexivity|]. split; [reflexivity|].
  split; [reflexivity|]. split; [apply ids_install|]. split; [exact Hl | exact Hm].
Qed.

End Install.

(** ** The visible set of a frame *)

Section Frames.
Import SpatialGrid Visibility Measures.
Variable sc : Extractor.VectorScene.
Hypothesis Hscene : sceneOk sc.

Lemma later_visible_set (st : Renderer.State) (now cx cy vw vh : Q) :
  rendererOk sc st ->
  (0 < Renderer.zoom st)%Q -> (0 <= vw)%Q -> (0 <= vh)%Q ->
  let st' := Renderer.updateVisibleSet now cx cy vw vh st in
  let view := Renderer.viewRect (Extractor.maxHalfWidth sc) (Renderer.zoom st) cx cy vw vh in
  NoDup (Renderer.visibleSet st')
  /\ (forall v, v ∈ Renderer.visibleSet st' ->
        (0 <= v < Z.of_nat (Extractor.segmentCount sc))%Z)
  /\ coversView sc view (Renderer.visibleSet st')
  /\ rendererOk sc st'.
Proof.
  intros Hok Hz Hw Hh.
  pose proof Hok as (Hsc & Hg & Hn & Hall & Hids & Hmk & [Hmarks Hsame] & Hb).
  cbv zeta. unfold Renderer.updateVisibleSet. rewrite Hsc, Hg.
  pose proof (viewRect_ordered (Extractor.maxHalfWidth sc) (Renderer.zoom st) cx cy vw vh
                Hz Hw Hh) as Hord.
  destruct (Renderer.viewRect (Extractor.maxHalfWidth sc) (Renderer.zoom st) cx cy vw vh)
    as [[[vminX vmaxX] vminY] vmaxY] eqn:Ev.
  destruct Hord as [Hvx Hvy].
  destruct (Renderer.viewCells (buildSpatialGrid sc) (vminX, vmaxX, vminY, vmaxY))
    as [[[c0 c1] r0] r1] eqn:Ec.
  cbv zeta.
  destruct (negb (Renderer.isInteractionActive now st) && _).
  - unfold Renderer.visibleSet.
    cbn [Renderer.usingAllSegments Renderer.segmentCount Renderer.allSegmentIds].
    rewrite Hn, Hall.
    destruct (all_ids_visible sc Hscene (vminX, vmaxX, vminY, vmaxY)) as (A1 & A2 & A3).
    split; [exact A1|]. split; [exact A2|]. split; [exact A3|].
    unfold rendererOk, rendererReady, boundsOfState.
    cbn [Renderer.scene Renderer.grid Renderer.segmentCount Renderer.allSegmentIds
         Renderer.visibleSegmentIds Renderer.segmentMarks Renderer.markToken
         Renderer.segmentMinX Renderer.segmentMinY Renderer.segmentMaxX Renderer.segmentMaxY].
    do 4 (split; [first [reflexivity | assumption]|]).
    split; [exact Hids|]. split; [exact Hmk|].
    split; [split; [exact Hmarks | exact Hsame] | exact Hb].
  - destruct (next_token (Renderer.markToken st) (Renderer.segmentMarks st) Hmarks)
      as (Htok & Hlt & Hlen).
    cbv zeta in Htok, Hlt, Hlen.
    set (token := if (Renderer.markToken st + 1 =? Renderer.MARK_TOKEN_LIMIT)%Z
                  then 1%Z else (Renderer.markToken st + 1)%Z) in *.
    set (marks0 := if (Renderer.markToken st + 1 =? Renderer.MARK_TOKEN_LIMIT)%Z
                   then replicate (length (Renderer.segmentMarks st)) 0%Z
                   else Renderer.segmentMarks st) in *.
    rewrite <- Ec.
    change (Renderer.mkSegBounds (Renderer.segmentMinX st) (Renderer.segmentMinY st)
                                 (Renderer.segmentMaxX st) (Renderer.segmentMaxY st))
      with (boundsOfState st).
    destruct (scan_visible sc Hscene (boundsOfState st) vminX vmaxX vminY vmaxY token marks0
                (Renderer.visibleSegmentIds st) Htok Hlt) as (S1 & S2 & S3 & S4 & S5 & S6).
    { rewrite Hlen. exact Hmk. }
    { exact Hids. }
    { exact Hvx. }
    { exact Hvy. }
    { intros i e s He Hs Hint.
      apply (outsideView_intersecting sc (boundsOfState st) i e s _ Hb He Hs Hint). }
    set (s := fold_left _ _ _) in *.
    unfold Renderer.visibleSet.
    cbn [Renderer.usingAllSegments Renderer.visibleSegmentCount Renderer.visibleSegmentIds].
    split; [exact S1|]. split; [exact S2|]. split; [exact S3|].
    unfold rendererOk, rendererReady, boundsOfState, marksOk.
    cbn [Renderer.scene Renderer.grid Renderer.segmentCount Renderer.allSegmentIds
         Renderer.visibleSegmentIds Renderer.segmentMarks Renderer.markToken
         Renderer.segmentMinX Renderer.segmentMinY Renderer.segmentMaxX Renderer.segmentMaxY].
    do 4 (split; [first [reflexivity | assumption]|]).
    split; [exact S4|]. split; [exact S5|].
    split; [split; [split; [exact Htok | exact S6] | exact Hsame] | exact Hb].
Qed.

Lemma basic_visible_set (st : RendererBasic.State) :
  basicOk sc st ->
  (0 < RendererBasic.zoom st)%Q ->
  (0 <= RendererBasic.canvasWidth st)%Q -> (0 <= RendererBasic.canvasHeight st)%Q ->
  let st' := RendererBasic.updateVisibleSet st in
  NoDup (RendererBasic.visibleSet st')
  /\ (forall v, v ∈ RendererBasic.visibleSet st' ->
        (0 <= v < Z.of_nat (Extractor.segmentCount sc))%Z)
  /\ coversView sc (RendererBasic.viewRect st sc) (RendererBasic.visibleSet st')
  /\ basicOk sc st'.
Proof.
  intros Hok Hz Hw Hh.
  pose proof Hok as (Hsc & Hg & Hn & Hall & Hids & Hmk & Hmarks).
  cbv zeta. unfold RendererBasic.updateVisibleSet. rewrite Hsc, Hg.
  pose proof (viewRect_ordered (Extractor.maxHalfWidth sc) (RendererBasic.zoom st)
                (RendererBasic.cameraCenterX st) (RendererBasic.cameraCenterY st)
                (RendererBasic.canvasWidth st) (RendererBasic.canvasHeight st)
                Hz Hw Hh) as Hord.
  change (Renderer.viewRect (Extractor.maxHalfWidth sc) (RendererBasic.zoom st)
            (RendererBasic.cameraCenterX st) (RendererBasic.cameraCenterY st)
            (RendererBasic.canvasWidth st) (RendererBasic.canvasHeight st))
    with (RendererBasic.viewRect st sc) in Hord.
  destruct (RendererBasic.viewRect st sc) as [[[vminX vmaxX] vminY] vmaxY] eqn:Ev.
  destruct Hord as [Hvx Hvy].
  change RendererBasic.viewCells with Renderer.viewCells.
  destruct (Renderer.viewCells (buildSpatialGrid sc) (vminX, vmaxX, vminY, vmaxY))
    as [[[c0 c1] r0] r1] eqn:Ec.
  cbv zeta.
  destruct (Qleb _ _).
  - unfold RendererBasic.visibleSet.
    cbn [RendererBasic.usingAllSegments RendererBasic.segmentCount RendererBasic.allSegmentIds].
    rewrite Hn, Hall.
    destruct (all_ids_visible sc Hscene (vminX, vmaxX, vminY, vmaxY)) as (A1 & A2 & A3).
    split; [exact A1|]. split; [exact A2|]. split; [exact A3|].
    unfold basicOk.
    cbn [RendererBasic.scene RendererBasic.grid RendererBasic.segmentCount
         RendererBasic.allSegmentIds RendererBasic.visibleSegmentIds
         RendererBasic.segmentMarks RendererBasic.markToken].
    do 4 (split; [first [reflexivity | assumption]|]).
    split; [exact Hids|]. split; [exact Hmk | exact Hmarks].
  - destruct (next_token (RendererBasic.markToken st) (RendererBasic.segmentMarks st) Hmarks)
      as (Htok & Hlt & Hlen).
    cbv zeta in Htok, Hlt, Hlen. unfold Renderer.MARK_TOKEN_LIMIT in Htok, Hlt, Hlen.
    set (token := if (RendererBasic.markToken st + 1 =? 0xffffffff)%Z
                  then 1%Z else (RendererBasic.markToken st + 1)%Z) in *.
    set (marks0 := if (RendererBasic.markToken st + 1 =? 0xffffffff)%Z
                   then replicate (length (RendererBasic.segmentMarks st)) 0%Z
                   else RendererBasic.segmentMarks st) in *.
    rewrite <- Ec.
    destruct (scan_visible sc Hscene noBounds vminX vmaxX vminY vmaxY token marks0
                (RendererBasic.visibleSegmentIds st) Htok Hlt) as (S1 & S2 & S3 & S4 & S5 & S6).
    { rewrite Hlen. exact Hmk. }
    { exact Hids. }
    { exact Hvx. }
    { exact Hvy. }
    { intros i e s _ _ _. apply outsideView_noBounds. }
    pose proof (toScan_cells (buildSpatialGrid sc) (vminX, vmaxX, vminY, vmaxY) token
                  (rangeCells (gridWidth (buildSpatialGrid sc))
                     (Renderer.viewCells (buildSpatialGrid sc) (vminX, vmaxX, vminY, vmaxY)))
                  (RendererBasic.mkScanSt marks0 (RendererBasic.visibleSegmentIds st) 0)) as E.
    change (toScan (RendererBasic.mkScanSt marks0 (RendererBasic.visibleSegmentIds st) 0))
      with (Renderer.mkScanSt marks0 (RendererBasic.visibleSegmentIds st) 0) in E.
    rewrite <- E in S1, S2, S3, S4, S5, S6. clear E.
    set (s := fold_left _ _ _) in *.
    unfold toScan in S1, S2, S3, S4, S5, S6.
    cbn [Renderer.marks Renderer.outIds Renderer.outCount] in S1, S2, S3, S4, S5, S6.
    unfold RendererBasic.visibleSet.
    cbn [RendererBasic.usingAllSegments RendererBasic.visibleSegmentCount
         RendererBasic.visibleSegmentIds].
    split; [exact S1|]. split; [exact S2|]. split; [exact S3|].
    unfold basicOk, marksOk.
    cbn [RendererBasic.scene RendererBasic.grid RendererBasic.segmentCount
         RendererBasic.allSegmentIds RendererBasic.visibleSegmentIds
         RendererBasic.segmentMarks RendererBasic.markToken].
    do 4 (split; [first [reflexivity | assumption]|]).
    split; [exact S4|]. split; [exact S5|]. split; [exact Htok | exact S6].
Qed.

End Frames.

Lemma singleStrokeScene_ok : Visibility.sceneOk Scenarios.singleStrokeScene.
Proof.
  unfold Visibility.sceneOk.
  split; [reflexivity|]. split; [reflexivity|]. split.
  { apply Forall_cons. split; [vm_compute; discriminate | apply Forall_nil_2]. }
  split.
  { change (Extractor.segmentCount Scenarios.singleStrokeScene) with 1%nat. lia. }
  pose proof (memberships_bound Scenarios.singleStrokeScene) as Hb.
  change (Extractor.segmentCount Scenarios.singleStrokeScene) with 1%nat in Hb. lia.
Qed.



(** ** A second run of the culler *)

Section SecondRun.
Import Extractor.

Local Abbreviation keyOf := Scenarios.duplicateKeyOf.

Lemma existsb_keyEqb (k : Key) (l : list Key) :
  existsb (keyEqb k) l = true <-> k ∈ l.
Proof.
  rewrite existsb_exists. split.
  - intros (x & Hx & Heq). unfold keyEqb in Heq. apply bool_decide_eq_true in Heq.
    subst x. apply list_elem_of_In. exact Hx.
  - intros Hk. exists k. split; [apply list_elem_of_In; exact Hk|].
    unfold keyEqb. apply bool_decide_eq_true. reflexivity.
Qed.

Lemma scanStep_seen_mono (s : ScanState) (i : nat) (seg : Stroke) (k : Key) :
  k ∈ seenDuplicates s -> k ∈ seenDuplicates (scanStep s i seg).
Proof.
  intros Hk. unfold scanStep.
  repeat match goal with |- context [if ?c then _ else _] => destruct c end;
    cbn [seenDuplicates]; try exact Hk.
  apply list_elem_of_further. exact Hk.
Qed.

Lemma scanStep_kept (s : ScanState) (i : nat) (seg : Stroke) :
  keepMask s !! i = Some false ->
  keepMask (scanStep s i seg) !! i = Some true ->
  (keyOf seg ∉ seenDuplicates s)
  /\ seenDuplicates (scanStep s i seg) = keyOf seg :: seenDuplicates s.
Proof.
  intros Hi. unfold scanStep.
  destruct (Qleb _ ALPHA_INVISIBLE_EPSILON); [cbn [keepMask]; congruence|].
  match goal with |- context [Qltb ?l 1e-10] => destruct (Qltb l 1e-10) end;
    [cbn [keepMask]; congruence|].
  fold (keyOf seg).
  destruct (existsb (keyEqb (keyOf seg)) (seenDuplicates s)) eqn:E;
    [cbn [keepMask]; congruence|].
  intros _. cbn [seenDuplicates]. split; [|reflexivity].
  intros Hin. apply existsb_keyEqb in Hin. congruence.
Qed.

Lemma scanStep_clean (s : ScanState) (i : nat) (seg : Stroke) :
  Scenarios.visibleStroke seg ->
  keyOf seg ∉ seenDuplicates s ->
  let s' := scanStep s i seg in
  keepMask s' = <[i := true]> (keepMask s)
  /\ seenDuplicates s' = keyOf seg :: seenDuplicates s
  /\ nTransparent s' = nTransparent s
  /\ nDegenerate s' = nDegenerate s
  /\ nDuplicate s' = nDuplicate s.
Proof.
  intros [Ha Hl] Hk. cbv zeta. unfold scanStep.
  destruct (Qleb _ ALPHA_INVISIBLE_EPSILON) eqn:Ea.
  { apply Qleb_true in Ea. exfalso. apply (Qlt_not_le _ _ Ha). exact Ea. }
  match goal with |- context [Qltb ?l 1e-10] => destruct (Qltb l 1e-10) eqn:El end.
  { apply Qltb_true in El. exfalso. apply (Qlt_not_le _ _ El). exact Hl. }
  fold (keyOf seg).
  destruct (existsb (keyEqb (keyOf seg)) (seenDuplicates s)) eqn:E.
  { apply existsb_keyEqb in E. contradiction. }
  cbn [keepMask seenDuplicates nTransparent nDegenerate nDuplicate]. auto.
Qed.

Lemma scanLoop_below (segs : list Stroke) :
  forall (s : ScanState) (i j : nat),
    (j < i)%nat -> keepMask (scanLoop s i segs) !! j = keepMask s !! j.
Proof.
  induction segs as [|seg segs IH]; intros s i j Hj; cbn [scanLoop]; [reflexivity|].
  rewrite IH by lia. apply scanStep_below. lia.
Qed.

Lemma scanLoop_keys (segs : list Stroke) :
  forall (s : ScanState) (i : nat),
    (i + length segs <= length (keepMask s))%nat ->
    (forall j, (i <= j)%nat -> (j < length (keepMask s))%nat -> keepMask s !! j = Some false) ->
    let s' := scanLoop s i segs in
    (forall k, k ∈ seenDuplicates s -> k ∈ seenDuplicates s')
    /\ (forall j a, (i <= j)%nat -> keepMask s' !! j = Some true ->
          segs !! (j - i)%nat = Some a ->
          keyOf a ∈ seenDuplicates s' /\ keyOf a ∉ seenDuplicates s)
    /\ (forall j1 j2 a b, (i <= j1)%nat -> (j1 < j2)%nat ->
          keepMask s' !! j1 = Some true -> keepMask s' !! j2 = Some true ->
          segs !! (j1 - i)%nat = Some a -> segs !! (j2 - i)%nat = Some b ->
          keyOf a <> keyOf b).
Proof.
  induction segs as [|seg segs IH]; intros s i Hlen Hfalse; cbn [scanLoop].
  - cbv zeta. split; [auto|]. split; intros; discriminate.
  - cbn [length] in Hlen.
    assert (Hi : keepMask s !! i = Some false) by (apply Hfalse; lia).
    destruct (IH (scanStep s i seg) (S i)) as (M & K & D).
    { rewrite scanStep_length. lia. }
    { intros j Hj Hjl. rewrite scanStep_below by lia.
      rewrite scanStep_length in Hjl. apply Hfalse; lia. }
    cbv zeta.
    assert (Hhead : forall a, keepMask (scanLoop (scanStep s i seg) (S i) segs) !! i = Some true ->
              (seg :: segs) !! (i - i)%nat = Some a ->
              a = seg /\ (keyOf seg ∉ seenDuplicates s)
              /\ keyOf seg ∈ seenDuplicates (scanStep s i seg)).
    { intros a Hm Ha. rewrite Nat.sub_diag in Ha. injection Ha as <-.
      rewrite scanLoop_below in Hm by lia.
      destruct (scanStep_kept s i seg Hi Hm) as [Hn Hs].
      split; [reflexivity|]. split; [exact Hn|]. rewrite Hs. apply list_elem_of_here. }
    split; [|split].
    + intros k Hk. apply M, scanStep_seen_mono, Hk.
    + intros j a Hj Hm Ha. destruct (Nat.eq_dec j i) as [->|Hne].
      * destruct (Hhead a Hm Ha) as (-> & Hn & Hs). split; [apply M, Hs | exact Hn].
      * replace (j - i)%nat with (S (j - S i)) in Ha by lia. cbn in Ha.
        destruct (K j a) as [K1 K2]; [lia | exact Hm | exact Ha|].
        split; [exact K1|]. intros Hin. apply K2, scanStep_seen_mono, Hin.
    + intros j1 j2 a b Hj1 Hj12 Hm1 Hm2 Ha Hb.
      replace (j2 - i)%nat with (S (j2 - S i)) in Hb by lia. cbn in Hb.
      destruct (K j2 b) as [_ Kb]; [lia | exact Hm2 | exact Hb|].
      destruct (Nat.eq_dec j1 i) as [->|Hne].
      * destruct (Hhead a Hm1 Ha) as (-> & _ & Hs). intros Heq. apply Kb.
        rewrite <- Heq. exact Hs.
      * replace (j1 - i)%nat with (S (j1 - S i)) in Ha by lia. cbn in Ha.
        apply (D j1 j2 a b); [lia | lia | exact Hm1 | exact Hm2 | exact Ha | exact Hb].
Qed.

Lemma selectKept_elem (mask : list bool) (segs : list Stroke) (x : Stroke) :
  x ∈ selectKept mask segs -> exists j, mask !! j = Some true /\ segs !! j = Some x.
Proof.
  revert segs. induction mask as [|b mask IH]; intros segs Hx.
  - apply elem_of_nil in Hx. destruct Hx.
  - destruct segs as [|seg segs]; [apply elem_of_nil in Hx; destruct Hx|].
    cbn in Hx. destruct b.
    + apply elem_of_cons in Hx as [->|Hx]; [exists 0%nat; auto|].
      destruct (IH segs Hx) as (j & Hm & Hs). exists (S j). auto.
    + destruct (IH segs Hx) as (j & Hm & Hs). exists (S j). auto.
Qed.

Lemma selectKept_NoDup (mask : list bool) (segs : list Stroke) :
  (forall j1 j2 a b, (j1 < j2)%nat -> mask !! j1 = Some true -> mask !! j2 = Some true ->
     segs !! j1 = Some a -> segs !! j2 = Some b -> keyOf a <> keyOf b) ->
  NoDup (map keyOf (selectKept mask segs)).
Proof.
  revert segs. induction mask as [|b mask IH]; intros segs H; [apply NoDup_nil_2|].
  destruct segs as [|seg segs]; [apply NoDup_nil_2|].
  assert (Hrest : NoDup (map keyOf (selectKept mask segs))).
  { apply IH. intros j1 j2 a c Hlt H1 H2 Ha Hc.
    apply (H (S j1) (S j2) a c); [lia | exact H1 | exact H2 | exact Ha | exact Hc]. }
  cbn. destruct b; [|exact Hrest].
  cbn. apply NoDup_cons. split; [|exact Hrest].
  intros Hin. apply list_elem_of_In, in_map_iff in Hin as (x & Heq & Hx).
  apply list_elem_of_In in Hx.
  destruct (selectKept_elem mask segs x Hx) as (j & Hm & Hs).
  apply (H 0%nat (S j) seg x); [lia | reflexivity | exact Hm | reflexivity | exact Hs|].
  symmetry. exact Heq.
Qed.

Lemma scanLoop_clean (segs : list Stroke) :
  forall (s : ScanState) (i : nat),
    (i + length segs <= length (keepMask s))%nat ->
    Forall Scenarios.visibleStroke segs ->
    NoDup (map keyOf segs) ->
    (forall a, a ∈ segs -> keyOf a ∉ seenDuplicates s) ->
    let s' := scanLoop s i segs in
    nTransparent s' = nTransparent s
    /\ nDegenerate s' = nDegenerate s
    /\ nDuplicate s' = nDuplicate s
    /\ length (keepMask s') = length (keepMask s)
    /\ (forall j, (i <= j)%nat -> (j < i + length segs)%nat -> keepMask s' !! j = Some true).
Proof.
  induction segs as [|seg segs IH]; intros s i Hlen Hvis Hnd Hfresh; cbn [scanLoop].
  - cbv zeta. repeat (split; [reflexivity|]). cbn [length]. intros; lia.
  - cbn [length] in Hlen. cbn [map] in Hnd.
    apply Forall_cons in Hvis as [Hv Hvis]. apply NoDup_cons in Hnd as [Hhead Hnd].
    destruct (scanStep_clean s i seg Hv) as (Em & Es & E1 & E2 & E3).
    { apply Hfresh, list_elem_of_here. }
    destruct (IH (scanStep s i seg) (S i)) as (C1 & C2 & C3 & CL & CM).
    { rewrite scanStep_length. lia. }
    { exact Hvis. }
    { exact Hnd. }
    { intros a Ha. rewrite Es. intros Hin. apply elem_of_cons in Hin as [Heq|Hin].
      - apply Hhead. rewrite <- Heq. apply list_elem_of_In, in_map, list_elem_of_In, Ha.
      - apply (Hfresh a); [apply list_elem_of_further, Ha | exact Hin]. }
    cbv zeta. split; [congruence|]. split; [congruence|]. split; [congruence|].
    split; [rewrite CL; apply scanStep_length|].
    intros j Hj Hjl. cbn [length] in Hjl. destruct (Nat.eq_dec j i) as [->|Hne].
    + rewrite scanLoop_below by lia. rewrite Em. apply list_lookup_insert_eq. lia.
    + apply CM; lia.
Qed.

Lemma countKept_le (mask : list bool) : (countKept mask <= length mask)%nat.
Proof. induction mask as [|[|] mask IH]; cbn; lia. Qed.

Lemma countKept_all (mask : list bool) :
  (forall j, (j < length mask)%nat -> mask !! j = Some true) ->
  countKept mask = length mask.
Proof.
  induction mask as [|b mask IH]; intros H; [reflexivity|].
  assert (Hb : b = true).
  { specialize (H 0%nat). cbn in H. assert (Some b = Some true) by (apply H; lia). congruence. }
  subst b. cbn. f_equal. apply IH. intros j Hj. apply (H (S j)). cbn. lia.
Qed.

Lemma selectKept_full (mask : list bool) (segs : list Stroke) :
  length mask = length segs -> countKept mask = length mask -> selectKept mask segs = segs.
Proof.
  revert segs. induction mask as [|b mask IH]; intros [|seg segs] Hlen Hc; try discriminate.
  - reflexivity.
  - injection Hlen as Hlen. pose proof (countKept_le mask) as Hle.
    destruct b; cbn in Hc; [|lia].
    cbn. f_equal. apply IH; [exact Hlen | lia].
Qed.

(** The survivors of a run have pairwise distinct duplicate keys. *)
Lemma cull_keys (segs : list Stroke) :
  NoDup (map keyOf (cullStrokes (cullInvisibleSegments segs))).
Proof.
  unfold cullInvisibleSegments.
  set (s0 := mkScan (replicate (length segs) false) [] [] 0 0 0).
  destruct (scanLoop_keys segs s0 0%nat) as (_ & _ & D).
  { unfold s0. cbn [keepMask]. rewrite length_replicate. lia. }
  { intros j _ Hj. unfold s0 in *. cbn [keepMask] in *.
    rewrite length_replicate in Hj. apply lookup_replicate_2. exact Hj. }
  set (s := scanLoop s0 0 segs) in *.
  pose proof (coverLoop_spec (coverageGroups s) (keepMask s)) as Hc.
  destruct (coverLoop (keepMask s) (coverageGroups s)) as [mask contained].
  destruct Hc as (_ & _ & K2).
  destruct (countKept mask); cbn [cullStrokes]; [apply NoDup_nil_2|].
  apply selectKept_NoDup. intros j1 j2 a b Hlt H1 H2 Ha Hb.
  apply (D j1 j2 a b); [lia | exact Hlt | apply K2, H1 | apply K2, H2 | |].
  - rewrite Nat.sub_0_r. exact Ha.
  - rewrite Nat.sub_0_r. exact Hb.
Qed.

(** Bounds and widest half width of a result are those of its survivors. *)
Lemma cull_shape (segs : list Stroke) :
  let r := cullInvisibleSegments segs in
  cullBounds r = boundsOf (fold_left strokeBounds (cullStrokes r) None)
  /\ cullMaxHalfWidth r
     = fold_left (fun m seg => max2 m (qa (style seg))) (cullStrokes r) 0%Q.
Proof.
  cbv zeta. unfold cullInvisibleSegments.
  destruct (coverLoop _ _) as [mask contained].
  destruct (countKept mask); cbn; auto.
Qed.

(** A run on strokes that are all visible and have distinct keys. *)
Lemma cull_clean (segs : list Stroke) :
  Forall Scenarios.visibleStroke segs ->
  NoDup (map keyOf segs) ->
  let r := cullInvisibleSegments segs in
  cullDiscardedTransparent r = 0%nat
  /\ cullDiscardedDegenerate r = 0%nat
  /\ cullDiscardedDuplicate r = 0%nat
  /\ sublist (cullStrokes r) segs
  /\ (cullSegmentCount r + cullDiscardedContained r = length segs)%nat
  /\ (cullDiscardedContained r = 0%nat <-> cullStrokes r = segs).
Proof.
  intros Hvis Hnd. cbv zeta. unfold cullInvisibleSegments.
  set (s0 := mkScan (replicate (length segs) false) [] [] 0 0 0).
  destruct (scanLoop_clean segs s0 0%nat) as (C1 & C2 & C3 & CL & CM).
  { unfold s0. cbn [keepMask]. rewrite length_replicate. lia. }
  { exact Hvis. }
  { exact Hnd. }
  { intros a _ Hin. unfold s0 in Hin. cbn [seenDuplicates] in Hin.
    apply elem_of_nil in Hin. exact Hin. }
  set (s := scanLoop s0 0 segs) in *.
  unfold s0 in C1, C2, C3, CL. cbn [nTransparent nDegenerate nDuplicate keepMask] in C1, C2, C3, CL.
  rewrite length_replicate in CL.
  assert (Hall : countKept (keepMask s) = length segs).
  { rewrite <- CL. apply countKept_all. intros j Hj. apply CM; lia. }
  pose proof (coverLoop_spec (coverageGroups s) (keepMask s)) as Hc.
  destruct (coverLoop (keepMask s) (coverageGroups s)) as [mask contained].
  destruct Hc as (L2 & Cc & _).
  assert (Hlen : length mask = length segs) by congruence.
  pose proof (countKept_length_select mask segs Hlen) as Hsel.
  destruct (countKept mask) as [|k] eqn:Hk;
    cbn [cullDiscardedTransparent cullDiscardedDegenerate cullDiscardedDuplicate
         cullDiscardedContained cullSegmentCount cullStrokes].
  - split; [exact C1|]. split; [exact C2|]. split; [exact C3|].
    split; [apply sublist_nil_l|]. split; [lia|]. split.
    + intros ->. destruct segs; [reflexivity | cbn in *; lia].
    + intros <-. cbn in *. lia.
  - split; [exact C1|]. split; [exact C2|]. split; [exact C3|].
    split; [apply selectKept_sublist|]. split; [lia|]. split.
    + intros ->. apply selectKept_full; [exact Hlen | lia].
    + intros Heq. rewrite Heq in Hsel. lia.
Qed.

End SecondRun.

(** C4 as stated fails.  On the three strokes of [chainedStrokes] the sort
    leaves the candidates in input order (each is in order with its
    neighbour), the middle one is contained in the first and the third is too
    wide for the first to cover, so the first run keeps the first and the
    third.  On those two the comparator puts the wider one first, and the
    second run discards the other as contained. *)
Lemma cull_second_run_discards :
  let first := Extractor.cullInvisibleSegments Scenarios.chainedStrokes in
  let second := Extractor.cullInvisibleSegments (Extractor.cullStrokes first) in
  Extractor.cullStrokes first = [Scenarios.coverBase; Scenarios.coverWide]
  /\ Extractor.cullStrokes second = [Scenarios.coverWide]
  /\ Extractor.cullSegmentCount second = 1%nat
  /\ Extractor.cullDiscardedContained second = 1%nat
  /\ Extractor.cullStrokes second <> Extractor.cullStrokes first.
Proof.
  vm_compute. repeat (split; [reflexivity|]). intros H. discriminate H.
Qed.

(** C4, amended.  A second run of [cullInvisibleSegments] on the survivors of
    a first run discards nothing as transparent, degenerate or duplicate;
    its survivors are a sub-sequence of its input, in the same order; its
    count and its contained counter add up to the first count; and it
    returns the first result with the four counters at zero exactly when its
    contained counter is zero. *)
Theorem cull_second_run (segs : list Extractor.Stroke) :
  let first := Extractor.cullInvisibleSegments segs in
  let second := Extractor.cullInvisibleSegments (Extractor.cullStrokes first) in
  Extractor.cullDiscardedTransparent second = 0%nat
  /\ Extractor.cullDiscardedDegenerate second = 0%nat
  /\ Extractor.cullDiscardedDuplicate second = 0%nat
  /\ sublist (Extractor.cullStrokes second) (Extractor.cullStrokes first)
  /\ (Extractor.cullSegmentCount second + Extractor.cullDiscardedContained second
      = Extractor.cullSegmentCount first)%nat
  /\ (Extractor.cullDiscardedContained second = 0%nat
      <-> Extractor.cullStrokes second = Extractor.cullStrokes first)
  /\ (Extractor.cullDiscardedContained second = 0%nat
      <-> second = Extractor.mkCullResult
                     (Extractor.cullSegmentCount first) (Extractor.cullStrokes first)
                     (Extractor.cullBounds first) (Extractor.cullMaxHalfWidth first)
                     0 0 0 0).
Proof.
  intros first second.
  destruct (cull_spec segs) as (mask & _ & _ & Hcount & _ & Hvis).
  fold first in Hcount, Hvis.
  pose proof (cull_keys segs) as Hkeys. fold first in Hkeys.
  destruct (cull_clean (Extractor.cullStrokes first) Hvis Hkeys)
    as (T & Dg & Du & Hsub & Hsum & Hiff).
  fold second in T, Dg, Du, Hsub, Hsum, Hiff.
  destruct (cull_shape segs) as [B1 M1]. fold first in B1, M1.
  destruct (cull_shape (Extractor.cullStrokes first)) as [B2 M2]. fold second in B2, M2.
  split; [exact T|]. split; [exact Dg|]. split; [exact Du|]. split; [exact Hsub|].
  split; [rewrite Hcount; exact Hsum|]. split; [exact Hiff|].
  split.
  - intros Hz. pose proof (proj1 Hiff Hz) as Heq.
    rewrite Heq in B2, M2. rewrite <- B1 in B2. rewrite <- M1 in M2.
    assert (Hc : Extractor.cullSegmentCount second = Extractor.cullSegmentCount first) by lia.
    destruct second; cbn in *. congruence.
  - intros Heq. rewrite Heq. reflexivity.
Qed.

(** ** The payload codecs *)

Section Codec.
Import ParsedDataEncoding.
Local Open Scope Z_scope.

Lemma fold_seq_S {S : Type} (f : S -> nat -> S) (m : nat) (s : S) :
  fold_left f (seq 0 (Datatypes.S m)) s = f (fold_left f (seq 0 m) s) m.
Proof. rewrite seq_S, fold_left_app. reflexivity. Qed.

Lemma gatherFold_spec (missing : Z) (src : list Z) (laneOffset lane : nat) (out : list Z) :
  forall m, (laneOffset + m <= length out)%nat ->
    let st := fold_left (gatherStep missing src laneOffset) (seq 0 m) (out, lane) in
    snd st = (lane + 4 * m)%nat
    /\ length (fst st) = length out
    /\ (forall i, (i < m)%nat ->
          fst st !! (laneOffset + i)%nat = Some (default missing (src !! (lane + 4 * i)%nat)))
    /\ (forall k, (k < laneOffset \/ laneOffset + m <= k)%nat -> fst st !! k = out !! k).
Proof.
  induction m as [|m IH]; intros Hm.
  - cbn. split; [lia|]. split; [reflexivity|]. split; [intros; lia | reflexivity].
  - rewrite fold_seq_S. destruct IH as (I1 & I2 & I3 & I4); [lia|].
    destruct (fold_left _ (seq 0 m) (out, lane)) as [o idx]. cbn [fst snd] in *.
    subst idx. cbn [gatherStep fst snd].
    split; [lia|]. split; [rewrite length_insert; exact I2|]. split.
    + intros i Hi. destruct (decide (i = m)) as [->|Hne].
      * apply list_lookup_insert_eq. lia.
      * rewrite list_lookup_insert_ne by lia. apply I3. lia.
    + intros k Hk. rewrite list_lookup_insert_ne by lia. apply I4. lia.
Qed.

Lemma gatherLane_spec (missing : Z) (src : list Z) (count lane : nat) (out : list Z) :
  (lane * count + count <= length out)%nat ->
  let out' := gatherLane missing src count out lane in
  length out' = length out
  /\ (forall i, (i < count)%nat ->
        out' !! (lane * count + i)%nat = Some (default missing (src !! (lane + 4 * i)%nat)))
  /\ (forall k, (k < lane * count \/ lane * count + count <= k)%nat -> out' !! k = out !! k).
Proof.
  intros H. destruct (gatherFold_spec missing src (lane * count) lane out count H)
    as (_ & H2 & H3 & H4).
  cbv zeta. unfold gatherLane. auto.
Qed.

Lemma gatherLanes_spec (missing : Z) (src : list Z) (count : nat) (out : list Z) :
  length out = (4 * count)%nat ->
  let out' := gatherLanes missing src count out in
  length out' = length out
  /\ (forall lane i, (lane < 4)%nat -> (i < count)%nat ->
        out' !! (lane * count + i)%nat = Some (default missing (src !! (lane + 4 * i)%nat))).
Proof.
  intros Hlen. cbv zeta. unfold gatherLanes. cbn [seq fold_left].
  destruct (gatherLane_spec missing src count 0 out) as (A1 & A2 & A3); [lia|].
  set (o0 := gatherLane missing src count out 0) in *.
  destruct (gatherLane_spec missing src count 1 o0) as (B1 & B2 & B3); [lia|].
  set (o1 := gatherLane missing src count o0 1) in *.
  destruct (gatherLane_spec missing src count 2 o1) as (C1 & C2 & C3); [lia|].
  set (o2 := gatherLane missing src count o1 2) in *.
  destruct (gatherLane_spec missing src count 3 o2) as (D1 & D2 & D3); [lia|].
  set (o3 := gatherLane missing src count o2 3) in *.
  split; [congruence|].
  intros lane i Hl Hi.
  assert (Hc : (lane = 0 \/ lane = 1 \/ lane = 2 \/ lane = 3)%nat) by lia.
  destruct Hc as [-> | [-> | [-> | ->] ] ].
  - rewrite D3 by lia. rewrite C3 by lia. rewrite B3 by lia. apply A2, Hi.
  - rewrite D3 by lia. rewrite C3 by lia. apply B2, Hi.
  - rewrite D3 by lia. apply C2, Hi.
  - apply D2, Hi.
Qed.

Lemma scatterFold_spec (missing : Z) (src : list Z) (laneOffset lane : nat) (out : list Z) :
  forall m, (lane + 4 * m <= length out + 3)%nat ->
    let st := fold_left (scatterStep missing src laneOffset) (seq 0 m) (out, lane) in
    snd st = (lane + 4 * m)%nat
    /\ length (fst st) = length out
    /\ (forall i, (i < m)%nat ->
          fst st !! (lane + 4 * i)%nat = Some (default missing (src !! (laneOffset + i)%nat)))
    /\ (forall k, (forall i, (i < m)%nat -> k <> (lane + 4 * i)%nat) -> fst st !! k = out !! k).
Proof.
  induction m as [|m IH]; intros Hm.
  - cbn. split; [lia|]. split; [reflexivity|]. split; [intros; lia | reflexivity].
  - rewrite fold_seq_S. destruct IH as (I1 & I2 & I3 & I4); [lia|].
    destruct (fold_left _ (seq 0 m) (out, lane)) as [o idx]. cbn [fst snd] in *.
    subst idx. cbn [scatterStep fst snd].
    split; [lia|]. split; [rewrite length_insert; exact I2|]. split.
    + intros i Hi. destruct (decide (i = m)) as [->|Hne].
      * apply list_lookup_insert_eq. lia.
      * rewrite list_lookup_insert_ne by lia. apply I3. lia.
    + intros k Hk. rewrite list_lookup_insert_ne.
      * apply I4. intros i Hi. apply Hk. lia.
      * intros Heq. apply (Hk m); [lia | congruence].
Qed.

Lemma scatterLane_spec (missing : Z) (src : list Z) (count lane : nat) (out : list Z) :
  (lane < 4)%nat -> length out = (4 * count)%nat ->
  let out' := scatterLane missing src count out lane in
  length out' = length out
  /\ (forall i, (i < count)%nat ->
        out' !! (lane + 4 * i)%nat = Some (default missing (src !! (lane * count + i)%nat)))
  /\ (forall lane' i, (lane' < 4)%nat -> lane' <> lane ->
        out' !! (lane' + 4 * i)%nat = out !! (lane' + 4 * i)%nat).
Proof.
  intros Hl Hlen.
  destruct (scatterFold_spec missing src (lane * count) lane out count)
    as (_ & H2 & H3 & H4); [lia|].
  cbv zeta. unfold scatterLane. split; [exact H2|]. split; [exact H3|].
  intros lane' i Hl' Hne. apply H4. intros j _. lia.
Qed.

Lemma scatterLanes_spec (missing : Z) (src : list Z) (count : nat) (out : list Z) :
  length out = (4 * count)%nat ->
  let out' := scatterLanes missing src count out in
  length out' = length out
  /\ (forall lane i, (lane < 4)%nat -> (i < count)%nat ->
        out' !! (lane + 4 * i)%nat = Some (default missing (src !! (lane * count + i)%nat))).
Proof.
  intros Hlen. cbv zeta. unfold scatterLanes. cbn [seq fold_left].
  destruct (scatterLane_spec missing src count 0 out) as (A1 & A2 & A3); [lia | exact Hlen|].
  set (o0 := scatterLane missing src count out 0) in *.
  destruct (scatterLane_spec missing src count 1 o0) as (B1 & B2 & B3); [lia | congruence|].
  set (o1 := scatterLane missing src count o0 1) in *.
  destruct (scatterLane_spec missing src count 2 o1) as (C1 & C2 & C3); [lia | congruence|].
  set (o2 := scatterLane missing src count o1 2) in *.
  destruct (scatterLane_spec missing src count 3 o2) as (D1 & D2 & D3); [lia | congruence|].
  set (o3 := scatterLane missing src count o2 3) in *.
  split; [congruence|].
  intros lane i Hl Hi.
  assert (Hc : (lane = 0 \/ lane = 1 \/ lane = 2 \/ lane = 3)%nat) by lia.
  destruct Hc as [-> | [-> | [-> | ->] ] ].
  - rewrite D3 by lia. rewrite C3 by lia. rewrite B3 by lia. apply A2, Hi.
  - rewrite D3 by lia. rewrite C3 by lia. apply B2, Hi.
  - rewrite D3 by lia. apply C2, Hi.
  - apply D2, Hi.
Qed.

(** Interleaving after de-interleaving, and the converse, on [4 * count]
    elements. *)
Lemma scatter_gather (m1 m2 z1 z2 : Z) (src : list Z) (count : nat) :
  length src = (4 * count)%nat ->
  scatterLanes m2 (gatherLanes m1 src count (replicate (4 * count) z1)) count
               (replicate (4 * count) z2) = src.
Proof.
  intros Hlen.
  destruct (gatherLanes_spec m1 src count (replicate (4 * count) z1)) as (G1 & G2);
    [apply length_replicate|].
  set (g := gatherLanes m1 src count (replicate (4 * count) z1)) in *.
  destruct (scatterLanes_spec m2 g count (replicate (4 * count) z2)) as (S1 & S2);
    [apply length_replicate|].
  set (s := scatterLanes m2 g count (replicate (4 * count) z2)) in *.
  rewrite length_replicate in G1, S1.
  apply list_eq. intros k.
  destruct (decide (k < 4 * count)%nat) as [Hk|Hk].
  - replace k with (k mod 4 + 4 * (k / 4))%nat by (pose proof (Nat.div_mod_eq k 4); lia).
    assert (Hl : (k mod 4 < 4)%nat) by (apply Nat.mod_upper_bound; lia).
    assert (Hi : (k / 4 < count)%nat) by (apply Nat.Div0.div_lt_upper_bound; lia).
    rewrite (S2 _ _ Hl Hi), (G2 _ _ Hl Hi). cbn [default].
    destruct (lookup_lt_is_Some_2 src (k mod 4 + 4 * (k / 4))%nat) as [v Hv].
    { pose proof (Nat.div_mod_eq k 4). lia. }
    rewrite Hv. reflexivity.
  - rewrite !lookup_ge_None_2 by lia. reflexivity.
Qed.

Lemma gather_scatter (m1 m2 z1 z2 : Z) (src : list Z) (count : nat) :
  length src = (4 * count)%nat ->
  gatherLanes m2 (scatterLanes m1 src count (replicate (4 * count) z1)) count
              (replicate (4 * count) z2) = src.
Proof.
  intros Hlen.
  destruct (scatterLanes_spec m1 src count (replicate (4 * count) z1)) as (S1 & S2);
    [apply length_replicate|].
  set (s := scatterLanes m1 src count (replicate (4 * count) z1)) in *.
  destruct (gatherLanes_spec m2 s count (replicate (4 * count) z2)) as (G1 & G2);
    [apply length_replicate|].
  set (g := gatherLanes m2 s count (replicate (4 * count) z2)) in *.
  rewrite length_replicate in G1, S1.
  apply list_eq. intros k.
  destruct (decide (k < 4 * count)%nat) as [Hk|Hk].
  - assert (Hc : (0 < count)%nat) by lia.
    replace k with (k / count * count + k mod count)%nat
      by (pose proof (Nat.div_mod_eq k count); lia).
    assert (Hi : (k mod count < count)%nat) by (apply Nat.mod_upper_bound; lia).
    assert (Hl : (k / count < 4)%nat) by (apply Nat.Div0.div_lt_upper_bound; lia).
    rewrite (G2 _ _ Hl Hi), (S2 _ _ Hl Hi). cbn [default].
    destruct (lookup_lt_is_Some_2 src (k / count * count + k mod count)%nat) as [v Hv].
    { pose proof (Nat.div_mod_eq k count). lia. }
    rewrite Hv. reflexivity.
  - rewrite !lookup_ge_None_2 by lia. reflexivity.
Qed.

End Codec.

(** ** Bytes and 32-bit words *)

Section Views.
Import ParsedDataEncoding Payloads.
Local Open Scope Z_scope.

Lemma split256 (b y : Z) :
  0 <= b < 256 -> (b + 256 * y) mod 256 = b /\ (b + 256 * y) / 256 = y.
Proof.
  intros Hb. replace (b + 256 * y) with (b + y * 256) by ring. split.
  - rewrite Z.mod_add by lia. apply Z.mod_small. exact Hb.
  - rewrite Z.div_add by lia. rewrite (Z.div_small b) by exact Hb. lia.
Qed.

Lemma bytesOfWord_pack (b0 b1 b2 b3 : Z) :
  0 <= b0 < 256 -> 0 <= b1 < 256 -> 0 <= b2 < 256 -> 0 <= b3 < 256 ->
  bytesOfWord (b0 + 256 * b1 + 65536 * b2 + 16777216 * b3) = [b0; b1; b2; b3].
Proof.
  intros H0 H1 H2 H3. unfold bytesOfWord.
  replace (b0 + 256 * b1 + 65536 * b2 + 16777216 * b3)
    with (b0 + 256 * (b1 + 256 * (b2 + 256 * b3))) by ring.
  change 65536 with (256 * 256). change 16777216 with (256 * 256 * 256).
  rewrite <- !Z.div_div by lia.
  destruct (split256 b0 (b1 + 256 * (b2 + 256 * b3)) H0) as [-> ->].
  destruct (split256 b1 (b2 + 256 * b3) H1) as [-> ->].
  destruct (split256 b2 b3 H2) as [-> ->].
  rewrite (Z.mod_small b3) by exact H3. reflexivity.
Qed.

Lemma pack_bytesOfWord (w : Z) :
  0 <= w < 2 ^ 32 ->
  w mod 256 + 256 * ((w / 256) mod 256) + 65536 * ((w / 65536) mod 256)
  + 16777216 * ((w / 16777216) mod 256) = w.
Proof.
  intros Hw. change (2 ^ 32) with 4294967296 in Hw.
  change 65536 with (256 * 256). change 16777216 with (256 * 256 * 256).
  rewrite <- !Z.div_div by lia.
  pose proof (Z.div_mod w 256 ltac:(lia)) as E0.
  pose proof (Z.div_mod (w / 256) 256 ltac:(lia)) as E1.
  pose proof (Z.div_mod (w / 256 / 256) 256 ltac:(lia)) as E2.
  assert (H3 : 0 <= w / 256 / 256 / 256 < 256).
  { split.
    - repeat apply Z.div_pos; lia.
    - repeat (apply Z.div_lt_upper_bound; [lia|]). lia. }
  rewrite (Z.mod_small (w / 256 / 256 / 256)) by exact H3. lia.
Qed.

Lemma bytesOfWord_bytes (w : Z) : allBytes (bytesOfWord w).
Proof.
  unfold allBytes, bytesOfWord.
  repeat (apply Forall_cons; split; [apply Z.mod_pos_bound; lia|]). apply Forall_nil_2.
Qed.

Lemma viewBytes_cons (w : Z) (ws : list Z) :
  viewBytes (w :: ws) = bytesOfWord w ++ viewBytes ws.
Proof. reflexivity. Qed.

Lemma viewBytes_length (ws : list Z) : length (viewBytes ws) = (4 * length ws)%nat.
Proof.
  induction ws as [|w ws IH]; [reflexivity|].
  rewrite viewBytes_cons, length_app, IH. cbn [length bytesOfWord]. lia.
Qed.

Lemma viewBytes_bytes (ws : list Z) : allBytes (viewBytes ws).
Proof.
  induction ws as [|w ws IH]; [apply Forall_nil_2|].
  rewrite viewBytes_cons. apply Forall_app. split; [apply bytesOfWord_bytes | exact IH].
Qed.

Lemma viewWords_viewBytes (ws : list Z) : allWords ws -> viewWords (viewBytes ws) = ws.
Proof.
  induction ws as [|w ws IH]; intros Hw; [reflexivity|].
  apply Forall_cons in Hw as [Hw Hws].
  rewrite viewBytes_cons. cbn [bytesOfWord app viewWords].
  rewrite (pack_bytesOfWord w Hw), (IH Hws). reflexivity.
Qed.

(** A byte array of [4 * n] elements, four bytes at a time. *)
Lemma quads_ind (P : list Z -> Prop) :
  P [] ->
  (forall b0 b1 b2 b3 rest, P rest -> P (b0 :: b1 :: b2 :: b3 :: rest)) ->
  forall n bs, length bs = (4 * n)%nat -> P bs.
Proof.
  intros Hnil Hstep. induction n as [|n IH]; intros bs Hlen.
  - destruct bs; [exact Hnil | discriminate].
  - destruct bs as [|b0 [|b1 [|b2 [|b3 rest] ] ] ]; cbn in Hlen; try lia.
    apply Hstep, IH. lia.
Qed.

Lemma viewWords_length (n : nat) (bs : list Z) :
  length bs = (4 * n)%nat -> length (viewWords bs) = n.
Proof.
  revert bs. induction n as [|n IH]; intros bs Hlen.
  - destruct bs; [reflexivity | discriminate].
  - destruct bs as [|b0 [|b1 [|b2 [|b3 rest] ] ] ]; cbn in Hlen; try lia.
    cbn [viewWords length]. f_equal. apply IH. lia.
Qed.

Lemma viewBytes_viewWords (n : nat) (bs : list Z) :
  length bs = (4 * n)%nat -> allBytes bs -> viewBytes (viewWords bs) = bs.
Proof.
  revert bs. induction n as [|n IH]; intros bs Hlen Hb.
  - destruct bs; [reflexivity | discriminate].
  - destruct bs as [|b0 [|b1 [|b2 [|b3 rest] ] ] ]; cbn in Hlen; try lia.
    apply Forall_cons in Hb as [H0 Hb]. apply Forall_cons in Hb as [H1 Hb].
    apply Forall_cons in Hb as [H2 Hb]. apply Forall_cons in Hb as [H3 Hb].
    cbn [viewWords]. rewrite viewBytes_cons, (bytesOfWord_pack b0 b1 b2 b3 H0 H1 H2 H3).
    rewrite IH by (try lia; exact Hb). reflexivity.
Qed.

Lemma viewWords_words (n : nat) (bs : list Z) :
  length bs = (4 * n)%nat -> allBytes bs -> allWords (viewWords bs).
Proof.
  revert bs. induction n as [|n IH]; intros bs Hlen Hb.
  - destruct bs; [apply Forall_nil_2 | discriminate].
  - destruct bs as [|b0 [|b1 [|b2 [|b3 rest] ] ] ]; cbn in Hlen; try lia.
    apply Forall_cons in Hb as [H0 Hb]. apply Forall_cons in Hb as [H1 Hb].
    apply Forall_cons in Hb as [H2 Hb]. apply Forall_cons in Hb as [H3 Hb].
    cbn [viewWords]. apply Forall_cons. split.
    + change (2 ^ 32) with 4294967296. lia.
    + apply IH; [lia | exact Hb].
Qed.

(** What the lane loops write comes from their source. *)
Lemma gatherLanes_Forall (P : Z -> Prop) (missing z : Z) (src : list Z) (count : nat) :
  length src = (4 * count)%nat -> Forall P src ->
  Forall P (gatherLanes missing src count (replicate (4 * count) z)).
Proof.
  intros Hlen HP.
  destruct (gatherLanes_spec missing src count (replicate (4 * count) z)) as (G1 & G2);
    [apply length_replicate|].
  rewrite length_replicate in G1.
  apply Forall_lookup. intros k x Hk.
  assert (Hlt : (k < 4 * count)%nat) by (rewrite <- G1; apply lookup_lt_Some with (x := x), Hk).
  assert (Hc : (0 < count)%nat) by lia.
  assert (Hi : (k mod count < count)%nat) by (apply Nat.mod_upper_bound; lia).
  assert (Hl : (k / count < 4)%nat) by (apply Nat.Div0.div_lt_upper_bound; lia).
  replace k with (k / count * count + k mod count)%nat in Hk
    by (pose proof (Nat.div_mod_eq k count); lia).
  rewrite (G2 _ _ Hl Hi) in Hk.
  assert (Hx : x = default missing (src !! (k / count + 4 * (k mod count))%nat)) by congruence.
  subst x.
  destruct (lookup_lt_is_Some_2 src (k / count + 4 * (k mod count))%nat) as [v Hv]; [lia|].
  rewrite Hv. cbn. rewrite Forall_lookup in HP. apply (HP _ _ Hv).
Qed.

Lemma scatterLanes_Forall (P : Z -> Prop) (missing z : Z) (src : list Z) (count : nat) :
  length src = (4 * count)%nat -> Forall P src ->
  Forall P (scatterLanes missing src count (replicate (4 * count) z)).
Proof.
  intros Hlen HP.
  destruct (scatterLanes_spec missing src count (replicate (4 * count) z)) as (S1 & S2);
    [apply length_replicate|].
  rewrite length_replicate in S1.
  apply Forall_lookup. intros k x Hk.
  assert (Hlt : (k < 4 * count)%nat) by (rewrite <- S1; apply lookup_lt_Some with (x := x), Hk).
  assert (Hl : (k mod 4 < 4)%nat) by (apply Nat.mod_upper_bound; lia).
  assert (Hi : (k / 4 < count)%nat) by (apply Nat.Div0.div_lt_upper_bound; lia).
  replace k with (k mod 4 + 4 * (k / 4))%nat in Hk
    by (pose proof (Nat.div_mod_eq k 4); lia).
  rewrite (S2 _ _ Hl Hi) in Hk.
  assert (Hx : x = default missing (src !! (k mod 4 * count + k / 4)%nat)) by congruence.
  subst x.
  destruct (lookup_lt_is_Some_2 src (k mod 4 * count + k / 4)%nat) as [v Hv]; [nia|].
  rewrite Hv. cbn. rewrite Forall_lookup in HP. apply (HP _ _ Hv).
Qed.

(** *** The exclusive or of 32-bit patterns *)

Lemma toUint32_range (z : Z) : 0 <= toUint32 z < 2 ^ 32.
Proof. unfold toUint32. apply Z.mod_pos_bound. reflexivity. Qed.

Lemma toUint32_small (z : Z) : 0 <= z < 2 ^ 32 -> toUint32 z = z.
Proof. intros H. unfold toUint32. apply Z.mod_small, H. Qed.

Lemma toUint32_idem (z : Z) : toUint32 (toUint32 z) = toUint32 z.
Proof. unfold toUint32. apply Z.mod_mod. discriminate. Qed.

Lemma toUint32_toInt32 (z : Z) : toUint32 (toInt32 z) = toUint32 z.
Proof.
  unfold toInt32, toUint32. destruct (z mod 2 ^ 32 <? 2 ^ 31).
  - apply Z.mod_mod. discriminate.
  - replace (z mod 2 ^ 32 - 2 ^ 32) with (z mod 2 ^ 32 + (-1) * 2 ^ 32) by ring.
    rewrite Z.mod_add by discriminate. apply Z.mod_mod. discriminate.
Qed.

Lemma toInt32_toUint32 (z : Z) : toInt32 (toUint32 z) = toInt32 z.
Proof. unfold toInt32, toUint32. rewrite Z.mod_mod by discriminate. reflexivity. Qed.

Lemma toUint32_lxor (x y : Z) : toUint32 (Z.lxor x y) = Z.lxor (toUint32 x) (toUint32 y).
Proof.
  unfold toUint32. apply Z.bits_inj'. intros n Hn.
  rewrite Z.lxor_spec. destruct (Z.lt_ge_cases n 32) as [Hlt|Hge].
  - rewrite !Z.mod_pow2_bits_low by lia. apply Z.lxor_spec.
  - rewrite !Z.mod_pow2_bits_high by lia. reflexivity.
Qed.

Lemma toUint32_xor32 (a b : Z) : toUint32 (xor32 a b) = Z.lxor (toUint32 a) (toUint32 b).
Proof. unfold xor32. rewrite toUint32_lxor, !toUint32_toInt32. reflexivity. Qed.

Lemma xor32_toUint32 (a a' b b' : Z) :
  toUint32 a = toUint32 a' -> toUint32 b = toUint32 b' -> xor32 a b = xor32 a' b'.
Proof.
  intros Ha Hb. unfold xor32.
  rewrite <- (toInt32_toUint32 a), <- (toInt32_toUint32 b), Ha, Hb, !toInt32_toUint32.
  reflexivity.
Qed.

Lemma xorDelta_length (prev : Z) (ws : list Z) : length (xorDelta prev ws) = length ws.
Proof. revert prev. induction ws as [|w ws IH]; intros prev; cbn; [|rewrite IH]; reflexivity. Qed.

Lemma xorDelta_words (prev : Z) (ws : list Z) : allWords (xorDelta prev ws).
Proof.
  revert prev. induction ws as [|w ws IH]; intros prev; cbn [xorDelta]; [apply Forall_nil_2|].
  apply Forall_cons. split; [apply toUint32_range | apply IH].
Qed.

Lemma xorUndelta_words (prev : Z) (ds : list Z) : allWords (xorUndelta prev ds).
Proof.
  revert prev. induction ds as [|d ds IH]; intros prev; cbn [xorUndelta]; [apply Forall_nil_2|].
  apply Forall_cons. split; [apply toUint32_range | apply IH].
Qed.

Lemma xorUndelta_xorDelta (ws : list Z) :
  forall prev prev', allWords ws -> toUint32 prev' = toUint32 prev ->
    xorUndelta prev' (xorDelta prev ws) = ws.
Proof.
  induction ws as [|w ws IH]; intros prev prev' Hw Hp; [reflexivity|].
  apply Forall_cons in Hw as [Hw Hws]. cbn [xorDelta xorUndelta].
  assert (E : toUint32 (xor32 (toUint32 (xor32 w prev)) prev') = w).
  { rewrite toUint32_xor32, Hp, toUint32_idem, toUint32_xor32.
    rewrite Z.lxor_assoc, Z.lxor_nilpotent, Z.lxor_0_r. apply toUint32_small, Hw. }
  rewrite E. f_equal. apply IH; [exact Hws|].
  rewrite E. symmetry. apply toUint32_small, Hw.
Qed.

Lemma xorDelta_xorUndelta (ds : list Z) :
  forall prev prev', allWords ds -> toUint32 prev' = toUint32 prev ->
    xorDelta prev' (xorUndelta prev ds) = ds.
Proof.
  induction ds as [|d ds IH]; intros prev prev' Hd Hp; [reflexivity|].
  apply Forall_cons in Hd as [Hd Hds]. cbn [xorDelta xorUndelta].
  assert (E : toUint32 (xor32 (toUint32 (xor32 d prev)) prev') = d).
  { rewrite toUint32_xor32, Hp, toUint32_idem, toUint32_xor32.
    rewrite Z.lxor_assoc, Z.lxor_nilpotent, Z.lxor_0_r. apply toUint32_small, Hd. }
  rewrite E. f_equal. apply IH; [exact Hds|].
  apply toUint32_idem.
Qed.

End Views.

(** ** Round trips of the payload codecs *)

Section Roundtrips.
Import ParsedDataEncoding Payloads.

Lemma four_times_test (n : nat) :
  (0 < n)%nat ->
  (4 * n =? 0)%nat = false /\ (4 * n mod 4 =? 0)%nat = true /\ (4 * n / 4)%nat = n.
Proof.
  intros Hn. split; [apply Nat.eqb_neq; lia|]. split.
  - apply Nat.eqb_eq. rewrite Nat.mul_comm. apply Nat.Div0.mod_mul.
  - rewrite Nat.mul_comm. apply Nat.div_mul. lia.
Qed.

Lemma multiple_of_four (n : nat) : (n mod 4 =? 0)%nat = true -> n = (4 * (n / 4))%nat.
Proof.
  intros H. apply Nat.eqb_eq in H. pose proof (Nat.div_mod_eq n 4). lia.
Qed.

Lemma encodeByteShuffled_eq (source : list Z) :
  (0 < length source)%nat ->
  encodeByteShuffledFloat32 source
  = gatherLanes 0 (viewBytes source) (length source) (replicate (4 * length source) 0%Z).
Proof.
  intros Hn. unfold encodeByteShuffledFloat32.
  replace (length source =? 0)%nat with false by (symmetry; apply Nat.eqb_neq; lia).
  cbv zeta. rewrite viewBytes_length. reflexivity.
Qed.

Lemma decodeByteShuffled_eq (bytes : list Z) (n : nat) :
  (0 < n)%nat -> length bytes = (4 * n)%nat ->
  decodeByteShuffledFloat32 bytes
  = Some (viewWords (scatterLanes 0 bytes n (replicate (4 * n) 0%Z))).
Proof.
  intros Hn Hlen. unfold decodeByteShuffledFloat32. rewrite Hlen.
  destruct (four_times_test n Hn) as (-> & -> & ->). reflexivity.
Qed.

Lemma decodeByteShuffled_invalid (bytes : list Z) :
  (length bytes mod 4 =? 0)%nat = false -> decodeByteShuffledFloat32 bytes = None.
Proof.
  intros H. unfold decodeByteShuffledFloat32. rewrite H.
  destruct bytes; [discriminate H | reflexivity].
Qed.

Lemma gatherLanes_length (missing z : Z) (src : list Z) (count : nat) :
  length (gatherLanes missing src count (replicate (4 * count) z)) = (4 * count)%nat.
Proof.
  destruct (gatherLanes_spec missing src count (replicate (4 * count) z)) as (G1 & _);
    [apply length_replicate|].
  rewrite G1. apply length_replicate.
Qed.

Lemma scatterLanes_length (missing z : Z) (src : list Z) (count : nat) :
  length (scatterLanes missing src count (replicate (4 * count) z)) = (4 * count)%nat.
Proof.
  destruct (scatterLanes_spec missing src count (replicate (4 * count) z)) as (S1 & _);
    [apply length_replicate|].
  rewrite S1. apply length_replicate.
Qed.

End Roundtrips.

(** X1.  Decoding a byte-shuffled payload returns the array that was
    encoded, element for element. *)
Theorem byte_shuffle_decodes_encoded (source : list Z) :
  Payloads.allWords source ->
  ParsedDataEncoding.decodeByteShuffledFloat32
    (ParsedDataEncoding.encodeByteShuffledFloat32 source) = Some source.
Proof.
  intros Hw. destruct source as [|w ws]; [reflexivity|].
  set (source := w :: ws) in *.
  assert (Hn : (0 < length source)%nat) by (cbn; lia).
  rewrite (encodeByteShuffled_eq source Hn).
  rewrite (decodeByteShuffled_eq _ (length source) Hn) by apply gatherLanes_length.
  rewrite scatter_gather by apply viewBytes_length.
  rewrite (viewWords_viewBytes source Hw). reflexivity.
Qed.

Lemma byte_shuffle_decodes_encoded_witness :
  Payloads.allWords [1065353216; 3212836864]%Z
  /\ ParsedDataEncoding.decodeByteShuffledFloat32
       (ParsedDataEncoding.encodeByteShuffledFloat32 [1065353216; 3212836864]%Z)
     = Some [1065353216; 3212836864]%Z.
Proof.
  assert (H : Payloads.allWords [1065353216; 3212836864]%Z).
  { repeat (apply Forall_cons; split; [vm_compute; split; [discriminate | reflexivity]|]).
    apply Forall_nil_2. }
  split; [exact H | apply (byte_shuffle_decodes_encoded _ H)].
Defined.

(** X2.  A byte-shuffled payload whose length is not a multiple of four is
    rejected; any other payload of bytes decodes to an array whose encoding
    is that payload. *)
Theorem byte_shuffle_encodes_decoded (bytes : list Z) :
  Payloads.allBytes bytes ->
  if (length bytes mod 4 =? 0)%nat
  then exists decoded,
         ParsedDataEncoding.decodeByteShuffledFloat32 bytes = Some decoded
         /\ Payloads.allWords decoded
         /\ length bytes = (4 * length decoded)%nat
         /\ ParsedDataEncoding.encodeByteShuffledFloat32 decoded = bytes
  else ParsedDataEncoding.decodeByteShuffledFloat32 bytes = None.
Proof.
  intros Hb. destruct (length bytes mod 4 =? 0)%nat eqn:Hmod;
    [|apply decodeByteShuffled_invalid, Hmod].
  destruct bytes as [|b bs].
  { exists []. split; [reflexivity|]. split; [apply Forall_nil_2|]. split; reflexivity. }
  set (bytes := b :: bs) in *.
  pose proof (multiple_of_four _ Hmod) as Hlen.
  set (n := (length bytes / 4)%nat) in *.
  assert (Hn : (0 < n)%nat) by (cbn [length bytes] in Hlen; lia).
  set (plain := ParsedDataEncoding.scatterLanes 0 bytes n (replicate (4 * n) 0%Z)).
  assert (Hpl : length plain = (4 * n)%nat) by apply scatterLanes_length.
  assert (Hpb : Payloads.allBytes plain) by (apply scatterLanes_Forall; assumption).
  exists (ParsedDataEncoding.viewWords plain).
  split; [apply (decodeByteShuffled_eq bytes n Hn Hlen)|].
  split; [apply (viewWords_words n plain Hpl Hpb)|].
  pose proof (viewWords_length n plain Hpl) as Hwl.
  split; [rewrite Hwl; exact Hlen|].
  rewrite encodeByteShuffled_eq by (rewrite Hwl; exact Hn).
  rewrite Hwl, (viewBytes_viewWords n plain Hpl Hpb).
  apply gather_scatter. exact Hlen.
Qed.

Lemma byte_shuffle_encodes_decoded_witness :
  Payloads.allBytes [0; 0; 0; 0; 128; 128; 63; 191]%Z
  /\ ParsedDataEncoding.encodeByteShuffledFloat32 [1065353216; 3212836864]%Z
     = [0; 0; 0; 0; 128; 128; 63; 191]%Z
  /\ ParsedDataEncoding.decodeByteShuffledFloat32 [1; 2; 3]%Z = None.
Proof.
  assert (H : Payloads.allBytes [0; 0; 0; 0; 128; 128; 63; 191]%Z).
  { repeat (apply Forall_cons; split; [vm_compute; split; [discriminate | reflexivity]|]).
    apply Forall_nil_2. }
  assert (H' : Payloads.allBytes [1; 2; 3]%Z).
  { repeat (apply Forall_cons; split; [vm_compute; split; [discriminate | reflexivity]|]).
    apply Forall_nil_2. }
  pose proof (byte_shuffle_encodes_decoded _ H) as E.
  pose proof (byte_shuffle_encodes_decoded _ H') as E'.
  cbv beta iota zeta delta [length Nat.modulo Nat.divmod Nat.eqb Nat.sub snd] in E, E'.
  split; [exact H|]. split; [|exact E'].
  destruct E as (decoded & Hd & _ & _ & He).
  vm_compute in Hd. injection Hd as <-. exact He.
Defined.

(** X3.  Decoding an XOR-delta byte-shuffled payload returns the array that
    was encoded. *)
Theorem xor_delta_decodes_encoded (source : list Z) :
  Payloads.allWords source ->
  ParsedDataEncoding.decodeXorDeltaByteShuffledFloat32
    (ParsedDataEncoding.encodeXorDeltaByteShuffledFloat32 source) = Some source.
Proof.
  intros Hw. destruct source as [|w ws]; [reflexivity|].
  set (source := w :: ws) in *.
  assert (Hn : (0 < length source)%nat) by (cbn; lia).
  unfold ParsedDataEncoding.encodeXorDeltaByteShuffledFloat32.
  replace (length source =? 0)%nat with false by reflexivity. cbv zeta.
  set (deltas := ParsedDataEncoding.xorDelta 0 source).
  assert (Hdl : length deltas = length source) by apply xorDelta_length.
  assert (Hbl : length (ParsedDataEncoding.viewBytes deltas) = (4 * length source)%nat)
    by (rewrite viewBytes_length, Hdl; reflexivity).
  unfold ParsedDataEncoding.shuffleBytesByWord. rewrite Hbl.
  unfold ParsedDataEncoding.decodeXorDeltaByteShuffledFloat32.
  rewrite gatherLanes_length.
  destruct (four_times_test (length source) Hn) as (-> & -> & ->).
  cbn [negb]. cbv zeta.
  unfold ParsedDataEncoding.unshuffleBytesByWord.
  rewrite gatherLanes_length, scatter_gather by exact Hbl.
  rewrite (viewWords_viewBytes deltas) by apply xorDelta_words.
  unfold deltas. rewrite (xorUndelta_xorDelta source 0 0 Hw eq_refl). reflexivity.
Qed.

Lemma xor_delta_decodes_encoded_witness :
  Payloads.allWords [1065353216; 3212836864]%Z
  /\ ParsedDataEncoding.decodeXorDeltaByteShuffledFloat32
       (ParsedDataEncoding.encodeXorDeltaByteShuffledFloat32 [1065353216; 3212836864]%Z)
     = Some [1065353216; 3212836864]%Z.
Proof.
  assert (H : Payloads.allWords [1065353216; 3212836864]%Z).
  { repeat (apply Forall_cons; split; [vm_compute; split; [discriminate | reflexivity]|]).
    apply Forall_nil_2. }
  split; [exact H | apply (xor_delta_decodes_encoded _ H)].
Defined.

Lemma channelMajor_roundtrip (source : list Z) :
  Payloads.allWords source ->
  if (length source mod 4 =? 0)%nat
  then exists bytes,
         ParsedDataEncoding.encodeChannelMajorFloat32 source = Some bytes
         /\ length bytes = (4 * length source)%nat
         /\ Payloads.allBytes bytes
         /\ ParsedDataEncoding.decodeChannelMajorFloat32 bytes = Some source
  else ParsedDataEncoding.encodeChannelMajorFloat32 source = None.
Proof.
  intros Hw. unfold ParsedDataEncoding.encodeChannelMajorFloat32.
  destruct source as [|w ws].
  { exists []. split; [reflexivity|]. split; [reflexivity|]. split; [apply Forall_nil_2|].
    reflexivity. }
  set (source := w :: ws) in *.
  replace (length source =? 0)%nat with false by reflexivity.
  destruct (length source mod 4 =? 0)%nat eqn:Hmod; [|reflexivity].
  cbn [negb]. cbv zeta.
  pose proof (multiple_of_four _ Hmod) as Hlen.
  set (n := (length source / 4)%nat) in *.
  assert (Hn : (0 < n)%nat) by (cbn [length source] in Hlen; lia).
  replace (replicate (length source) 0%Z) with (replicate (4 * n) 0%Z)
    by (rewrite <- Hlen; reflexivity).
  set (out := ParsedDataEncoding.gatherLanes ParsedDataEncoding.NAN_PATTERN source n
                (replicate (4 * n) 0%Z)).
  assert (Hol : length out = (4 * n)%nat) by apply gatherLanes_length.
  assert (How : Payloads.allWords out) by (apply gatherLanes_Forall; assumption).
  exists (ParsedDataEncoding.viewBytes out).
  split; [reflexivity|].
  split; [rewrite viewBytes_length, Hol; lia|].
  split; [apply viewBytes_bytes|].
  unfold ParsedDataEncoding.decodeChannelMajorFloat32.
  rewrite viewBytes_length, Hol.
  replace (4 * (4 * n) =? 0)%nat with false by (symmetry; apply Nat.eqb_neq; lia).
  replace (4 * (4 * n) mod 16 =? 0)%nat with true.
  2:{ symmetry. apply Nat.eqb_eq. replace (4 * (4 * n))%nat with (n * 16)%nat by lia.
      apply Nat.Div0.mod_mul. }
  cbn [negb]. cbv zeta.
  rewrite (viewWords_viewBytes out How), Hol.
  destruct (four_times_test n Hn) as (_ & _ & ->).
  unfold out. rewrite scatter_gather by exact Hlen. reflexivity.
Qed.



(** ** Export and import of a texture *)

Section TexturePayload.
Import ParsedDataEncoding ParsedDataTextures Payloads.

Lemma trunc_inject_Z (z : Z) : trunc (inject_Z z) = z.
Proof. unfold trunc, inject_Z. cbn. apply Z.quot_1_r. Qed.

Lemma readNonNegativeInt_nat (n : nat) (fallback : Q) :
  readNonNegativeInt (Some (inject_Z (Z.of_nat n))) fallback = Z.of_nat n.
Proof. unfold readNonNegativeInt. rewrite trunc_inject_Z. lia. Qed.

Lemma exported_payload_read (data : list Z) (n : nat) (textureLayout : TextureLayout) :
  allWords data -> length data = (n * 4)%nat ->
  exists bytes,
    exportBytes data textureLayout = Some bytes
    /\ readTexturePayloadAsFloat32 bytes (manifestEntry n textureLayout) = Some data.
Proof.
  intros Hw Hlen. destruct textureLayout; cbn [exportBytes].
  - exists (viewBytes data). split; [reflexivity|].
    unfold readTexturePayloadAsFloat32, manifestEntry.
    cbn [componentType layout predictor byteShuffle].
    rewrite viewBytes_length.
    replace (4 * length data mod 4 =? 0)%nat with true
      by (symmetry; apply Nat.eqb_eq; rewrite Nat.mul_comm; apply Nat.Div0.mod_mul).
    cbn [negb]. rewrite (viewWords_viewBytes data Hw). reflexivity.
  - pose proof (channelMajor_roundtrip data Hw) as H.
    replace (length data mod 4 =? 0)%nat with true in H
      by (symmetry; apply Nat.eqb_eq; rewrite Hlen; apply Nat.Div0.mod_mul).
    destruct H as (bytes & H1 & _ & _ & H4). exists bytes. split; [exact H1|].
    unfold readTexturePayloadAsFloat32, manifestEntry. cbn [componentType layout]. exact H4.
Qed.

End TexturePayload.



(** ** The chords of a flattened curve form one line *)

Section FlattenChain.
Import Extractor Polyline.
Variable flatness : Q.
Variable maxDepth : nat.

Lemma chained_snoc (chords : list Chord) :
  forall fromX fromY midX midY (c : Chord),
    chained fromX fromY chords midX midY ->
    ax c = midX -> ay c = midY ->
    chained fromX fromY (chords ++ [c]) (bx c) (by_ c).
Proof.
  induction chords as [|d chords IH]; intros fromX fromY midX midY c Hch Hx Hy.
  - destruct Hch as [<- <-]. cbn. auto.
  - destruct Hch as (H1 & H2 & H3). cbn. split; [exact H1|]. split; [exact H2|].
    apply (IH _ _ midX midY); assumption.
Qed.

Lemma flattenLoop_chained (fuel : nat) :
  forall stack out startX startY midX midY endX endY chords,
    chained startX startY out midX midY ->
    stackChained midX midY stack endX endY ->
    flattenLoop fuel flatness maxDepth stack out = Some chords ->
    chained startX startY chords endX endY.
Proof.
  induction fuel as [|fuel IH]; intros stack out sx sy mx my ex ey chords Hout Hst Hrun.
  - destruct stack as [|r rest]; [|discriminate Hrun].
    cbn in Hrun. injection Hrun as <-. destruct Hst as [<- <-]. exact Hout.
  - destruct stack as [|r rest].
    + cbn in Hrun. injection Hrun as <-. destruct Hst as [<- <-]. exact Hout.
    + cbn [flattenLoop] in Hrun. unfold flattenStep in Hrun. cbn [fst snd] in Hrun.
      destruct Hst as (Hx & Hy & Hrest).
      destruct (isLeaf flatness maxDepth r).
      * apply (IH rest (out ++ [chordOf r]) sx sy (q3x r) (q3y r) ex ey chords);
          [|exact Hrest | exact Hrun].
        apply (chained_snoc out sx sy mx my (chordOf r) Hout); assumption.
      * apply (IH (firstHalf r :: secondHalf r :: rest) out sx sy mx my ex ey chords);
          [exact Hout | | exact Hrun].
        cbn [stackChained]. unfold firstHalf, secondHalf.
        cbn [q0x q0y q3x q3y]. repeat split; try assumption.
Qed.

End FlattenChain.

(** X6.  The chords that [flattenCubic] emits form one connected line: the
    first starts at the first control point, each starts where the one
    before it ends, and the last ends at the last control point. *)
Theorem flattenCubic_connected (flatness : Q) (maxDepth : nat) (x0 y0 x1 y1 x2 y2 x3 y3 : Q) :
  let chords := Extractor.flattenCubic x0 y0 x1 y1 x2 y2 x3 y3 flatness maxDepth in
  chords <> [] /\ Polyline.chained x0 y0 chords x3 y3.
Proof.
  cbv zeta.
  destruct (flattenCubic_general flatness maxDepth x0 y0 x1 y1 x2 y2 x3 y3)
    as (chords & Hrun & -> & Hlen).
  split; [intros ->; cbn in Hlen; lia|].
  apply (flattenLoop_chained flatness maxDepth (Extractor.flattenFuel maxDepth)
           [Extractor.mkCubic x0 y0 x1 y1 x2 y2 x3 y3 0] [] x0 y0 x0 y0 x3 y3 chords);
    [cbn; auto | cbn; auto | exact Hrun].
Qed.

(** ** Texture sizes *)

Section TextureSizes.
Import TextureSize.
Local Open Scope Z_scope.

Lemma ceilDiv_spec (a b : Z) :
  0 < b -> b * (ceilDiv a b - 1) < a <= b * ceilDiv a b.
Proof.
  intros Hb. unfold ceilDiv.
  pose proof (Z.div_mod (- a) b ltac:(lia)) as E.
  pose proof (Z.mod_pos_bound (- a) b Hb) as M. nia.
Qed.

Lemma ceilSqrt_spec (n : Z) :
  0 < n -> 1 <= ceilSqrt n /\ (ceilSqrt n - 1) * (ceilSqrt n - 1) < n <= ceilSqrt n * ceilSqrt n.
Proof.
  intros Hn. unfold ceilSqrt. pose proof (Z.sqrt_up_spec n Hn) as H.
  rewrite <- Z.sub_1_r in H. split; [|exact H].
  destruct (Z.le_gt_cases 1 (Z.sqrt_up n)) as [Hle|Hgt]; [exact Hle|].
  pose proof (Z.sqrt_up_nonneg n). assert (Z.sqrt_up n = 0) by lia. nia.
Qed.

Lemma ceilSqrt_nonpos (n : Z) : n <= 0 -> ceilSqrt n = 0.
Proof. intros Hn. unfold ceilSqrt. apply Z.sqrt_up_eqn0. exact Hn. Qed.

Lemma ceilDiv_square (n w : Z) : 0 < w -> n <= w * w -> ceilDiv n w <= w.
Proof.
  intros Hw Hn. pose proof (ceilDiv_spec n w Hw) as H. nia.
Qed.

(** X7.  With a texture limit of at least one texel and a count that is not
    negative, [uploadSegments] throws exactly when the count exceeds the
    square of the limit; otherwise both sides of the segment textures are
    between 1 and the limit, the texture has room for every segment, and no
    row but the first is empty. *)
Theorem segment_texture_holds_all (segmentCount maxTextureSize : Z) :
  (1 <= maxTextureSize)%Z -> (0 <= segmentCount)%Z ->
  match TextureSize.segmentTextureSize segmentCount maxTextureSize with
  | None => (maxTextureSize * maxTextureSize < segmentCount)%Z
  | Some (width, height) =>
      (segmentCount <= maxTextureSize * maxTextureSize)%Z
      /\ (1 <= width <= maxTextureSize)%Z /\ (1 <= height <= maxTextureSize)%Z
      /\ (segmentCount <= width * height)%Z
      /\ (width * (height - 1) < Z.max 1 segmentCount)%Z
  end.
Proof.
  intros Hmax Hn. unfold TextureSize.segmentTextureSize. cbv zeta.
  set (w := TextureSize.clamp (TextureSize.ceilSqrt segmentCount) 1 maxTextureSize).
  assert (Hw : (1 <= w <= maxTextureSize)%Z).
  { unfold w, TextureSize.clamp.
    destruct (Z.ltb_spec (TextureSize.ceilSqrt segmentCount) 1); [lia|].
    destruct (Z.ltb_spec maxTextureSize (TextureSize.ceilSqrt segmentCount)); lia. }
  pose proof (ceilDiv_spec segmentCount w ltac:(lia)) as Hd.
  assert (Hfit : (segmentCount <= maxTextureSize * maxTextureSize ->
                  TextureSize.ceilDiv segmentCount w <= maxTextureSize)%Z).
  { intros Hsq. destruct (Z.eq_dec segmentCount 0) as [->|Hne].
    { unfold TextureSize.ceilDiv. cbn. rewrite Z.div_0_l by lia. lia. }
    destruct (ceilSqrt_spec segmentCount ltac:(lia)) as (S1 & S2 & S3).
    unfold w, TextureSize.clamp in *.
    destruct (Z.ltb_spec (TextureSize.ceilSqrt segmentCount) 1); [lia|].
    destruct (Z.ltb_spec maxTextureSize (TextureSize.ceilSqrt segmentCount)).
    - nia.
    - pose proof (ceilDiv_square segmentCount (TextureSize.ceilSqrt segmentCount)
                    ltac:(lia) S3). lia. }
  destruct (Z.ltb_spec maxTextureSize (Z.max 1 (TextureSize.ceilDiv segmentCount w)))
    as [Hthrow|Hok].
  - destruct (Z.le_gt_cases segmentCount (maxTextureSize * maxTextureSize)) as [Hsq|Hsq];
      [|lia].
    specialize (Hfit Hsq). lia.
  - split; [nia|]. split; [exact Hw|]. split; [lia|]. split; [nia|]. nia.
Qed.

Lemma segment_texture_holds_all_witness :
  (1 <= 4096)%Z /\ (0 <= 10)%Z
  /\ TextureSize.segmentTextureSize 10 4096 = Some (4, 3)%Z
  /\ (10 <= 4 * 3)%Z.
Proof.
  assert (H1 : (1 <= 4096)%Z) by lia. assert (H2 : (0 <= 10)%Z) by lia.
  pose proof (segment_texture_holds_all 10 4096 H1 H2) as H.
  change (TextureSize.segmentTextureSize 10 4096) with (Some (4, 3)%Z) in H.
  cbv beta iota in H. destruct H as (_ & _ & _ & H & _).
  split; [exact H1|]. split; [exact H2|]. split; [reflexivity | exact H].
Defined.

(** X8.  [chooseTextureSize] returns a texture of at least one texel that
    has room for [count] items, is at least as wide as it is high, and has
    no empty row but the first. *)
Theorem chosen_texture_holds_all (count : Z) :
  let '(width, height) := TextureSize.chooseTextureSize count in
  (1 <= height <= width)%Z
  /\ (count <= width * height)%Z
  /\ (width * (height - 1) < Z.max 1 count)%Z.
Proof.
  unfold TextureSize.chooseTextureSize.
  destruct (Z.leb_spec count 0) as [Hle|Hgt]; [lia|]. cbv zeta.
  destruct (ceilSqrt_spec count Hgt) as (S1 & S2 & S3).
  rewrite (Z.max_r 1 (TextureSize.ceilSqrt count)) by lia.
  set (w := TextureSize.ceilSqrt count) in *.
  pose proof (ceilDiv_spec count w ltac:(lia)) as Hd.
  pose proof (ceilDiv_square count w ltac:(lia) S3) as Hsq.
  split; [lia|]. split; nia.
Qed.

End TextureSizes.

(** ** The camera *)

Section CameraProps.
Import Camera.
Local Open Scope Q_scope.

Lemma clamp_between (value lo hi : Q) : lo <= hi -> lo <= clamp value lo hi <= hi.
Proof.
  intros Hle. unfold clamp.
  destruct (Qltb value lo) eqn:E1; [split; [apply Qle_refl | exact Hle]|].
  apply Qltb_false in E1.
  destruct (Qltb hi value) eqn:E2; [split; [exact Hle | apply Qle_refl]|].
  apply Qltb_false in E2. split; assumption.
Qed.

Lemma clamp_inside (value lo hi : Q) : lo <= value <= hi -> clamp value lo hi = value.
Proof.
  intros [H1 H2]. unfold clamp.
  destruct (Qltb value lo) eqn:E1.
  { apply Qltb_true in E1. exfalso. apply (Qlt_not_le _ _ E1), H1. }
  destruct (Qltb hi value) eqn:E2; [|reflexivity].
  apply Qltb_true in E2. exfalso. apply (Qlt_not_le _ _ E2), H2.
Qed.

Lemma clamp_above (value lo hi : Q) : lo <= hi -> lo < clamp value lo hi -> clamp value lo hi <= value.
Proof.
  intros Hle. unfold clamp.
  destruct (Qltb value lo) eqn:E1; [intros H; exfalso; apply (Qlt_irrefl _ H)|].
  destruct (Qltb hi value) eqn:E2.
  - intros _. apply Qltb_true in E2. apply Qlt_le_weak, E2.
  - intros _. apply Qle_refl.
Qed.

Lemma dprOf_nonzero (client : Client) : ~ dprOf client == 0.
Proof.
  unfold dprOf. destruct (Qeqb (devicePixelRatio client) 0) eqn:E.
  - discriminate.
  - intros H. apply Qeq_bool_iff in H. unfold Qeqb in E. congruence.
Qed.

End CameraProps.

(** X9.  With [0 < minZoom <= maxZoom] and a positive zoom,
    [zoomAtClientPoint] leaves the zoom between the two limits, multiplies
    it by the factor clamped to [0.1, 10] whenever that product is between
    the limits, and, in exact arithmetic, keeps the world point under the
    client point where it was. *)
Theorem zoom_keeps_anchor (client : Camera.Client) (st : Camera.State)
    (clientX clientY zoomFactor : Q) :
  (0 < Camera.zoom st)%Q ->
  (0 < Camera.minZoom st)%Q -> (Camera.minZoom st <= Camera.maxZoom st)%Q ->
  let st' := Camera.zoomAtClientPoint client clientX clientY zoomFactor st in
  let target := (Camera.zoom st * Camera.clamp zoomFactor 0.1 10)%Q in
  (Camera.minZoom st <= Camera.zoom st' <= Camera.maxZoom st)%Q
  /\ ((Camera.minZoom st <= target <= Camera.maxZoom st)%Q -> Camera.zoom st' = target)
  /\ (fst (Camera.clientToWorld client st' clientX clientY)
      == fst (Camera.clientToWorld client st clientX clientY))%Q
  /\ (snd (Camera.clientToWorld client st' clientX clientY)
      == snd (Camera.clientToWorld client st clientX clientY))%Q.
Proof.
  intros Hz Hmin Hle. cbv zeta.
  unfold Camera.zoomAtClientPoint. cbv zeta.
  cbn [Camera.zoom].
  split; [apply clamp_between, Hle|].
  split; [intros Hin; apply clamp_inside, Hin|].
  unfold Camera.clientToWorld.
  cbn [fst snd Camera.zoom Camera.cameraCenterX Camera.cameraCenterY
       Camera.canvasWidth Camera.canvasHeight].
  split; ring.
Qed.

Lemma zoom_keeps_anchor_witness :
  let client := Camera.mkClient 0 600 2 in
  let st := Camera.mkCamera 5 5 1 0.01 4096 800 600 false in
  (0 < Camera.zoom st)%Q /\ (0 < Camera.minZoom st)%Q
  /\ (Camera.minZoom st <= Camera.maxZoom st)%Q
  /\ Camera.zoom (Camera.zoomAtClientPoint client 100 100 2 st) = (1 * 2)%Q.
Proof.
  intros client st.
  assert (H1 : (0 < Camera.zoom st)%Q) by reflexivity.
  assert (H2 : (0 < Camera.minZoom st)%Q) by reflexivity.
  assert (H3 : (Camera.minZoom st <= Camera.maxZoom st)%Q) by discriminate.
  destruct (zoom_keeps_anchor client st 100 100 2 H1 H2 H3) as (_ & H & _).
  split; [exact H1|]. split; [exact H2|]. split; [exact H3|].
  apply H. split; vm_compute; discriminate.
Defined.

(** X10.  With a positive zoom, [panByPixels] moves the camera so that, in
    exact arithmetic, the world point that was under a client point is
    under the point [deltaX] and [deltaY] device pixels further right and
    down; two pans in a row move the centre as one pan by the sum does; and
    a delta that is not finite leaves the camera as it was. *)
Theorem pan_drags_content (client : Camera.Client) (st : Camera.State)
    (dx dy dx2 dy2 clientX clientY : Q) :
  (0 < Camera.zoom st)%Q ->
  let dpr := Camera.dprOf client in
  let st' := Camera.panByPixels (Some dx) (Some dy) st in
  Camera.zoom st' = Camera.zoom st
  /\ (fst (Camera.clientToWorld client st' (clientX + dx / dpr) (clientY + dy / dpr))
      == fst (Camera.clientToWorld client st clientX clientY))%Q
  /\ (snd (Camera.clientToWorld client st' (clientX + dx / dpr) (clientY + dy / dpr))
      == snd (Camera.clientToWorld client st clientX clientY))%Q
  /\ (Camera.cameraCenterX (Camera.panByPixels (Some dx2) (Some dy2) st')
      == Camera.cameraCenterX (Camera.panByPixels (Some (dx + dx2)) (Some (dy + dy2)) st))%Q
  /\ (Camera.cameraCenterY (Camera.panByPixels (Some dx2) (Some dy2) st')
      == Camera.cameraCenterY (Camera.panByPixels (Some (dx + dx2)) (Some (dy + dy2)) st))%Q
  /\ Camera.panByPixels None (Some dy) st = st
  /\ Camera.panByPixels (Some dx) None st = st.
Proof.
  intros Hz. cbv zeta. pose proof (dprOf_nonzero client) as Hd.
  assert (Hz' : ~ (Camera.zoom st == 0)%Q) by (intros E; rewrite E in Hz; discriminate Hz).
  unfold Camera.panByPixels, Camera.clientToWorld.
  cbn [fst snd Camera.zoom Camera.cameraCenterX Camera.cameraCenterY
       Camera.canvasWidth Camera.canvasHeight].
  split; [reflexivity|].
  split; [field; split; assumption|].
  split; [field; split; assumption|].
  split; [field; assumption|].
  split; [field; assumption|].
  split; reflexivity.
Qed.

Lemma pan_drags_content_witness :
  let client := Camera.mkClient 0 600 2 in
  let st := Camera.mkCamera 5 5 2 0.01 4096 800 600 false in
  (0 < Camera.zoom st)%Q
  /\ (Camera.cameraCenterX (Camera.panByPixels (Some 10) (Some 4) st) == 0)%Q.
Proof.
  intros client st.
  assert (H1 : (0 < Camera.zoom st)%Q) by reflexivity.
  pose proof (pan_drags_content client st 10 4 0 0 0 0 H1) as H.
  cbv zeta in H. destruct H as (_ & _ & _ & H & _).
  split; [exact H1|]. rewrite <- H. reflexivity.
Defined.

(** X11.  With [0 < minZoom <= maxZoom], [fitToBounds] centres the camera
    on the middle of the box and leaves the zoom between the two limits;
    whenever that zoom is above [minZoom], the box scaled by it is, in exact
    arithmetic, no wider and no higher than the canvas less the padding on
    both sides (or one pixel, if that is more). *)
Theorem fit_shows_whole_box (bounds : Extractor.Bounds) (paddingPixels : Q) (st : Camera.State) :
  (0 < Camera.minZoom st)%Q -> (Camera.minZoom st <= Camera.maxZoom st)%Q ->
  let st' := Camera.fitToBounds bounds paddingPixels st in
  Camera.cameraCenterX st' = ((Extractor.minX bounds + Extractor.maxX bounds) * 0.5)%Q
  /\ Camera.cameraCenterY st' = ((Extractor.minY bounds + Extractor.maxY bounds) * 0.5)%Q
  /\ (Camera.minZoom st <= Camera.zoom st' <= Camera.maxZoom st)%Q
  /\ ((Camera.minZoom st < Camera.zoom st')%Q ->
      ((Extractor.maxX bounds - Extractor.minX bounds) * Camera.zoom st'
       <= max2 1 (Camera.canvasWidth st - paddingPixels * 2))%Q
      /\ ((Extractor.maxY bounds - Extractor.minY bounds) * Camera.zoom st'
          <= max2 1 (Camera.canvasHeight st - paddingPixels * 2))%Q).
Proof.
  intros Hmin Hle. cbv zeta. unfold Camera.fitToBounds. cbv zeta.
  cbn [Camera.cameraCenterX Camera.cameraCenterY Camera.zoom].
  split; [reflexivity|]. split; [reflexivity|].
  split; [apply clamp_between, Hle|].
  set (width := max2 (Extractor.maxX bounds - Extractor.minX bounds) 1e-4).
  set (height := max2 (Extractor.maxY bounds - Extractor.minY bounds) 1e-4).
  set (viewWidth := max2 1 (Camera.canvasWidth st - paddingPixels * 2)).
  set (viewHeight := max2 1 (Camera.canvasHeight st - paddingPixels * 2)).
  set (raw := min2 (viewWidth / width) (viewHeight / height)).
  set (z := Camera.clamp raw (Camera.minZoom st) (Camera.maxZoom st)).
  intros Habove.
  pose proof (clamp_above raw _ _ Hle Habove) as Hraw. fold z in Hraw.
  assert (Hz : (0 <= z)%Q).
  { apply Qlt_le_weak. eapply Qlt_trans; [exact Hmin | exact Habove]. }
  destruct (max2_spec (Extractor.maxX bounds - Extractor.minX bounds) 1e-4) as [Hw1 Hw2].
  destruct (max2_spec (Extractor.maxY bounds - Extractor.minY bounds) 1e-4) as [Hh1 Hh2].
  fold width in Hw1, Hw2. fold height in Hh1, Hh2.
  assert (Hwpos : (0 < width)%Q) by (eapply Qlt_le_trans; [|exact Hw2]; reflexivity).
  assert (Hhpos : (0 < height)%Q) by (eapply Qlt_le_trans; [|exact Hh2]; reflexivity).
  destruct (min2_spec (viewWidth / width) (viewHeight / height)) as [Hr1 Hr2].
  fold raw in Hr1, Hr2.
  split.
  - apply Qle_trans with (width * z)%Q.
    { apply Qmult_le_compat_r; assumption. }
    apply Qle_trans with (width * (viewWidth / width))%Q.
    { rewrite !(Qmult_comm width). apply Qmult_le_compat_r; [|apply Qlt_le_weak, Hwpos].
      eapply Qle_trans; [exact Hraw | exact Hr1]. }
    rewrite Qmult_div_r; [apply Qle_refl|].
    intros E. rewrite E in Hwpos. discriminate Hwpos.
  - apply Qle_trans with (height * z)%Q.
    { apply Qmult_le_compat_r; assumption. }
    apply Qle_trans with (height * (viewHeight / height))%Q.
    { rewrite !(Qmult_comm height). apply Qmult_le_compat_r; [|apply Qlt_le_weak, Hhpos].
      eapply Qle_trans; [exact Hraw | exact Hr2]. }
    rewrite Qmult_div_r; [apply Qle_refl|].
    intros E. rewrite E in Hhpos. discriminate Hhpos.
Qed.

Lemma fit_shows_whole_box_witness :
  let st := Camera.mkCamera 0 0 1 0.01 4096 800 600 false in
  (0 < Camera.minZoom st)%Q /\ (Camera.minZoom st <= Camera.maxZoom st)%Q
  /\ Camera.cameraCenterX (Camera.fitToBounds (Extractor.mkBounds 0 0 10 0) 64 st)
     = ((0 + 10) * 0.5)%Q.
Proof.
  intros st.
  assert (H1 : (0 < Camera.minZoom st)%Q) by reflexivity.
  assert (H2 : (Camera.minZoom st <= Camera.maxZoom st)%Q) by discriminate.
  destruct (fit_shows_whole_box (Extractor.mkBounds 0 0 10 0) 64 st H1 H2) as (H & _).
  split; [exact H1|]. split; [exact H2 | exact H].
Defined.

(** ** Styles of the extracted strokes *)

Section EmittedStyles.
Import Extractor.
Variable mat : Mat2D.
Variables halfWidth luma alpha : Q.
Variable allowSegmentMerge : bool.
Variable P : Stroke -> Prop.
Hypothesis Hpushed : forall x0 y0 x1 y1 : Q,
  P (mkStroke (mkQuad (f32 x0) (f32 y0) (f32 x1) (f32 y1))
              (mkQuad (f32 halfWidth) (f32 luma) (f32 alpha) 0)).

Local Abbreviation good := (fun s : PathState => Forall P (strokes (sink s))).

Lemma pushStroke_all (k : Sink) (x0 y0 x1 y1 : Q) :
  Forall P (strokes k) -> Forall P (strokes (pushStroke k halfWidth luma alpha x0 y0 x1 y1)).
Proof.
  intros H. unfold pushStroke. cbn [strokes]. apply Forall_app. split; [exact H|].
  apply Forall_cons. split; [apply Hpushed | apply Forall_nil_2].
Qed.

Lemma flushPending_all (s : PathState) : good s -> good (flushPending halfWidth luma alpha s).
Proof.
  intros H. unfold flushPending. destruct (pending s) as [p|]; [|exact H].
  cbn [setPending setSink sink]. apply pushStroke_all, H.
Qed.

Lemma emitLine_all (s : PathState) (x0 y0 x1 y1 : Q) (allowMerge : bool) :
  good s -> good (emitLine halfWidth luma alpha allowSegmentMerge s x0 y0 x1 y1 allowMerge).
Proof.
  intros H. unfold emitLine. destruct (Qltb _ 1e-10); [exact H|].
  match goal with |- context [match ?m with Some _ => _ | None => _ end] =>
    destruct m as [merged|] end.
  - cbn [setPending bumpEmitted sink]. exact H.
  - destruct allowSegmentMerge.
    + cbn [setPending sink].
      apply (flushPending_all (bumpEmitted s)). cbn [bumpEmitted sink]. exact H.
    + cbn [setSink bumpEmitted sink]. apply pushStroke_all, H.
Qed.

Lemma emitChords_all (chords : list Chord) (s : PathState) :
  good s -> good (emitChords halfWidth luma alpha allowSegmentMerge s chords).
Proof.
  unfold emitChords. revert s. induction chords as [|c chords IH]; intros s H; cbn [fold_left].
  - exact H.
  - apply IH, emitLine_all, H.
Qed.

Lemma pathStep_all (s : PathState) (cmd : DrawCmd) :
  good s -> good (fst (pathStep mat halfWidth luma alpha allowSegmentMerge s cmd)).
Proof.
  intros H. destruct cmd; cbn [pathStep fst].
  - pose proof (flushPending_all s H) as H1. cbn [sink]. exact H1.
  - cbn [setCursor sink]. apply emitLine_all, H.
  - cbn [setCursor sink]. apply emitChords_all, H.
  - cbn [setCursor sink]. apply emitChords_all, H.
  - apply flushPending_all. cbn [setCursor sink].
    destruct (_ && _); [apply emitLine_all, H | exact H].
  - apply flushPending_all, H.
Qed.

Lemma pathLoop_all (pathData : list DrawCmd) (s : PathState) :
  good s -> good (pathLoop mat halfWidth luma alpha allowSegmentMerge s pathData).
Proof.
  revert s. induction pathData as [|cmd rest IH]; intros s H; cbn [pathLoop]; [exact H|].
  pose proof (pathStep_all s cmd H) as H1.
  destruct (pathStep mat halfWidth luma alpha allowSegmentMerge s cmd) as [s1 continue].
  cbn [fst] in H1. destruct continue; [apply IH, H1 | exact H1].
Qed.

Lemma emitSegmentsFromPath_all (pathData : list DrawCmd) (k : Sink) :
  Forall P (strokes k) ->
  Forall P (strokes (snd (emitSegmentsFromPath mat halfWidth luma alpha allowSegmentMerge
                            pathData k))).
Proof.
  intros H. unfold emitSegmentsFromPath. cbn [snd].
  apply flushPending_all, pathLoop_all. cbn [sink]. exact H.
Qed.

End EmittedStyles.

Section ExtractedStyles.
Import Extractor Strokes.
Local Open Scope Q_scope.

Lemma clamp01_range (v : Q) : 0 <= clamp01 v /\ clamp01 v <= 1.
Proof.
  unfold clamp01. destruct (Qleb v 0) eqn:E0; [split; discriminate|].
  apply Qleb_false in E0.
  destruct (Qleb 1 v) eqn:E1; [split; discriminate|].
  apply Qleb_false in E1. split; apply Qlt_le_weak; assumption.
Qed.

Lemma pushed_styleOk (hw l a : Q) :
  styleOk (mkQuad (f32 (max2 0.2 hw)) (f32 (clamp01 l)) (f32 (clamp01 a)) 0).
Proof.
  unfold styleOk. cbn [qa qb qc qd]. rewrite !f32_eq.
  destruct (max2_spec 0.2 hw) as [H _].
  destruct (clamp01_range l) as [L0 L1]. destruct (clamp01_range a) as [A0 A1].
  repeat split; assumption.
Qed.

Lemma interpStep_styles (merge : bool) (s : InterpState) (op : Operator) :
  Forall (fun seg => styleOk (style seg)) (strokes (pageSink s)) ->
  Forall (fun seg => styleOk (style seg)) (strokes (pageSink (interpStep merge s op))).
Proof.
  intros H.
  destruct op as [| |[t|]|w|v|entries|paint [pathData|]|]; cbn [interpStep];
    try exact H.
  - destruct (stateStack s); exact H.
  - destruct (negb (isStrokePaintOp paint)); [exact H|].
    match goal with |- context [emitSegmentsFromPath ?m ?h ?l ?a ?g ?p ?k] =>
      pose proof (emitSegmentsFromPath_all m h l a g (fun seg => styleOk (style seg))
                    (fun x0 y0 x1 y1 => pushed_styleOk _ _ _) p k H) as H1;
      destruct (emitSegmentsFromPath m h l a g p k) as [n k'] end.
    cbn [pageSink snd] in *. exact H1.
  - destruct (negb (isStrokePaintOp paint)); exact H.
Qed.

Lemma runOperators_styles (page : Page) (options : VectorExtractOptions) :
  Forall (fun seg => styleOk (style seg)) (strokes (pageSink (runOperators page options))).
Proof.
  unfold runOperators.
  assert (H : forall ops s,
             Forall (fun seg => styleOk (style seg)) (strokes (pageSink s)) ->
             Forall (fun seg => styleOk (style seg))
               (strokes (pageSink (fold_left (interpStep (enableSegmentMerge options)) ops s)))).
  { induction ops as [|op ops IH]; intros s Hs; cbn [fold_left]; [exact Hs|].
    apply IH, interpStep_styles, Hs. }
  apply H. cbn. apply Forall_nil_2.
Qed.

End ExtractedStyles.

(** X12.  In every scene that [extractFirstPageVectors] returns, with or
    without merging and culling, the endpoint and the style array hold
    [segmentCount] records, and every style record has a half width of at
    least 0.2, luma and alpha between 0 and 1 and a fourth channel of 0. *)
Theorem extracted_styles_valid (page : Extractor.Page) (options : Extractor.VectorExtractOptions) :
  let scene := Extractor.extractFirstPageVectors page options in
  length (Extractor.endpoints scene) = Extractor.segmentCount scene
  /\ length (Extractor.styles scene) = Extractor.segmentCount scene
  /\ Forall Strokes.styleOk (Extractor.styles scene).
Proof.
  cbv zeta. unfold Extractor.extractFirstPageVectors. cbv zeta.
  pose proof (runOperators_styles page options) as Hst.
  set (merged := Extractor.strokes (Extractor.pageSink (Extractor.runOperators page options)))
    in *.
  destruct (length merged) as [|m] eqn:Hm.
  { cbn. split; [reflexivity|]. split; [reflexivity | apply Forall_nil_2]. }
  destruct (negb (Extractor.enableInvisibleCull options)).
  { cbn [Extractor.endpoints Extractor.styles Extractor.segmentCount].
    rewrite !length_map. split; [exact Hm|]. split; [exact Hm|].
    apply Forall_fmap. exact Hst. }
  destruct (cull_spec merged) as (mask & _ & Hsel & Hcnt & _ & _).
  destruct (Extractor.cullSegmentCount (Extractor.cullInvisibleSegments merged)) as [|k] eqn:Hk.
  { cbn. split; [reflexivity|]. split; [reflexivity | apply Forall_nil_2]. }
  cbn [Extractor.endpoints Extractor.styles Extractor.segmentCount].
  rewrite !length_map. split; [symmetry; exact Hcnt|]. split; [symmetry; exact Hcnt|].
  apply Forall_fmap. rewrite Hsel.
  apply Forall_forall. intros seg Hseg.
  rewrite Forall_forall in Hst. apply Hst.
  apply (elem_of_sublist _ _ _ Hseg), selectKept_sublist.
Qed.

(** ** Bounds and duplicates of the culler's result *)

Section CullBounds.
Import Extractor Strokes.
Local Open Scope Q_scope.

Lemma min3_spec (a b c : Q) : min3 a b c <= a /\ min3 a b c <= b /\ min3 a b c <= c.
Proof.
  unfold min3. destruct (min2_spec (min2 a b) c) as [H1 H2].
  destruct (min2_spec a b) as [H3 H4].
  split; [exact (Qle_trans _ _ _ H1 H3)|]. split; [exact (Qle_trans _ _ _ H1 H4) | exact H2].
Qed.

Lemma max3_spec (a b c : Q) : a <= max3 a b c /\ b <= max3 a b c /\ c <= max3 a b c.
Proof.
  unfold max3. destruct (max2_spec (max2 a b) c) as [H1 H2].
  destruct (max2_spec a b) as [H3 H4].
  split; [exact (Qle_trans _ _ _ H3 H1)|]. split; [exact (Qle_trans _ _ _ H4 H1) | exact H2].
Qed.

(** A box inside another one. *)
Local Abbreviation grows :=
  (fun a b : Bounds => minX b <= minX a /\ maxX a <= maxX b
                       /\ minY b <= minY a /\ maxY a <= maxY b).

Lemma within_grows (a b : Bounds) (seg : Stroke) : grows a b -> within a seg -> within b seg.
Proof.
  intros (G1 & G2 & G3 & G4) ((A1 & A2) & (A3 & A4) & (A5 & A6) & (A7 & A8)).
  unfold within.
  split; [split; [exact (Qle_trans _ _ _ G1 A1) | exact (Qle_trans _ _ _ A2 G2)]|].
  split; [split; [exact (Qle_trans _ _ _ G1 A3) | exact (Qle_trans _ _ _ A4 G2)]|].
  split; [split; [exact (Qle_trans _ _ _ G3 A5) | exact (Qle_trans _ _ _ A6 G4)]|].
  split; [exact (Qle_trans _ _ _ G3 A7) | exact (Qle_trans _ _ _ A8 G4)].
Qed.

Lemma strokeBounds_step (acc : option Bounds) (seg : Stroke) :
  exists b, strokeBounds acc seg = Some b
            /\ within b seg
            /\ (forall a, acc = Some a -> grows a b).
Proof.
  unfold strokeBounds, extendBounds. destruct acc as [a|].
  - eexists. split; [reflexivity|]. cbn [minX minY maxX maxY].
    destruct (min3_spec (minX a) (qa (endpoint seg)) (qc (endpoint seg))) as (M1 & M2 & M3).
    destruct (min3_spec (minY a) (qb (endpoint seg)) (qd (endpoint seg))) as (M4 & M5 & M6).
    destruct (max3_spec (maxX a) (qa (endpoint seg)) (qc (endpoint seg))) as (M7 & M8 & M9).
    destruct (max3_spec (maxY a) (qb (endpoint seg)) (qd (endpoint seg))) as (N1 & N2 & N3).
    split.
    + unfold within. cbn [minX minY maxX maxY]. repeat split; assumption.
    + intros a' [= <-]. repeat split; assumption.
  - eexists. split; [reflexivity|].
    destruct (min2_spec (qa (endpoint seg)) (qc (endpoint seg))) as (M1 & M2).
    destruct (min2_spec (qb (endpoint seg)) (qd (endpoint seg))) as (M3 & M4).
    destruct (max2_spec (qa (endpoint seg)) (qc (endpoint seg))) as (M5 & M6).
    destruct (max2_spec (qb (endpoint seg)) (qd (endpoint seg))) as (M7 & M8).
    split.
    + unfold within. cbn [minX minY maxX maxY]. repeat split; assumption.
    + intros a' [=].
Qed.

Lemma strokeBounds_fold (segs : list Stroke) :
  forall acc,
    (forall a, acc = Some a ->
       exists b, fold_left strokeBounds segs acc = Some b /\ grows a b)
    /\ Forall (fun seg => exists b, fold_left strokeBounds segs acc = Some b /\ within b seg) segs.
Proof.
  induction segs as [|seg segs IH]; intros acc; cbn [fold_left].
  - split; [|apply Forall_nil_2]. intros a ->. exists a. split; [reflexivity|].
    repeat split; apply Qle_refl.
  - destruct (strokeBounds_step acc seg) as (b & Hb & Hw & Hg). rewrite Hb.
    destruct (IH (Some b)) as [I1 I2].
    destruct (I1 b eq_refl) as (c & Hc & Hbc).
    split.
    + intros a Ha. exists c. split; [exact Hc|].
      destruct (Hg a Ha) as (G1 & G2 & G3 & G4). destruct Hbc as (B1 & B2 & B3 & B4).
      split; [exact (Qle_trans _ _ _ B1 G1)|]. split; [exact (Qle_trans _ _ _ G2 B2)|].
      split; [exact (Qle_trans _ _ _ B3 G3) | exact (Qle_trans _ _ _ G4 B4)].
    + apply Forall_cons. split; [|exact I2].
      exists c. split; [exact Hc | apply (within_grows b c seg Hbc Hw)].
Qed.

Lemma widest_fold (segs : list Stroke) :
  forall m, m <= fold_left (fun m seg => max2 m (qa (style seg))) segs m
            /\ Forall (fun seg => qa (style seg)
                                  <= fold_left (fun m seg => max2 m (qa (style seg))) segs m) segs.
Proof.
  induction segs as [|seg segs IH]; intros m; cbn [fold_left].
  - split; [apply Qle_refl | apply Forall_nil_2].
  - destruct (IH (max2 m (qa (style seg)))) as [I1 I2].
    destruct (max2_spec m (qa (style seg))) as [M1 M2].
    split; [exact (Qle_trans _ _ _ M1 I1)|].
    apply Forall_cons. split; [exact (Qle_trans _ _ _ M2 I1) | exact I2].
Qed.

Lemma quantize_comp (x y scale : Q) : x == y -> quantize x scale = quantize y scale.
Proof.
  intros E. unfold quantize, round. apply Qfloor_comp. rewrite E. reflexivity.
Qed.

Lemma Qltb_asym (x y : Q) : Qltb x y = true -> Qltb y x = false /\ Qeqb x y = false /\ Qeqb y x = false.
Proof.
  intros H. apply Qltb_true in H. split; [apply Qltb_false, Qlt_le_weak, H|].
  split; apply not_true_iff_false; unfold Qeqb; rewrite Qeq_bool_iff; intros E;
    rewrite E in H; apply (Qlt_irrefl _ H).
Qed.

Lemma Qltb_total (x y : Q) :
  Qltb x y = false -> Qltb y x = false -> x == y /\ Qeqb x y = true /\ Qeqb y x = true.
Proof.
  intros H1 H2. apply Qltb_false in H1, H2.
  assert (E : x == y) by (apply Qle_antisym; assumption).
  split; [exact E|]. unfold Qeqb. split; apply Qeq_bool_iff; [exact E | symmetry; exact E].
Qed.

Lemma buildDuplicateKey_reversed (x0 y0 x1 y1 h l a : Q) :
  buildDuplicateKey x1 y1 x0 y0 h l a = buildDuplicateKey x0 y0 x1 y1 h l a.
Proof.
  unfold buildDuplicateKey.
  destruct (Qltb x1 x0) eqn:A.
  { destruct (Qltb_asym _ _ A) as (-> & -> & _). reflexivity. }
  destruct (Qltb x0 x1) eqn:B.
  { destruct (Qltb_asym _ _ B) as (_ & -> & _). reflexivity. }
  destruct (Qltb_total _ _ A B) as (Ex & -> & ->). cbn [orb andb].
  destruct (Qltb y1 y0) eqn:C.
  { destruct (Qltb_asym _ _ C) as (-> & _ & _). reflexivity. }
  destruct (Qltb y0 y1) eqn:D; [reflexivity|].
  destruct (Qltb_total _ _ C D) as (Ey & _ & _).
  rewrite (quantize_comp x1 x0) by exact Ex.
  rewrite (quantize_comp y1 y0) by exact Ey. reflexivity.
Qed.

End CullBounds.

(** X13.  The bounds that [cullInvisibleSegments] returns contain both
    endpoints of every surviving stroke, and its [maxHalfWidth] is at least
    0 and at least the half width of every surviving stroke. *)
Theorem cull_bounds_enclose_survivors (segs : list Extractor.Stroke) :
  let r := Extractor.cullInvisibleSegments segs in
  (0 <= Extractor.cullMaxHalfWidth r)%Q
  /\ Forall (fun seg => Strokes.within (Extractor.cullBounds r) seg
                        /\ (qa (Extractor.style seg) <= Extractor.cullMaxHalfWidth r)%Q)
            (Extractor.cullStrokes r).
Proof.
  cbv zeta. destruct (cull_shape segs) as [HB HM]. rewrite HB, HM.
  set (out := Extractor.cullStrokes (Extractor.cullInvisibleSegments segs)).
  destruct (widest_fold out 0%Q) as [W0 W1].
  destruct (strokeBounds_fold out None) as [_ B1].
  split; [exact W0|].
  rewrite Forall_forall in W1, B1. apply Forall_forall. intros seg Hseg.
  split; [|apply W1, Hseg].
  destruct (B1 seg Hseg) as (b & Hb & Hw). rewrite Hb. exact Hw.
Qed.

(** X14.  No two survivors of [cullInvisibleSegments] have the same
    duplicate key; so no survivor is a copy of an earlier survivor, and none
    is an earlier survivor drawn the other way. *)
Theorem cull_survivors_distinct (segs : list Extractor.Stroke) (i j : nat)
    (a b : Extractor.Stroke) :
  let out := Extractor.cullStrokes (Extractor.cullInvisibleSegments segs) in
  (i < j)%nat -> out !! i = Some a -> out !! j = Some b ->
  Scenarios.duplicateKeyOf a <> Scenarios.duplicateKeyOf b
  /\ b <> a /\ b <> Strokes.reversed a.
Proof.
  cbv zeta. intros Hij Ha Hb.
  pose proof (cull_keys segs) as Hnd.
  assert (Hne : Scenarios.duplicateKeyOf a <> Scenarios.duplicateKeyOf b).
  { intros E. rewrite NoDup_alt in Hnd.
    assert (i = j); [|lia].
    apply (Hnd i j (Scenarios.duplicateKeyOf a)).
    - rewrite list_lookup_fmap, Ha. reflexivity.
    - rewrite list_lookup_fmap, Hb, E. reflexivity. }
  split; [exact Hne|]. split.
  - intros ->. apply Hne. reflexivity.
  - intros ->. apply Hne. unfold Scenarios.duplicateKeyOf, Strokes.reversed.
    cbn [Extractor.endpoint Extractor.style qa qb qc qd].
    symmetry. apply buildDuplicateKey_reversed.
Qed.

Lemma cull_survivors_distinct_witness :
  let out := Extractor.cullStrokes (Extractor.cullInvisibleSegments Scenarios.chainedStrokes) in
  (0 < 1)%nat /\ out !! 0%nat = Some Scenarios.coverBase
  /\ out !! 1%nat = Some Scenarios.coverWide
  /\ Scenarios.coverWide <> Strokes.reversed Scenarios.coverBase.
Proof.
  intros out.
  assert (H0 : (0 < 1)%nat) by lia.
  assert (H1 : out !! 0%nat = Some Scenarios.coverBase) by (vm_compute; reflexivity).
  assert (H2 : out !! 1%nat = Some Scenarios.coverWide) by (vm_compute; reflexivity).
  destruct (cull_survivors_distinct Scenarios.chainedStrokes 0 1
              Scenarios.coverBase Scenarios.coverWide H0 H1 H2) as (_ & _ & H).
  split; [exact H0|]. split; [exact H1|]. split; [exact H2 | exact H].
Defined.

(** ** Matrices, boxes and the graphics-state stack *)

Section Affine.
Import Extractor Strokes.
Local Open Scope Q_scope.

Lemma mul_between (k lo hi v : Q) :
  lo <= v -> v <= hi ->
  (k * lo <= k * v /\ k * v <= k * hi) \/ (k * hi <= k * v /\ k * v <= k * lo).
Proof.
  intros H1 H2. destruct (Qlt_le_dec k 0) as [Hk|Hk].
  - right. split; nra.
  - left. split; nra.
Qed.

Lemma min4_spec (a b c d : Q) :
  min2 (min3 a b c) d <= a /\ min2 (min3 a b c) d <= b
  /\ min2 (min3 a b c) d <= c /\ min2 (min3 a b c) d <= d.
Proof.
  destruct (min2_spec (min3 a b c) d) as [H1 H2].
  destruct (min3_spec a b c) as (H3 & H4 & H5).
  split; [exact (Qle_trans _ _ _ H1 H3)|]. split; [exact (Qle_trans _ _ _ H1 H4)|].
  split; [exact (Qle_trans _ _ _ H1 H5) | exact H2].
Qed.

Lemma max4_spec (a b c d : Q) :
  a <= max2 (max3 a b c) d /\ b <= max2 (max3 a b c) d
  /\ c <= max2 (max3 a b c) d /\ d <= max2 (max3 a b c) d.
Proof.
  destruct (max2_spec (max3 a b c) d) as [H1 H2].
  destruct (max3_spec a b c) as (H3 & H4 & H5).
  split; [exact (Qle_trans _ _ _ H3 H1)|]. split; [exact (Qle_trans _ _ _ H4 H1)|].
  split; [exact (Qle_trans _ _ _ H5 H1) | exact H2].
Qed.

(** The value of an affine form at a point of a box lies between its least
    and its greatest value at the four corners. *)
Lemma affine_in_corners (k1 k2 k0 x y x0 x1 y0 y1 : Q) :
  x0 <= x -> x <= x1 -> y0 <= y -> y <= y1 ->
  let f := fun u v => k1 * u + k2 * v + k0 in
  min2 (min3 (f x0 y0) (f x0 y1) (f x1 y0)) (f x1 y1) <= f x y
  /\ f x y <= max2 (max3 (f x0 y0) (f x0 y1) (f x1 y0)) (f x1 y1).
Proof.
  intros Hx0 Hx1 Hy0 Hy1 f. unfold f.
  destruct (min4_spec (k1 * x0 + k2 * y0 + k0) (k1 * x0 + k2 * y1 + k0)
                      (k1 * x1 + k2 * y0 + k0) (k1 * x1 + k2 * y1 + k0)) as (L1 & L2 & L3 & L4).
  destruct (max4_spec (k1 * x0 + k2 * y0 + k0) (k1 * x0 + k2 * y1 + k0)
                      (k1 * x1 + k2 * y0 + k0) (k1 * x1 + k2 * y1 + k0)) as (U1 & U2 & U3 & U4).
  destruct (mul_between k1 x0 x1 x Hx0 Hx1) as [[A1 A2]|[A1 A2]];
    destruct (mul_between k2 y0 y1 y Hy0 Hy1) as [[B1 B2]|[B1 B2]]; split; lra.
Qed.

End Affine.

(** X15.  For a box with [minX <= maxX] and [minY <= maxY], the box that
    [transformBounds] returns contains the image under the matrix of every
    point of the box. *)
Theorem transformed_box_contains_images (b : Extractor.Bounds) (m : Extractor.Mat2D) (x y : Q) :
  (Extractor.minX b <= x)%Q -> (x <= Extractor.maxX b)%Q ->
  (Extractor.minY b <= y)%Q -> (y <= Extractor.maxY b)%Q ->
  Strokes.inBox (Extractor.transformBounds b m) (Extractor.applyMatrix m x y).
Proof.
  intros Hx0 Hx1 Hy0 Hy1.
  unfold Strokes.inBox, Extractor.transformBounds, Extractor.applyMatrix.
  cbn [fst snd Extractor.minX Extractor.minY Extractor.maxX Extractor.maxY].
  split.
  - apply (affine_in_corners (Extractor.m0 m) (Extractor.m2 m) (Extractor.m4 m) x y
             _ _ _ _ Hx0 Hx1 Hy0 Hy1).
  - apply (affine_in_corners (Extractor.m1 m) (Extractor.m3 m) (Extractor.m5 m) x y
             _ _ _ _ Hx0 Hx1 Hy0 Hy1).
Qed.

Lemma transformed_box_contains_images_witness :
  let b := Extractor.mkBounds 0 0 100 50 in
  let m := Extractor.mkMat 0 1 (-1) 0 50 0 in
  (Extractor.minX b <= 10)%Q /\ (10 <= Extractor.maxX b)%Q
  /\ (Extractor.minY b <= 20)%Q /\ (20 <= Extractor.maxY b)%Q
  /\ Strokes.inBox (Extractor.transformBounds b m) (Extractor.applyMatrix m 10 20).
Proof.
  intros b m.
  assert (H1 : (Extractor.minX b <= 10)%Q) by discriminate.
  assert (H2 : (10 <= Extractor.maxX b)%Q) by discriminate.
  assert (H3 : (Extractor.minY b <= 20)%Q) by discriminate.
  assert (H4 : (20 <= Extractor.maxY b)%Q) by discriminate.
  pose proof (transformed_box_contains_images b m 10 20 H1 H2 H3 H4) as H.
  repeat (split; [assumption|]). exact H.
Defined.

(** X16.  In exact arithmetic, applying the product of two matrices to a
    point is applying the second factor and then the first (so a
    [transform] operator acts on the path before the matrix in force), and
    the identity matrix is neutral on both sides. *)
Theorem matrix_product_composes (a b : Extractor.Mat2D) (x y : Q) :
  let p := Extractor.applyMatrix (Extractor.multiplyMatrices a b) x y in
  let q := Extractor.applyMatrix b x y in
  let r := Extractor.applyMatrix a (fst q) (snd q) in
  (fst p == fst r)%Q /\ (snd p == snd r)%Q
  /\ (fst (Extractor.applyMatrix (Extractor.multiplyMatrices Extractor.IDENTITY_MATRIX a) x y)
      == fst (Extractor.applyMatrix a x y))%Q
  /\ (snd (Extractor.applyMatrix (Extractor.multiplyMatrices Extractor.IDENTITY_MATRIX a) x y)
      == snd (Extractor.applyMatrix a x y))%Q
  /\ (fst (Extractor.applyMatrix (Extractor.multiplyMatrices a Extractor.IDENTITY_MATRIX) x y)
      == fst (Extractor.applyMatrix a x y))%Q
  /\ (snd (Extractor.applyMatrix (Extractor.multiplyMatrices a Extractor.IDENTITY_MATRIX) x y)
      == snd (Extractor.applyMatrix a x y))%Q.
Proof.
  cbv zeta. unfold Extractor.applyMatrix, Extractor.multiplyMatrices, Extractor.IDENTITY_MATRIX.
  cbn [fst snd Extractor.m0 Extractor.m1 Extractor.m2 Extractor.m3 Extractor.m4 Extractor.m5].
  repeat split; ring.
Qed.

Section SaveRestore.
Import Extractor Strokes.
Variable merge : bool.

Local Abbreviation run := (fold_left (interpStep merge)).

Lemma interpStep_stack (s : InterpState) (op : Operator) :
  op <> OpSave -> op <> OpRestore -> stateStack (interpStep merge s op) = stateStack s.
Proof.
  intros H1 H2.
  destruct op as [| |[t|]|w|v|entries|paint [pathData|]|]; cbn [interpStep];
    try reflexivity; try congruence.
  - destruct (negb (isStrokePaintOp paint)); [reflexivity|].
    match goal with |- context [emitSegmentsFromPath ?m ?h ?l ?a ?g ?p ?k] =>
      destruct (emitSegmentsFromPath m h l a g p k) as [n k'] end.
    reflexivity.
  - destruct (negb (isStrokePaintOp paint)); reflexivity.
Qed.

Lemma run_nested (ops : list Operator) :
  forall (s : InterpState) (top base : list GraphicsState) (d : nat),
    stateStack s = top ++ base ->
    nestDepth (length top) ops = Some d ->
    exists top', length top' = d /\ stateStack (run ops s) = top' ++ base.
Proof.
  induction ops as [|op ops IH]; intros s top base d Hs Hd.
  - cbn in Hd. injection Hd as <-. exists top. split; [reflexivity | exact Hs].
  - cbn [fold_left].
    destruct op as [| |t|w|v|entries|paint path|];
      try (apply (IH _ top base d); [|exact Hd];
           rewrite interpStep_stack by discriminate; exact Hs).
    + cbn [nestDepth] in Hd.
      apply (IH _ (currentState s :: top) base d); [|exact Hd].
      cbn [interpStep stateStack]. rewrite Hs. reflexivity.
    + cbn [nestDepth] in Hd. destruct top as [|t top]; [discriminate Hd|].
      cbn [length] in Hd.
      apply (IH _ top base d); [|exact Hd].
      cbn [interpStep]. rewrite Hs. cbn [app stateStack]. reflexivity.
Qed.

End SaveRestore.

(** X17.  A [save], a run of operators in which every [restore] has its
    [save] and the reverse, and a [restore]: after the three the graphics
    state and the state stack are what they were before, whatever the run
    did to matrix, line width, luma and alpha. *)
Theorem restore_undoes_since_save (merge : bool) (body : list Extractor.Operator)
    (s : Extractor.InterpState) :
  Strokes.nestDepth 0 body = Some 0%nat ->
  let s' := fold_left (Extractor.interpStep merge)
              (Extractor.OpSave :: body ++ [Extractor.OpRestore]) s in
  Extractor.currentState s' = Extractor.currentState s
  /\ Extractor.stateStack s' = Extractor.stateStack s.
Proof.
  intros Hd. cbv zeta. cbn [fold_left]. rewrite fold_left_app. cbn [fold_left].
  set (s1 := Extractor.interpStep merge s Extractor.OpSave).
  destruct (run_nested merge body s1 [] (Extractor.currentState s :: Extractor.stateStack s) 0)
    as (top' & Hlen & Hstack).
  { reflexivity. }
  { exact Hd. }
  destruct top'; [|discriminate Hlen]. cbn [app] in Hstack.
  cbn [Extractor.interpStep]. rewrite Hstack. cbn. split; reflexivity.
Qed.

Lemma restore_undoes_since_save_witness :
  let body := [Extractor.OpSetLineWidth (Some 3%Q); Extractor.OpSave;
               Extractor.OpTransform (Some (Extractor.mkMat 2 0 0 2 0 0)); Extractor.OpRestore] in
  let s := Extractor.mkInterp [] (Extractor.createDefaultState Extractor.IDENTITY_MATRIX)
             0 0 0 (Extractor.mkSink [] None) in
  Strokes.nestDepth 0 body = Some 0%nat
  /\ Extractor.currentState
       (fold_left (Extractor.interpStep true)
          (Extractor.OpSave :: body ++ [Extractor.OpRestore]) s)
     = Extractor.currentState s.
Proof.
  intros body s.
  assert (H : Strokes.nestDepth 0 body = Some 0%nat) by reflexivity.
  destruct (restore_undoes_since_save true body s H) as [H1 _].
  split; [exact H | exact H1].
Defined.

(** ** The growing array *)

Section Builder.
Import Float4Builder.
Local Open Scope nat_scope.

Lemma growLoop_enough (fuel : nat) :
  forall needed nextLength,
    0 < nextLength -> needed <= nextLength + fuel ->
    exists n, growLoop fuel needed nextLength = Some n /\ needed <= n /\ nextLength <= n.
Proof.
  induction fuel as [|fuel IH]; intros needed nextLength Hpos Hn; cbn [growLoop].
  - destruct (Nat.ltb_spec nextLength needed); [lia|]. exists nextLength. auto.
  - destruct (Nat.ltb_spec nextLength needed).
    + destruct (IH needed (nextLength * 2)) as (n & H1 & H2 & H3); [lia | lia|].
      exists n. split; [exact H1|]. split; lia.
    + exists nextLength. auto.
Qed.

Lemma growLoop_zero (fuel : nat) (needed : nat) : 0 < needed -> growLoop fuel needed 0 = None.
Proof.
  intros Hn. induction fuel as [|fuel IH]; cbn [growLoop].
  - destruct (Nat.ltb_spec 0 needed); [reflexivity | lia].
  - destruct (Nat.ltb_spec 0 needed); [exact IH | lia].
Qed.

Lemma push_spec (fuel : nat) (a b c d : Q) (bld : Builder) :
  0 < length (data bld) -> length_ bld <= length (data bld) -> length_ bld + 4 <= fuel + 1 ->
  exists bld',
    push fuel a b c d bld = Some bld'
    /\ 0 < length (data bld') /\ length_ bld' <= length (data bld')
    /\ length_ bld' = length_ bld + 4
    /\ toTypedArray bld' = toTypedArray bld ++ [f32 a; f32 b; f32 c; f32 d].
Proof.
  intros Hpos Hle Hfuel. unfold push, ensureCapacity.
  assert (Hgrown : exists b1,
             (if length_ bld + 4 <=? length (data bld) then Some bld
              else match growLoop fuel (length_ bld + 4) (length (data bld)) with
                   | Some nextLength =>
                       Some (mkBuilder (data bld ++ replicate (nextLength - length (data bld)) 0%Q)
                                       (length_ bld))
                   | None => None
                   end) = Some b1
             /\ length_ b1 = length_ bld /\ length_ bld + 4 <= length (data b1)
             /\ take (length_ bld) (data b1) = take (length_ bld) (data bld)).
  { destruct (Nat.leb_spec (length_ bld + 4) (length (data bld))).
    - exists bld. auto.
    - destruct (growLoop_enough fuel (length_ bld + 4) (length (data bld)) Hpos)
        as (n & -> & H1 & H2); [lia|].
      eexists. split; [reflexivity|]. cbn [length_ data].
      split; [reflexivity|]. split.
      + rewrite length_app, length_replicate. lia.
      + apply take_app_le. exact Hle. }
  destruct Hgrown as (b1 & -> & Hl & Hcap & Htake).
  eexists. split; [reflexivity|]. cbn [data length_]. rewrite !length_insert.
  split; [lia|]. split; [lia|]. split; [lia|].
  unfold toTypedArray. cbn [data length_]. rewrite Hl, <- Htake.
  set (o := length_ bld) in *.
  destruct (lookup_lt_is_Some_2 (data b1) o) as [v0 E0]; [lia|].
  destruct (lookup_lt_is_Some_2 (data b1) (o + 1)) as [v1 E1]; [lia|].
  destruct (lookup_lt_is_Some_2 (data b1) (o + 2)) as [v2 E2]; [lia|].
  destruct (lookup_lt_is_Some_2 (data b1) (o + 3)) as [v3 E3]; [lia|].
  apply list_eq. intros k.
  destruct (decide (k < o)) as [Hk|Hk].
  - rewrite lookup_take_lt by lia. rewrite !list_lookup_insert_ne by lia.
    rewrite lookup_app_l by (rewrite length_take_le; lia).
    rewrite lookup_take_lt by lia. reflexivity.
  - destruct (decide (k < o + 4)) as [Hk4|Hk4].
    + rewrite lookup_take_lt by lia.
      rewrite lookup_app_r by (rewrite length_take_le; lia).
      rewrite length_take_le by lia.
      assert (Hc : k = o \/ k = o + 1 \/ k = o + 2 \/ k = o + 3) by lia.
      destruct Hc as [-> | [-> | [-> | ->] ] ].
      * rewrite !list_lookup_insert_ne by lia.
        rewrite list_lookup_insert_eq by lia. rewrite Nat.sub_diag. reflexivity.
      * rewrite !list_lookup_insert_ne by lia.
        rewrite list_lookup_insert_eq by (rewrite !length_insert; lia).
        replace (o + 1 - o) with 1 by lia. reflexivity.
      * rewrite list_lookup_insert_ne by lia.
        rewrite list_lookup_insert_eq by (rewrite !length_insert; lia).
        replace (o + 2 - o) with 2 by lia. reflexivity.
      * rewrite list_lookup_insert_eq by (rewrite !length_insert; lia).
        replace (o + 3 - o) with 3 by lia. reflexivity.
    + rewrite lookup_take_ge by lia.
      rewrite lookup_ge_None_2; [reflexivity|].
      rewrite length_app, length_take_le by lia. cbn. lia.
Qed.

Lemma floatsOf_cons (q : Quad) (quads : list Quad) :
  Packing.floatsOf (q :: quads)
  = [f32 (qa q); f32 (qb q); f32 (qc q); f32 (qd q)] ++ Packing.floatsOf quads.
Proof. reflexivity. Qed.

Lemma pushAll_spec (fuel : nat) (quads : list Quad) :
  forall bld,
    0 < length (data bld) -> length_ bld <= length (data bld) ->
    length_ bld + 4 * length quads <= fuel + 1 ->
    exists bld',
      pushAll fuel quads bld = Some bld'
      /\ length_ bld' = length_ bld + 4 * length quads
      /\ length_ bld' <= length (data bld')
      /\ toTypedArray bld' = toTypedArray bld ++ Packing.floatsOf quads.
Proof.
  induction quads as [|q quads IH]; intros bld Hpos Hle Hfuel; cbn [pushAll].
  - exists bld. split; [reflexivity|]. cbn [length]. split; [lia|]. split; [exact Hle|].
    cbn. rewrite app_nil_r. reflexivity.
  - cbn [length] in Hfuel.
    destruct (push_spec fuel (qa q) (qb q) (qc q) (qd q) bld Hpos Hle)
      as (b1 & -> & P1 & P2 & P3 & P4); [lia|].
    destruct (IH b1 P1 P2) as (b2 & H1 & H2 & H3 & H4); [lia|].
    exists b2. split; [exact H1|]. cbn [length]. split; [lia|]. split; [exact H3|].
    rewrite H4, P4, floatsOf_cons, <- app_assoc. reflexivity.
Qed.

End Builder.

(** X18.  A builder made with room for at least one record takes any run of
    pushes (the doubling loop ends each time); afterwards [quadCount] is the
    number of records pushed and [toTypedArray] returns their floats, in
    the order of the pushes, whatever the initial capacity was. *)
Theorem builder_returns_pushed (initialQuads fuel : nat) (quads : list Quad) :
  (0 < initialQuads)%nat -> (4 * length quads <= fuel + 1)%nat ->
  exists b,
    Float4Builder.pushAll fuel quads (Float4Builder.create initialQuads) = Some b
    /\ Float4Builder.quadCount b = length quads
    /\ Float4Builder.toTypedArray b = Packing.floatsOf quads.
Proof.
  intros Hq Hfuel.
  destruct (pushAll_spec fuel quads (Float4Builder.create initialQuads))
    as (b & H1 & H2 & H3 & H4).
  { cbn. rewrite length_replicate. lia. }
  { cbn. lia. }
  { cbn. lia. }
  exists b. split; [exact H1|]. split.
  - unfold Float4Builder.quadCount. rewrite H2. cbn [Float4Builder.length_ Float4Builder.create].
    rewrite Nat.add_0_l, Nat.mul_comm. apply Nat.div_mul. lia.
  - rewrite H4. reflexivity.
Qed.

Lemma builder_returns_pushed_witness :
  (0 < 1)%nat /\ (4 * length [mkQuad 0 0 10 0; mkQuad 1 2 3 4] <= 7 + 1)%nat
  /\ exists b,
       Float4Builder.pushAll 7 [mkQuad 0 0 10 0; mkQuad 1 2 3 4] (Float4Builder.create 1)
       = Some b
       /\ Float4Builder.quadCount b = 2%nat.
Proof.
  assert (H1 : (0 < 1)%nat) by lia.
  assert (H2 : (4 * length [mkQuad 0 0 10 0; mkQuad 1 2 3 4] <= 7 + 1)%nat) by (cbn; lia).
  destruct (builder_returns_pushed 1 7 [mkQuad 0 0 10 0; mkQuad 1 2 3 4] H1 H2)
    as (b & Hb & Hc & _).
  split; [exact H1|]. split; [exact H2|]. exists b. split; [exact Hb | exact Hc].
Defined.

(** X19.  On a builder made with a capacity of zero records the doubling
    loop of [ensureCapacity] never ends: doubling zero gives zero, and no
    bound on the number of doublings lets a push return. *)
Theorem empty_builder_never_grows (fuel : nat) (a b c d : Q) :
  Float4Builder.push fuel a b c d (Float4Builder.create 0) = None.
Proof.
  unfold Float4Builder.push, Float4Builder.ensureCapacity, Float4Builder.create.
  cbn [Float4Builder.length_ Float4Builder.data replicate Nat.mul length Nat.add Nat.leb].
  rewrite growLoop_zero by lia. reflexivity.
Qed.

(** ** The cell lists of the grid *)

Section CellListsOfFill.
Import SpatialGrid Measures CellLists.

Lemma visitors_app (c : nat) (P R : list (nat * nat)) :
  visitors c (P ++ R) = visitors c P ++ visitors c R.
Proof.
  induction P as [|[i c'] P IH]; [reflexivity|]. cbn [app visitors].
  destruct (c' =? c)%nat; [cbn; f_equal|]; exact IH.
Qed.

Lemma visitors_length (c : nat) (P : list (nat * nat)) :
  length (visitors c P) = occ c (map snd P).
Proof.
  induction P as [|[i c'] P IH]; [reflexivity|]. cbn [visitors map snd occ].
  destruct (c' =? c)%nat; cbn [length]; lia.
Qed.

Variable V : list nat.
Variable N : nat.
Hypothesis Hvalid : Forall (fun c => (c < N)%nat) V.
Hypothesis Hcap : (Z.of_nat (length V) < 2 ^ 32)%Z.

Lemma fillFold_exact (R : list (nat * nat)) :
  forall (P : list (nat * nat)) (indices cursors : list Z),
    map snd (P ++ R) = V ->
    Forall (fun p => (Z.of_nat (fst p) < 2 ^ 32)%Z) R ->
    length indices = length V ->
    length cursors = N ->
    (forall c, (c < N)%nat ->
       get cursors c = Z.of_nat (below c V + occ c (map snd P))) ->
    (forall c j v, visitors c P !! j = Some v ->
       indices !! (below c V + j)%nat = Some (Z.of_nat v)) ->
    forall c j v, visitors c (P ++ R) !! j = Some v ->
      fst (fold_left (fun st p => fillCell (fst p) st (snd p)) R (indices, cursors))
        !! (below c V + j)%nat = Some (Z.of_nat v).
Proof.
  induction R as [|[i c] R IH]; intros P indices cursors HV Hids Hlen HlenC Hcur Hent;
    cbn [fold_left].
  - rewrite app_nil_r. exact Hent.
  - apply Forall_cons in Hids as [Hi Hids]. cbn [fst snd] in *.
    assert (HVsplit : V = map snd P ++ c :: map snd R).
    { rewrite <- HV, map_app. reflexivity. }
    assert (Hc : (c < N)%nat).
    { rewrite Forall_forall in Hvalid. apply Hvalid.
      rewrite HVsplit. apply elem_of_app. right. apply list_elem_of_here. }
    assert (Hocc : forall c', (occ c' (map snd P) <= occ c' V)%nat).
    { intros c'. rewrite HVsplit, occ_app. lia. }
    assert (Hk : (occ c (map snd P) < occ c V)%nat).
    { rewrite HVsplit, occ_app. cbn [occ]. rewrite Nat.eqb_refl. lia. }
    pose proof (Hcur c Hc) as Hcc.
    remember (occ c (map snd P)) as k eqn:Ek.
    remember (below c V + k)%nat as w eqn:Ew.
    assert (Hw : (w < length V)%nat).
    { pose proof (occ_le_span c V). lia. }
    unfold fillCell at 2. rewrite Hcc.
    rewrite Nat2Z.id.
    rewrite (u32_small (Z.of_nat i)) by lia.
    rewrite (u32_small (Z.of_nat w + 1)) by lia.
    specialize (IH (P ++ [(i, c)]) (<[w := Z.of_nat i]> indices)
                   (<[c := (Z.of_nat w + 1)%Z]> cursors)).
    rewrite <- app_assoc in IH. cbn [app] in IH.
    rewrite !length_insert in IH.
    apply IH; clear IH; try assumption.
    + intros c' Hc'. rewrite map_app, occ_app. cbn [map snd occ].
      destruct (Nat.eq_dec c c') as [<-|Hne].
      * rewrite get_insert_eq by lia. rewrite Nat.eqb_refl. lia.
      * rewrite get_insert_ne by exact Hne. rewrite (Hcur c' Hc').
        apply Nat.eqb_neq in Hne. rewrite Hne. lia.
    + intros c' j v Hv. rewrite visitors_app in Hv. cbn [visitors] in Hv.
      pose proof (visitors_length c' P) as HlenV.
      destruct (decide (j < length (visitors c' P))%nat) as [Hj|Hj].
      * rewrite lookup_app_l in Hv by exact Hj.
        rewrite list_lookup_insert_ne; [apply Hent, Hv|].
        destruct (Nat.lt_total c' c) as [Hlt | [-> | Hgt] ].
        -- pose proof (below_mono (S c') c V ltac:(lia)) as Hm.
           rewrite below_S in Hm. pose proof (Hocc c'). lia.
        -- lia.
        -- pose proof (below_mono (S c) c' V ltac:(lia)) as Hm.
           rewrite below_S in Hm. lia.
      * rewrite lookup_app_r in Hv by lia.
        destruct (Nat.eqb_spec c c') as [<-|Hne].
        -- destruct (j - length (visitors c P))%nat as [|j'] eqn:Ej; [|discriminate Hv].
           cbn in Hv. injection Hv as <-.
           assert (j = k) by lia. subst j.
           rewrite <- Ew. apply list_lookup_insert_eq. lia.
        -- destruct (j - length (visitors c' P))%nat; discriminate Hv.
Qed.

End CellListsOfFill.

Section CellListsOfScene.
Import SpatialGrid Measures CellLists.

Lemma indices_exact (scene : Extractor.VectorScene) :
  let g := buildSpatialGrid scene in
  let V := memberships scene in
  let n := Extractor.segmentCount scene in
  (Z.of_nat (length V) < 2 ^ 32)%Z -> (Z.of_nat n < 2 ^ 32)%Z ->
  forall c j v,
    visitors c (visitPairs (gridCells scene) n) !! j = Some v ->
    indices g !! (below c V + j)%nat = Some (Z.of_nat v).
Proof.
  intros g V n Hcap Hn.
  pose proof (memberships_valid scene) as Hvalid. fold V in Hvalid.
  unfold g, buildSpatialGrid, gridCells, visitPairs. unfold cellCountOf in *.
  unfold V, memberships in *.
  destruct (gridGeometry scene) as [ [ [gw gh] cw] ch] eqn:Hgeo.
  set (cellsOf := strokeCells scene gw gh cw ch) in *.
  fold n in Hvalid, Hcap |- *. set (N' := Z.to_nat (gw * gh)) in *.
  set (V' := flat_map cellsOf (seq 0 n)) in *.
  pose proof (countPass_spec cellsOf n N' Hvalid Hcap) as Hcount.
  destruct (countPass cellsOf n N') as [cnts mx].
  destruct Hcount as (CL & CV & CM).
  destruct (offsetPass_spec cnts V' N' CV Hcap) as (OL & OV).
  pose proof (OV N' (Nat.le_refl N')) as Htotal.
  rewrite (below_all N' V' Hvalid) in Htotal.
  unfold fillPass. rewrite fold_flat_pairs. rewrite Htotal, Nat2Z.id.
  set (pairs := flat_map (fun i => map (pair i) (cellsOf i)) (seq 0 n)).
  assert (Hsnd : map snd pairs = V').
  { unfold pairs. apply map_snd_flat_pairs. }
  assert (Hfst : forall p, p ∈ pairs -> (fst p < n)%nat).
  { intros [i c] Hp. apply elem_of_flat_pairs in Hp as [Hi _].
    apply elem_of_seq in Hi. cbn. lia. }
  pose proof (fillFold_exact V' N' Hvalid Hcap pairs [] (replicate (length V') 0%Z)
                (take N' (offsetPass cnts N'))) as Hfill.
  destruct (fold_left _ pairs _) as [inds curs]. cbn [fst] in Hfill.
  cbn [indices]. intros c j v Hv. apply Hfill; clear Hfill.
  - exact Hsnd.
  - apply Forall_forall. intros p Hp. specialize (Hfst p Hp). lia.
  - apply length_replicate.
  - rewrite length_take_le; [reflexivity | lia].
  - intros c' Hc'. unfold get. rewrite lookup_take_lt by exact Hc'.
    fold (get (offsetPass cnts N') c'). rewrite OV by lia. cbn. f_equal. lia.
  - intros c' j' v' Hin. destruct j'; discriminate Hin.
  - exact Hv.
Qed.

Lemma visitors_pairs_of (c i : nat) (cells : list nat) :
  NoDup cells ->
  visitors c (map (pair i) cells) = if decide (c ∈ cells) then [i] else [].
Proof.
  induction cells as [|x cells IH]; intros Hnd.
  - cbn. destruct (decide (c ∈ [])) as [H|H]; [apply elem_of_nil in H; destruct H | reflexivity].
  - apply NoDup_cons in Hnd as [Hx Hnd]. cbn [map visitors].
    destruct (Nat.eqb_spec x c) as [->|Hne].
    + rewrite (IH Hnd). destruct (decide (c ∈ cells)) as [H|H]; [contradiction|].
      destruct (decide (c ∈ c :: cells)) as [H'|H']; [reflexivity|].
      exfalso. apply H', list_elem_of_here.
    + rewrite (IH Hnd). destruct (decide (c ∈ cells)) as [H|H].
      * destruct (decide (c ∈ x :: cells)) as [H'|H']; [reflexivity|].
        exfalso. apply H', list_elem_of_further, H.
      * destruct (decide (c ∈ x :: cells)) as [H'|H']; [|reflexivity].
        apply elem_of_cons in H' as [->|H']; [congruence | contradiction].
Qed.

Lemma visitors_visitPairs (cellsOf : nat -> list nat) (c : nat) (l : list nat) :
  (forall i, NoDup (cellsOf i)) ->
  visitors c (flat_map (fun i => map (pair i) (cellsOf i)) l)
  = filter (fun i => c ∈ cellsOf i) l.
Proof.
  intros Hnd. induction l as [|i l IH]; [reflexivity|].
  cbn [flat_map]. rewrite visitors_app, IH, (visitors_pairs_of c i _ (Hnd i)).
  rewrite filter_cons. destruct (decide (c ∈ cellsOf i)); reflexivity.
Qed.

Lemma rangeCells_NoDup (gw c0 c1 r0 r1 : Z) :
  (0 <= c0)%Z -> (c1 < gw)%Z -> (0 <= r0)%Z -> NoDup (rangeCells gw (c0, c1, r0, r1)).
Proof.
  intros H0 H1 Hr. unfold rangeCells.
  apply NoDup_bind.
  - intros row1 row2 x Hrow1 Hrow2 Hx1 Hx2.
    apply list_elem_of_bind in Hx1 as (col1 & Hx1 & Hc1).
    apply list_elem_of_bind in Hx2 as (col2 & Hx2 & Hc2).
    apply list_elem_of_singleton in Hx1, Hx2.
    apply elem_of_seqZ in Hrow1, Hrow2, Hc1, Hc2. subst x.
    apply Z2Nat.inj in Hx2; [|nia|nia].
    destruct (Z.lt_total row1 row2) as [H|[H|H] ]; [exfalso; nia | exact H | exfalso; nia].
  - intros row Hrow. apply NoDup_bind.
    + intros col1 col2 x Hc1 Hc2 Hx1 Hx2.
      apply list_elem_of_singleton in Hx1, Hx2. subst x.
      apply elem_of_seqZ in Hrow, Hc1, Hc2.
      apply Z2Nat.inj in Hx2; [lia | nia | nia].
    + intros col _. apply NoDup_singleton.
    + apply NoDup_seqZ.
  - apply NoDup_seqZ.
Qed.

Lemma gridCells_NoDup (scene : Extractor.VectorScene) (i : nat) : NoDup (gridCells scene i).
Proof.
  unfold gridCells. pose proof (gridGeometry_range scene) as Hr.
  destruct (gridGeometry scene) as [ [ [gw gh] cw] ch]. destruct Hr as (Hw & Hh & _).
  unfold strokeCells.
  destruct (cellRange scene gw gh cw ch i) as [ [ [ [c0 c1] r0] r1]|] eqn:Hrange;
    [|apply NoDup_nil_2].
  assert (Hgw : (0 < gw)%Z) by lia. assert (Hgh : (0 < gh)%Z) by lia.
  destruct (cellRange_bounds scene gw gh cw ch i c0 c1 r0 r1 Hgw Hgh Hrange)
    as (H0 & H1 & H2 & H3).
  apply rangeCells_NoDup; lia.
Qed.

End CellListsOfScene.

(** X20.  In the grid of a scene whose stroke count and grid memberships are
    below [2^32], the slice of [indices] that [offsets] and [counts] give
    for a cell lists exactly the strokes whose cell range holds that cell,
    each once, in increasing order. *)
Theorem grid_cell_lists_exact (scene : Extractor.VectorScene) (c : nat) :
  (Z.of_nat (length (SpatialGrid.memberships scene)) < 2 ^ 32)%Z ->
  (Z.of_nat (Extractor.segmentCount scene) < 2 ^ 32)%Z ->
  (c < Measures.cellCountOf scene)%nat ->
  Renderer.cellEntries (SpatialGrid.buildSpatialGrid scene) c
  = map (fun i => Some (Z.of_nat i)) (CellLists.strokesOfCell scene c).
Proof.
  intros Hcap Hn Hc.
  destruct (buildSpatialGrid_spec scene Hcap) as (_ & _ & _ & _ & CV & _ & _ & OV & _ & _ & _).
  pose proof (indices_exact scene Hcap Hn c) as Hex.
  unfold Renderer.cellEntries. rewrite (OV c) by lia. rewrite (CV c Hc), Nat2Z.id.
  unfold CellLists.strokesOfCell.
  rewrite <- (visitors_visitPairs (Measures.gridCells scene) c _ (gridCells_NoDup scene)).
  fold (Measures.visitPairs (Measures.gridCells scene) (Extractor.segmentCount scene)) in *.
  set (vis := CellLists.visitors c _) in *.
  assert (Hlen : length vis = Measures.occ c (SpatialGrid.memberships scene)).
  { unfold vis. rewrite visitors_length. unfold Measures.visitPairs.
    rewrite map_snd_flat_pairs, memberships_unfold. reflexivity. }
  rewrite <- Hlen.
  set (base := Measures.below c (SpatialGrid.memberships scene)) in *.
  set (ind := SpatialGrid.indices (SpatialGrid.buildSpatialGrid scene)) in *.
  clearbody base ind vis.
  apply list_eq. intros j. rewrite !list_lookup_fmap.
  destruct (decide (j < length vis)%nat) as [Hj|Hj].
  - rewrite lookup_seq_lt by exact Hj.
    destruct (lookup_lt_is_Some_2 vis j Hj) as [v Hv]. rewrite Hv.
    cbn [fmap option_fmap option_map Nat.add].
    rewrite <- Nat2Z.inj_add, Nat2Z.id. rewrite (Hex j v Hv). reflexivity.
  - rewrite lookup_seq_ge by lia. rewrite (lookup_ge_None_2 vis j) by lia. reflexivity.
Qed.

Lemma grid_cell_lists_exact_witness :
  let scene := Scenarios.singleStrokeScene in
  (Z.of_nat (length (SpatialGrid.memberships scene)) < 2 ^ 32)%Z
  /\ (Z.of_nat (Extractor.segmentCount scene) < 2 ^ 32)%Z
  /\ (0 < Measures.cellCountOf scene)%nat
  /\ Renderer.cellEntries (SpatialGrid.buildSpatialGrid scene) 0
     = map (fun i => Some (Z.of_nat i)) (CellLists.strokesOfCell scene 0).
Proof.
  intros scene.
  assert (H1 : (Z.of_nat (length (SpatialGrid.memberships scene)) < 2 ^ 32)%Z).
  { pose proof (memberships_bound scene) as Hb.
    change (Extractor.segmentCount scene) with 1%nat in Hb. lia. }
  assert (H2 : (Z.of_nat (Extractor.segmentCount scene) < 2 ^ 32)%Z).
  { change (Extractor.segmentCount scene) with 1%nat. lia. }
  assert (H3 : (0 < Measures.cellCountOf scene)%nat).
  { unfold Measures.cellCountOf. pose proof (gridGeometry_range scene) as Hr.
    destruct (SpatialGrid.gridGeometry scene) as [ [ [gw gh] cw] ch].
    destruct Hr as (Hw & Hh & _). nia. }
  split; [exact H1|]. split; [exact H2|]. split; [exact H3|].
  exact (grid_cell_lists_exact scene 0 H1 H2 H3).
Defined.

(** ** The fallback bounds of a loaded archive *)

Section FallbackBounds.
Import Extractor ParsedDataScene StoredBoxes.
Local Open Scope Q_scope.

Context {A : Type} (p1 p2 p3 p4 : A -> Q).

Local Abbreviation boxOf := (fun x : A => mkQuad (p1 x) (p2 x) (p3 x) (p4 x)).
Local Abbreviation grow :=
  (fun (acc : option Bounds) (x : A) => growBounds acc (p1 x) (p2 x) (p3 x) (p4 x)).
Local Abbreviation inside :=
  (fun a b : Bounds => minX b <= minX a /\ minY b <= minY a
                       /\ maxX a <= maxX b /\ maxY a <= maxY b).

Lemma encloses_inside (a b : Bounds) (q : Quad) : inside a b -> encloses a q -> encloses b q.
Proof.
  intros (I1 & I2 & I3 & I4) (E1 & E2 & E3 & E4). unfold encloses.
  split; [exact (Qle_trans _ _ _ I1 E1)|]. split; [exact (Qle_trans _ _ _ I2 E2)|].
  split; [exact (Qle_trans _ _ _ E3 I3) | exact (Qle_trans _ _ _ E4 I4)].
Qed.

Lemma inside_refl (a : Bounds) : inside a a.
Proof. repeat split; apply Qle_refl. Qed.

Lemma inside_trans (a b c : Bounds) : inside a b -> inside b c -> inside a c.
Proof.
  intros (I1 & I2 & I3 & I4) (J1 & J2 & J3 & J4).
  split; [exact (Qle_trans _ _ _ J1 I1)|]. split; [exact (Qle_trans _ _ _ J2 I2)|].
  split; [exact (Qle_trans _ _ _ I3 J3) | exact (Qle_trans _ _ _ I4 J4)].
Qed.

Lemma growBounds_spec (acc : option Bounds) (x : A) :
  exists b, grow acc x = Some b /\ encloses b (boxOf x)
            /\ (forall a, acc = Some a -> inside a b).
Proof.
  destruct acc as [a|]; cbn [growBounds].
  - eexists. split; [reflexivity|].
    destruct (min2_spec (minX a) (p1 x)) as [M1 M2].
    destruct (min2_spec (minY a) (p2 x)) as [M3 M4].
    destruct (max2_spec (maxX a) (p3 x)) as [M5 M6].
    destruct (max2_spec (maxY a) (p4 x)) as [M7 M8].
    split.
    + unfold encloses. cbn [minX minY maxX maxY qa qb qc qd]. repeat split; assumption.
    + intros a' [= <-]. cbn [minX minY maxX maxY]. repeat split; assumption.
  - eexists. split; [reflexivity|]. split.
    + unfold encloses. cbn [minX minY maxX maxY qa qb qc qd]. repeat split; apply Qle_refl.
    + intros a' [=].
Qed.

Lemma growFold_some (l : list A) (a : Bounds) :
  exists b, fold_left grow l (Some a) = Some b /\ inside a b
            /\ Forall (fun x => encloses b (boxOf x)) l.
Proof.
  revert a. induction l as [|x l IH]; intros a.
  - exists a. split; [reflexivity|]. split; [apply inside_refl | constructor].
  - cbn [fold_left].
    destruct (growBounds_spec (Some a) x) as (b & Hb & Hx & Hin). rewrite Hb.
    destruct (IH b) as (c & Hc & Hbc & Hall).
    exists c. split; [exact Hc|]. split.
    + exact (inside_trans a b c (Hin a eq_refl) Hbc).
    + apply Forall_cons. split; [exact (encloses_inside b c _ Hbc Hx) | exact Hall].
Qed.

Lemma growFold_none (l : list A) :
  l <> [] ->
  exists b, fold_left grow l None = Some b /\ Forall (fun x => encloses b (boxOf x)) l.
Proof.
  destruct l as [|x l]; [congruence|]. intros _. cbn [fold_left].
  destruct (growBounds_spec None x) as (b & Hb & Hx & _). rewrite Hb.
  destruct (growFold_some l b) as (c & Hc & Hbc & Hall).
  exists c. split; [exact Hc|].
  apply Forall_cons. split; [exact (encloses_inside b c _ Hbc Hx) | exact Hall].
Qed.

End FallbackBounds.

Section FallbackOfScene.
Import Extractor ParsedDataScene StoredBoxes.
Local Open Scope Q_scope.

Lemma boundsFromPrimitiveBounds_spec (primitiveBounds : list Quad) (n i : nat) (box : Quad) :
  (i < n)%nat -> (n <= length primitiveBounds)%nat -> primitiveBounds !! i = Some box ->
  exists b, boundsFromPrimitiveBounds primitiveBounds n = Some b /\ encloses b box.
Proof.
  intros Hi Hn Hbox. unfold boundsFromPrimitiveBounds.
  replace (n =? 0)%nat with false by (symmetry; apply Nat.eqb_neq; lia).
  replace (length primitiveBounds <? n)%nat with false by (symmetry; apply Nat.ltb_ge; lia).
  cbn [orb].
  destruct (growFold_none qa qb qc qd (take n primitiveBounds)) as (b & Hb & Hall).
  { intros E. apply (f_equal length) in E. rewrite length_take in E. cbn in E. lia. }
  exists b. split; [exact Hb|].
  rewrite Forall_lookup in Hall.
  assert (Hlook : take n primitiveBounds !! i = Some box)
    by (rewrite lookup_take_lt by exact Hi; exact Hbox).
  specialize (Hall i box Hlook). cbn beta in Hall. destruct box; exact Hall.
Qed.

Lemma boundsFromFillPathMeta_spec (metaA metaB : list Quad) (n j : nat) (a b : Quad) :
  (j < n)%nat -> (n <= length metaA)%nat -> (n <= length metaB)%nat ->
  metaA !! j = Some a -> metaB !! j = Some b ->
  exists bd, boundsFromFillPathMeta metaA metaB n = Some bd /\ encloses bd (fillBox a b).
Proof.
  intros Hj HA HB Ha Hb. unfold boundsFromFillPathMeta.
  replace (n =? 0)%nat with false by (symmetry; apply Nat.eqb_neq; lia).
  replace (length metaA <? n)%nat with false by (symmetry; apply Nat.ltb_ge; lia).
  replace (length metaB <? n)%nat with false by (symmetry; apply Nat.ltb_ge; lia).
  cbn [orb].
  destruct (growFold_none (fun ab : Quad * Quad => qc (fst ab)) (fun ab => qd (fst ab))
                          (fun ab => qa (snd ab)) (fun ab => qb (snd ab))
                          (take n (zip metaA metaB))) as (bd & Hbd & Hall).
  { intros E. apply (f_equal length) in E. rewrite length_take, length_zip in E. cbn in E. lia. }
  exists bd. split; [exact Hbd|].
  rewrite Forall_lookup in Hall.
  assert (Hlook : take n (zip metaA metaB) !! j = Some (a, b)).
  { rewrite lookup_take_lt by exact Hj. apply lookup_zip_with_Some.
    exists a, b. repeat split; assumption. }
  exact (Hall j (a, b) Hlook).
Qed.

Lemma mergeBounds_left (a : Bounds) (b : option Bounds) (box : Quad) :
  encloses a box -> exists m, mergeBounds (Some a) b = Some m /\ encloses m box.
Proof.
  intros (E1 & E2 & E3 & E4). destruct b as [b|]; cbn [mergeBounds].
  - eexists. split; [reflexivity|].
    destruct (min2_spec (minX a) (minX b)) as [M1 _].
    destruct (min2_spec (minY a) (minY b)) as [M2 _].
    destruct (max2_spec (maxX a) (maxX b)) as [M3 _].
    destruct (max2_spec (maxY a) (maxY b)) as [M4 _].
    unfold encloses. cbn [minX minY maxX maxY].
    split; [exact (Qle_trans _ _ _ M1 E1)|]. split; [exact (Qle_trans _ _ _ M2 E2)|].
    split; [exact (Qle_trans _ _ _ E3 M3) | exact (Qle_trans _ _ _ E4 M4)].
  - exists a. split; [reflexivity|]. repeat split; assumption.
Qed.

Lemma mergeBounds_right (a : option Bounds) (b : Bounds) (box : Quad) :
  encloses b box -> exists m, mergeBounds a (Some b) = Some m /\ encloses m box.
Proof.
  intros (E1 & E2 & E3 & E4). destruct a as [a|]; cbn [mergeBounds].
  - eexists. split; [reflexivity|].
    destruct (min2_spec (minX a) (minX b)) as [_ M1].
    destruct (min2_spec (minY a) (minY b)) as [_ M2].
    destruct (max2_spec (maxX a) (maxX b)) as [_ M3].
    destruct (max2_spec (maxY a) (maxY b)) as [_ M4].
    unfold encloses. cbn [minX minY maxX maxY].
    split; [exact (Qle_trans _ _ _ M1 E1)|]. split; [exact (Qle_trans _ _ _ M2 E2)|].
    split; [exact (Qle_trans _ _ _ E3 M3) | exact (Qle_trans _ _ _ E4 M4)].
  - exists b. split; [reflexivity|]. repeat split; assumption.
Qed.

End FallbackOfScene.

(** X21. When an archive states no bounds, the bounds the loader computes
    from the textures enclose the stored box of every stroke: whatever the
    fill paths are, for a stroke [i] below the segment count of a bounds
    texture that holds that many records, the box of record [i] lies in
    [fallbackBounds]. *)
Theorem fallback_bounds_enclose_strokes
    (primitiveBounds : list Quad) (segmentCount : nat)
    (fillPathMetaA fillPathMetaB : list Quad) (fillPathCount : nat)
    (i : nat) (box : Quad) :
  (i < segmentCount)%nat ->
  (segmentCount <= length primitiveBounds)%nat ->
  primitiveBounds !! i = Some box ->
  StoredBoxes.encloses
    (ParsedDataScene.fallbackBounds primitiveBounds segmentCount
                                    fillPathMetaA fillPathMetaB fillPathCount)
    box.
Proof.
  intros Hi Hn Hbox. unfold ParsedDataScene.fallbackBounds.
  destruct (boundsFromPrimitiveBounds_spec primitiveBounds segmentCount i box Hi Hn Hbox)
    as (b & Hb & Hin).
  rewrite Hb.
  destruct (mergeBounds_left b
              (ParsedDataScene.boundsFromFillPathMeta fillPathMetaA fillPathMetaB fillPathCount)
              box Hin) as (m & Hm & Hmin).
  rewrite Hm. exact Hmin.
Qed.

Lemma fallback_bounds_enclose_strokes_witness :
  let primitiveBounds := [mkQuad 0 0 10 5; mkQuad (-3) 2 4 9] in
  let fillA := [mkQuad 0 0 20 (-7)] in
  let fillB := [mkQuad 30 1 0 0] in
  (1 < 2)%nat /\ (2 <= length primitiveBounds)%nat
  /\ primitiveBounds !! 1%nat = Some (mkQuad (-3) 2 4 9)
  /\ StoredBoxes.encloses
       (ParsedDataScene.fallbackBounds primitiveBounds 2 fillA fillB 1) (mkQuad (-3) 2 4 9).
Proof.
  intros primitiveBounds fillA fillB.
  split; [lia|]. split; [cbn; lia|]. split; [reflexivity|].
  apply (fallback_bounds_enclose_strokes primitiveBounds 2 fillA fillB 1 1 (mkQuad (-3) 2 4 9));
    [lia | cbn; lia | reflexivity].
Defined.

(** X22. The same bounds enclose the box of every fill path: for a fill path
    [j] below the fill path count of meta textures that hold that many
    records, the box that records [j] of the two textures store lies in
    [fallbackBounds], whatever the strokes are. *)
Theorem fallback_bounds_enclose_fills
    (primitiveBounds : list Quad) (segmentCount : nat)
    (fillPathMetaA fillPathMetaB : list Quad) (fillPathCount : nat)
    (j : nat) (metaA metaB : Quad) :
  (j < fillPathCount)%nat ->
  (fillPathCount <= length fillPathMetaA)%nat ->
  (fillPathCount <= length fillPathMetaB)%nat ->
  fillPathMetaA !! j = Some metaA ->
  fillPathMetaB !! j = Some metaB ->
  StoredBoxes.encloses
    (ParsedDataScene.fallbackBounds primitiveBounds segmentCount
                                    fillPathMetaA fillPathMetaB fillPathCount)
    (StoredBoxes.fillBox metaA metaB).
Proof.
  intros Hj HA HB Ha Hb. unfold ParsedDataScene.fallbackBounds.
  destruct (boundsFromFillPathMeta_spec fillPathMetaA fillPathMetaB fillPathCount j
              metaA metaB Hj HA HB Ha Hb) as (b & Hbd & Hin).
  rewrite Hbd.
  destruct (mergeBounds_right
              (ParsedDataScene.boundsFromPrimitiveBounds primitiveBounds segmentCount)
              b _ Hin) as (m & Hm & Hmin).
  rewrite Hm. exact Hmin.
Qed.

Lemma fallback_bounds_enclose_fills_witness :
  let primitiveBounds := [mkQuad 0 0 10 5; mkQuad (-3) 2 4 9] in
  let fillA := [mkQuad 0 0 20 (-7)] in
  let fillB := [mkQuad 30 1 0 0] in
  (0 < 1)%nat /\ (1 <= length fillA)%nat /\ (1 <= length fillB)%nat
  /\ fillA !! 0%nat = Some (mkQuad 0 0 20 (-7))
  /\ fillB !! 0%nat = Some (mkQuad 30 1 0 0)
  /\ StoredBoxes.encloses
       (ParsedDataScene.fallbackBounds primitiveBounds 2 fillA fillB 1)
       (StoredBoxes.fillBox (mkQuad 0 0 20 (-7)) (mkQuad 30 1 0 0)).
Proof.
  intros primitiveBounds fillA fillB.
  split; [lia|]. split; [cbn; lia|]. split; [cbn; lia|].
  split; [reflexivity|]. split; [reflexivity|].
  apply (fallback_bounds_enclose_fills primitiveBounds 2 fillA fillB 1 0);
    [lia | cbn; lia | cbn; lia | reflexivity | reflexivity].
Defined.

(** ** The migration of the legacy stroke layout *)

Section Migration.
Import ParsedDataScene.
Local Open Scope Q_scope.

Local Abbreviation flagOf :=
  (fun s : option Quad =>
     match s with
     | Some s => if Qleb 0.5 (qd s) then 1 else 0
     | None => 0
     end).
Local Abbreviation packedOf :=
  (fun s : option Quad => f32 (clamp01 (qc <$> s) + flagOf s * 2)).
Local Abbreviation metaAfter :=
  (fun (m s : option Quad) =>
     match m with
     | Some p => Some (mkQuad (qa p) (qb p) (qc p) (packedOf s))
     | None => None
     end).
Local Abbreviation styleAfter :=
  (fun s : option Quad =>
     match s with
     | Some x => Some (let luma := clamp01 (Some (qb x)) in mkQuad (qa x) luma luma luma)
     | None => None
     end).

Lemma migrate_clamp01_range (v : option Q) : 0 <= clamp01 v /\ clamp01 v <= 1.
Proof.
  destruct v as [v|]; cbn [clamp01]; [|split; [apply Qle_refl | discriminate]].
  destruct (Qltb v 0) eqn:E0; [split; [apply Qle_refl | discriminate]|].
  destruct (Qltb 1 v) eqn:E1; [split; [discriminate | apply Qle_refl]|].
  apply Qltb_false in E0. apply Qltb_false in E1. split; assumption.
Qed.

Lemma migrate_clamp01_keeps (v : Q) : 1e-6 < v -> 1e-6 < clamp01 (Some v).
Proof.
  intros Hv. cbn [clamp01].
  destruct (Qltb v 0) eqn:E0.
  - apply Qltb_true in E0. exfalso.
    assert (H : 0 < 1e-6) by reflexivity. lra.
  - destruct (Qltb 1 v) eqn:E1; [reflexivity | exact Hv].
Qed.

Lemma migrateFold_spec (primitiveMeta styles : list Quad) (n : nat) :
  forall i,
    (fold_left migrateStep (seq 0 n) (primitiveMeta, styles)).1 !! i
    = (if decide (i < n)%nat then metaAfter (primitiveMeta !! i) (styles !! i)
       else primitiveMeta !! i)
    /\ (fold_left migrateStep (seq 0 n) (primitiveMeta, styles)).2 !! i
       = (if decide (i < n)%nat then styleAfter (styles !! i) else styles !! i).
Proof.
  induction n as [|n IH]; intros i.
  - cbn [seq fold_left fst snd]. destruct (decide (i < 0)%nat); [lia|]. split; reflexivity.
  - rewrite seq_S, fold_left_app. cbn [fold_left Nat.add].
    destruct (fold_left migrateStep (seq 0 n) (primitiveMeta, styles)) as [m1 s1] eqn:E.
    cbn [fst snd] in IH.
    destruct (IH n) as [Hm Hs].
    destruct (decide (n < n)%nat); [lia|].
    unfold migrateStep. rewrite Hm, Hs. cbn [fst snd].
    destruct (IH i) as [Hmi Hsi].
    destruct (decide (i = n)) as [->|Hne].
    + destruct (decide (n < S n)%nat); [|lia]. split.
      * destruct (primitiveMeta !! n) as [p|] eqn:Ep.
        -- rewrite list_lookup_insert_eq; [reflexivity|].
           apply lookup_lt_is_Some. rewrite Hm. eauto.
        -- rewrite Hm. reflexivity.
      * destruct (styles !! n) as [x|] eqn:Ex.
        -- rewrite list_lookup_insert_eq; [reflexivity|].
           apply lookup_lt_is_Some. rewrite Hs. eauto.
        -- rewrite Hs. reflexivity.
    + assert (Hm' : forall q, <[n := q]> m1 !! i = m1 !! i)
        by (intros q; apply list_lookup_insert_ne; congruence).
      assert (Hs' : forall q, <[n := q]> s1 !! i = s1 !! i)
        by (intros q; apply list_lookup_insert_ne; congruence).
      split.
      * destruct (primitiveMeta !! n); [rewrite Hm'|]; rewrite Hmi;
          destruct (decide (i < n)%nat), (decide (i < S n)%nat); try lia; reflexivity.
      * destruct (styles !! n); [rewrite Hs'|]; rewrite Hsi;
          destruct (decide (i < n)%nat), (decide (i < S n)%nat); try lia; reflexivity.
Qed.

Lemma packedOf_range (s : option Quad) : 0 <= packedOf s /\ packedOf s <= 3.
Proof.
  unfold f32. rewrite Qred_correct.
  destruct (migrate_clamp01_range (qc <$> s)) as [C0 C1].
  destruct s as [s|]; [destruct (Qleb 0.5 (qd s))|]; split; lra.
Qed.

Lemma packedOf_visible (s : Quad) : 1e-6 < qc s -> 1e-6 < abs (packedOf (Some s)).
Proof.
  intros Hv. pose proof (migrate_clamp01_keeps (qc s) Hv) as Hc.
  unfold abs. rewrite Qabs_pos.
  - unfold f32. rewrite Qred_correct. cbn [fmap option_fmap option_map] in *.
    destruct (Qleb 0.5 (qd s)); lra.
  - apply (packedOf_range (Some s)).
Qed.

Lemma hasPackedStyleMeta_at (primitiveMeta : list Quad) (n i : nat) (p : Quad) :
  (i < n)%nat -> primitiveMeta !! i = Some p -> 1e-6 < abs (qd p) ->
  hasPackedStyleMeta primitiveMeta n = true.
Proof.
  intros Hi Hp Hd. unfold hasPackedStyleMeta. apply existsb_exists.
  exists i. split; [apply in_seq; lia|]. rewrite Hp.
  destruct (Qltb 1e-6 (abs (qd p))) eqn:E; [reflexivity|].
  apply Qltb_false in E. exfalso. lra.
Qed.

End Migration.

(** X23. Migration of a legacy archive, one without a packed fourth meta
    channel, leaves every stroke's half width and the first three channels
    of its meta record as they were, makes its three colour channels one
    luma between 0 and 1, and stores a fourth meta channel between 0
    and 3. *)
Theorem migration_keeps_geometry
    (primitiveMeta styles : list Quad) (segmentCount i : nat) (p s : Quad) :
  ParsedDataScene.hasPackedStyleMeta primitiveMeta segmentCount = false ->
  (i < segmentCount)%nat ->
  primitiveMeta !! i = Some p ->
  styles !! i = Some s ->
  exists luma packed : Q,
    (ParsedDataScene.migrateLegacyStrokeLayout primitiveMeta styles segmentCount).1 !! i
    = Some (mkQuad (qa p) (qb p) (qc p) packed)
    /\ (ParsedDataScene.migrateLegacyStrokeLayout primitiveMeta styles segmentCount).2 !! i
       = Some (mkQuad (qa s) luma luma luma)
    /\ (0 <= luma /\ luma <= 1)%Q /\ (0 <= packed /\ packed <= 3)%Q.
Proof.
  intros Hleg Hi Hp Hs. unfold ParsedDataScene.migrateLegacyStrokeLayout.
  replace (segmentCount =? 0)%nat with false by (symmetry; apply Nat.eqb_neq; lia).
  rewrite Hleg.
  destruct (migrateFold_spec primitiveMeta styles segmentCount i) as [Hm Hst].
  destruct (decide (i < segmentCount)%nat); [|lia].
  rewrite Hp, Hs in Hm. rewrite Hs in Hst.
  eexists _, _. split; [exact Hm|]. split; [exact Hst|].
  split; [apply migrate_clamp01_range | apply (packedOf_range (Some s))].
Qed.

Lemma migration_keeps_geometry_witness :
  let primitiveMeta := [mkQuad 10 5 0 0; mkQuad 4 9 0 0] in
  let styles := [mkQuad 0.5 0.25 1 0; mkQuad 2 0.75 0.5 1] in
  ParsedDataScene.hasPackedStyleMeta primitiveMeta 2 = false
  /\ (1 < 2)%nat
  /\ primitiveMeta !! 1%nat = Some (mkQuad 4 9 0 0)
  /\ styles !! 1%nat = Some (mkQuad 2 0.75 0.5 1)
  /\ exists luma packed : Q,
       (ParsedDataScene.migrateLegacyStrokeLayout primitiveMeta styles 2).1 !! 1%nat
       = Some (mkQuad 4 9 0 packed)
       /\ (ParsedDataScene.migrateLegacyStrokeLayout primitiveMeta styles 2).2 !! 1%nat
          = Some (mkQuad 2 luma luma luma)
       /\ (0 <= luma /\ luma <= 1)%Q /\ (0 <= packed /\ packed <= 3)%Q.
Proof.
  intros primitiveMeta styles.
  split; [reflexivity|]. split; [lia|]. split; [reflexivity|]. split; [reflexivity|].
  apply (migration_keeps_geometry primitiveMeta styles 2 1 (mkQuad 4 9 0 0) (mkQuad 2 0.75 0.5 1));
    [reflexivity | lia | reflexivity | reflexivity].
Defined.

(** X24. Migrating twice is migrating once for a scene with a stroke that
    is not fully transparent: when some stroke below the segment count has
    a legacy alpha above [1e-6], a second call of
    [migrateLegacyStrokeLayout] on the arrays the first call left changes
    nothing. *)
Theorem migration_runs_once
    (primitiveMeta styles : list Quad) (segmentCount i : nat) (p s : Quad) :
  (i < segmentCount)%nat ->
  primitiveMeta !! i = Some p ->
  styles !! i = Some s ->
  (1e-6 < qc s)%Q ->
  let once := ParsedDataScene.migrateLegacyStrokeLayout primitiveMeta styles segmentCount in
  ParsedDataScene.migrateLegacyStrokeLayout once.1 once.2 segmentCount = once.
Proof.
  intros Hi Hp Hs Hvis once. subst once.
  unfold ParsedDataScene.migrateLegacyStrokeLayout at 2 3 4.
  replace (segmentCount =? 0)%nat with false by (symmetry; apply Nat.eqb_neq; lia).
  destruct (ParsedDataScene.hasPackedStyleMeta primitiveMeta segmentCount) eqn:Hleg.
  - cbn [fst snd]. unfold ParsedDataScene.migrateLegacyStrokeLayout.
    replace (segmentCount =? 0)%nat with false by (symmetry; apply Nat.eqb_neq; lia).
    rewrite Hleg. reflexivity.
  - set (r := fold_left ParsedDataScene.migrateStep (seq 0 segmentCount) (primitiveMeta, styles)).
    assert (Hpacked : ParsedDataScene.hasPackedStyleMeta r.1 segmentCount = true).
    { destruct (migrateFold_spec primitiveMeta styles segmentCount i) as [Hm _].
      fold r in Hm. destruct (decide (i < segmentCount)%nat); [|lia].
      rewrite Hp, Hs in Hm.
      apply (hasPackedStyleMeta_at r.1 segmentCount i _ Hi Hm).
      cbn [qd]. exact (packedOf_visible s Hvis). }
    unfold ParsedDataScene.migrateLegacyStrokeLayout.
    replace (segmentCount =? 0)%nat with false by (symmetry; apply Nat.eqb_neq; lia).
    rewrite Hpacked. destruct r; reflexivity.
Qed.

Lemma migration_runs_once_witness :
  let primitiveMeta := [mkQuad 10 5 0 0; mkQuad 4 9 0 0] in
  let styles := [mkQuad 0.5 0.25 1 0; mkQuad 2 0.75 0.5 1] in
  (1 < 2)%nat
  /\ primitiveMeta !! 1%nat = Some (mkQuad 4 9 0 0)
  /\ styles !! 1%nat = Some (mkQuad 2 0.75 0.5 1)
  /\ (1e-6 < 0.5)%Q
  /\ let once := ParsedDataScene.migrateLegacyStrokeLayout primitiveMeta styles 2 in
     ParsedDataScene.migrateLegacyStrokeLayout once.1 once.2 2 = once.
Proof.
  intros primitiveMeta styles.
  split; [lia|]. split; [reflexivity|]. split; [reflexivity|]. split; [reflexivity|].
  apply (migration_runs_once primitiveMeta styles 2 1 (mkQuad 4 9 0 0) (mkQuad 2 0.75 0.5 1));
    [lia | reflexivity | reflexivity | reflexivity].
Defined.
